(** * cdk-extensions: IPAM pools and tiered subnet allocation

    A shallow embedding of the address-allocation core of cdk-extensions:

    - [TieredSubnets] ([src/ec2/lib/ip-addresses/tiered-subnets.ts]): the
      two-level split of a VPC block into one block per tier and, inside every
      tier, one block per availability zone;
    - [IpamPool] and [IpamPoolBase] (ipam-pool.ts), [IpamBase] (ipam.ts) and
      [IpamResourceDiscoveryAssociation]: the tree of IPAM resources.

    TypeScript exceptions are values of [Error] carried by [Result]; objects
    that the code mutates live in an explicit [World] that survives a throw,
    as the JavaScript heap does. *)

From stdpp Require Import base option list gmap strings pretty.

Open Scope string_scope.
Open Scope list_scope.
Open Scope Z_scope.

(** ** Errors and results *)

(** The kinds of [throw new Error(...)] found in the sources, after the error
    taxonomy of the specification.  Three errors are raised by the libraries
    the sources call: [DuplicateConstructName] and [EmptyConstructId] by the
    [Node] of the [constructs] library ([There is already a Construct with
    name ...], [Only root constructs may have an empty ID]), [FnCidrCount] by
    [Fn.cidr] of aws-cdk-lib ([Fn::Cidr's count attribute must be between 1
    and 256]).  [TypeError] is a property read on [undefined]. *)
Inductive Error : Type :=
| InvalidPrefixLength
| AddressSpaceExhausted
| PrefixTooWide
| DuplicateCidr (cidr : string)
| LocaleMismatch
| NestingUnsupported
| DuplicateTagRestrictionKey (key : string)
| ScopeQuotaExceeded
| DuplicateRegion (region : string)
| MissingNetmask
| TierMaskTooNarrow
| InconsistentSubnetSize
| SubnetMaskTooNarrow
| DuplicateConstructName (id : string)
| EmptyConstructId
| FnCidrCount (count : nat)
| TypeError.

Inductive Result (A : Type) : Type :=
| Ok (a : A)
| Err (e : Error).
Arguments Ok {A} a.
Arguments Err {A} e.

#[global] Instance Result_ret : MRet Result := fun _ a => Ok a.
#[global] Instance Result_bind : MBind Result := fun _ _ f r =>
  match r with
  | Ok a => f a
  | Err e => Err e
  end.

#[global] Instance Result_fmap : FMap Result := fun _ _ f r =>
  match r with
  | Ok a => Ok (f a)
  | Err e => Err e
  end.

Definition isOk {A} (r : Result A) : bool :=
  match r with Ok _ => true | Err _ => false end.

(** ** JavaScript values used by the sources *)

Module Js.

(** [Array.from(new Set(xs))]: a [Set] keeps the first insertion of every
    value, in insertion order. *)
Definition setAdd `{EqDecision A} (seen : list A) (x : A) : list A :=
  if decide (x ∈ seen) then seen else seen ++ [x].

Definition arrayFromSet `{EqDecision A} (xs : list A) : list A :=
  foldl setAdd [] xs.

(** Truthiness of a number ([0] is falsy) and of an optional number
    ([undefined] is falsy): the left operand of [x && ...]. *)
Definition truthyNum (z : Z) : bool := negb (z =? 0).

Definition truthyOptNum (o : option Z) : bool :=
  match o with
  | Some z => truthyNum z
  | None => false
  end.

(** Truthiness of an optional string ([undefined] and [""] are falsy). *)
Definition truthyOptStr (o : option string) : bool :=
  match o with
  | Some s => negb (String.eqb s EmptyString)
  | None => false
  end.

(** An optional property of an object literal: the key is absent, or it is an
    own key, whose value may be [undefined].  Reading the property gives
    [undefined] in both cases; an object spread copies own keys only. *)
Inductive Property (A : Type) : Type :=
| Absent
| Own (value : option A).
Arguments Absent {A}.
Arguments Own {A} value.

Definition read {A} (p : Property A) : option A :=
  match p with
  | Absent => None
  | Own value => value
  end.

(** [xs.forEach((x, idx) => ...)] with a body that updates a state and may
    throw: the first throw ends the loop. *)
Fixpoint forEachFrom {A St} (body : St -> A -> nat -> Result St)
    (idx : nat) (xs : list A) (s : St) : Result St :=
  match xs with
  | [] => Ok s
  | x :: xs' => s' ← body s x idx; forEachFrom body (S idx) xs' s'
  end.

Definition forEach {A St} (body : St -> A -> nat -> Result St)
    (xs : list A) (s : St) : Result St :=
  forEachFrom body 0 xs s.

(** [xs.map(f)] with a body that may throw. *)
Fixpoint mapResult {A B} (f : A -> Result B) (xs : list A) : Result (list B) :=
  match xs with
  | [] => Ok []
  | x :: xs' => y ← f x; ys ← mapResult f xs'; Ok (y :: ys)
  end.

End Js.

(** ** Address blocks and CloudFormation intrinsics *)

(** An IPv4 block: the network address as a number and the prefix length. *)
Record AddressBlock : Type := mkBlock { base : Z; prefixLength : Z }.

(** The value held where the sources expect a CIDR, a string by its type.
    It is a literal block, a deploy-time token (such as the VPC's [CidrBlock]
    attribute), or the token [Fn.select(index, Fn.cidr(ipBlock, count, bits))]
    of aws-cdk-lib, which CloudFormation resolves at deploy time.  One value
    is not a string: [ObjectPrototype], the object that a read of the key
    [__proto__] of an object literal returns. *)
Inductive Cidr : Type :=
| Literal (b : AddressBlock)
| Token (ref : string)
| FnSelect (index : nat) (array : CidrList)
| ObjectPrototype
with CidrList : Type :=
| FnCidr (ipBlock : Cidr) (count : nat) (cidrBits : Z).

Module Fn.

(** [Fn.cidr(ipBlock, count, sizeMask)]: the list token of [Fn::Cidr]; the
    constructor of the intrinsic throws unless [1 <= count <= 256]. *)
Definition cidr (ipBlock : Cidr) (count : nat) (sizeMask : Z) : Result CidrList :=
  if decide (count < 1 ∨ 256 < count)%nat then Err (FnCidrCount count)
  else Ok (FnCidr ipBlock count sizeMask).

(** [Fn.select(index, array)] on a list token: the token of [Fn::Select]. *)
Definition select (index : nat) (array : CidrList) : Cidr :=
  FnSelect index array.

End Fn.

(** [a.b.c.d/p] of a block, for the examples. *)
Definition ipv4 (a b c d : Z) (p : Z) : Cidr :=
  Literal (mkBlock (((a * 256 + b) * 256 + c) * 256 + d) p).

(** ** utils/networking *)

Module Networking.

(** Modelled from the spec: [getBiggestMask] of [utils/networking], which is
    not among the sources.  Section 4.1 ([biggestChildPrefix]): the smallest
    prefix length [p >= parentPrefix] with [2^(p - parentPrefix) >= childCount];
    it fails with [AddressSpaceExhausted] when [p] would exceed 32.  (The
    specification takes [childCount >= 1]; for no child the prefix is the
    parent's.) *)
Definition getBiggestMask (parentPrefix : Z) (childCount : nat) : Result Z :=
  let p := parentPrefix + Z.log2_up (Z.of_nat childCount) in
  if 32 <? p then Err AddressSpaceExhausted else Ok p.

(** Modelled from the spec: [validatePrefix] of section 4.1. *)
Definition validatePrefix (p : Z) : Result Z :=
  if (p <? 0) || (32 <? p) then Err InvalidPrefixLength else Ok p.

(** The [i]-th child of prefix length [childPrefix] inside [parent]. *)
Definition childBlock (parent : AddressBlock) (childPrefix : Z) (i : nat) : Cidr :=
  Literal (mkBlock (base parent + Z.of_nat i * 2 ^ (32 - childPrefix)) childPrefix).

(** Modelled from the spec: the [prefixLength] of an [AddressBlock]
    (section 3), which a block has in resolved and in symbolic form.  A
    literal carries it; the symbolic block [Fn.select(_, Fn.cidr(_, _, bits))]
    has [32 - bits]; a bare token and a value that is no string carry
    none. *)
Definition prefixOf (cidr : Cidr) : option Z :=
  match cidr with
  | Literal parent => Some (prefixLength parent)
  | FnSelect _ (FnCidr _ _ cidrBits) => Some (32 - cidrBits)
  | Token _ | ObjectPrototype => None
  end.

(** Modelled from the spec: [divideCidr] of [utils/networking], which is not
    among the sources.  Section 4.1 ([partition]): an explicit child prefix
    must not be numerically smaller than [getBiggestMask] ([PrefixTooWide]);
    otherwise the result is [count] blocks of the child prefix.  In direct
    mode (a literal parent) they are contiguous, in ascending address order,
    from the parent's base.  In deferred mode (a symbolic parent) the request
    is forwarded to [Fn.cidr] and one symbolic child is selected per index.
    A parent without prefix length has nothing in range for [validatePrefix]
    ([InvalidPrefixLength]). *)
Definition divideCidr (cidr : Cidr) (count : nat) (mask : option Z)
    : Result (list Cidr) :=
  match prefixOf cidr with
  | None => Err InvalidPrefixLength
  | Some parentPrefix =>
      biggest ← getBiggestMask parentPrefix count;
      let childPrefix := default biggest mask in
      if childPrefix <? biggest then Err PrefixTooWide else
      _ ← validatePrefix childPrefix;
      match cidr with
      | Literal parent => Ok (map (childBlock parent childPrefix) (seq 0 count))
      | _ =>
          children ← Fn.cidr cidr count (32 - childPrefix);
          Ok (map (fun i => Fn.select i children) (seq 0 count))
      end
  end.

End Networking.

(** ** ec2/lib/ip-addresses/tiered-subnets.ts *)

Module TieredSubnets.
Import Js Networking.

Record VpcIpamOptions : Type := {
  cidrBlock : option Cidr;
  ipv4IpamPoolId : option string;
  ipv4NetmaskLength : option Z
}.

Record SubnetConfiguration : Type := {
  name : string;
  cidrMask : option Z
}.

Record RequestedSubnet : Type := {
  availabilityZone : string;
  configuration : SubnetConfiguration
}.

#[global] Instance SubnetConfiguration_eq_dec : EqDecision SubnetConfiguration.
Proof. solve_decision. Defined.

#[global] Instance RequestedSubnet_eq_dec : EqDecision RequestedSubnet.
Proof. solve_decision. Defined.

Record AllocateCidrRequest : Type := {
  vpcCidr : Cidr;
  requestedSubnets : list RequestedSubnet
}.

(** An element of [allocatedSubnets]; [cidr] is [None] where the JavaScript
    value is [undefined]. *)
Record AllocatedSubnet : Type := { cidr : option Cidr }.

Record TieredSubnets : Type := {
  ipamOptions : VpcIpamOptions;
  ipamPool : option string;
  netmask : Z;
  tierMask : option Z
}.

(** [networkMap]: tier name, then zone name, to CIDR. *)
Abbreviation NetworkMap := (gmap string (gmap string Cidr)).

Definition tiersOf (input : AllocateCidrRequest) : list string :=
  arrayFromSet (map (fun x => name (configuration x)) (requestedSubnets input)).

Definition azsOf (input : AllocateCidrRequest) : list string :=
  arrayFromSet (map availabilityZone (requestedSubnets input)).

(** [input.requestedSubnets.filter((x) => x.configuration.name === tier)] *)
Definition tierSubnetsOf (input : AllocateCidrRequest) (tier : string)
    : list RequestedSubnet :=
  filter (fun x => name (configuration x) = tier) (requestedSubnets input).

(** [Array.from(new Set(tierSubnets.map((x) => x.configuration.cidrMask)))]:
    [undefined] is a member of the set like any number. *)
Definition masksOf (tierSubnets : list RequestedSubnet) : list (option Z) :=
  arrayFromSet (map (fun x => cidrMask (configuration x)) tierSubnets).

(** [masks[0]]: [undefined] when the array is empty or its first element is. *)
Definition firstMask (masks : list (option Z)) : option Z :=
  mjoin (head masks).

(** [byAz[az] = value] on the object literal [networkMap[tier]], where the
    value is a string or [undefined].  The key [__proto__] is the accessor of
    [Object.prototype]: its setter ignores a value that is neither an object
    nor [null], so the assignment stores nothing.  Any other key becomes an
    own key of the object (a key holding [undefined] reads as a key that is
    not there). *)
Definition assignAz (az : string) (value : option Cidr) (byAz : gmap string Cidr)
    : gmap string Cidr :=
  if decide (az = "__proto__") then byAz
  else match value with
       | Some c => <[az := c]> byAz
       | None => delete az byAz
       end.

(** [byAz[az]] for a zone that the loop over [azs] has assigned: the getter
    of [__proto__] returns [Object.prototype]; any other key is an own key. *)
Definition readAz (az : string) (byAz : gmap string Cidr) : option Cidr :=
  if decide (az = "__proto__") then Some ObjectPrototype
  else byAz !! az.

(** [azs.forEach((az, azIdx) => { networkMap[tier][az] = pick(azIdx); })]
    on a fresh [networkMap[tier] = {}]. *)
Fixpoint assignAzsFrom (pick : nat -> option Cidr) (idx : nat)
    (azs : list string) (m : gmap string Cidr) : gmap string Cidr :=
  match azs with
  | [] => m
  | az :: azs' => assignAzsFrom pick (S idx) azs' (assignAz az (pick idx) m)
  end.

Definition assignAzs (pick : nat -> option Cidr) (azs : list string)
    : gmap string Cidr :=
  assignAzsFrom pick 0 azs ∅.

(** The final [input.requestedSubnets.map(...)].  Every tier of the request
    was stored by the loop over [tiers]; the tier named [__proto__] is held
    in the prototype slot of [networkMap], from which it is read back. *)
Definition lookupSubnet (networkMap : NetworkMap) (x : RequestedSubnet)
    : Result AllocatedSubnet :=
  match networkMap !! name (configuration x) with
  | Some byAz => Ok {| cidr := readAz (availabilityZone x) byAz |}
  | None => Err TypeError
  end.

(** The body of [tiers.forEach] in [allocateSubnetsCidrIpam]. *)
Definition ipamTierBody (input : AllocateCidrRequest) (azs : list string)
    (effectiveTierMask : Z) (tierNetworks : CidrList)
    (networkMap : NetworkMap) (tier : string) (tIdx : nat) : Result NetworkMap :=
  let tierNetwork := Fn.select tIdx tierNetworks in
  let tierSubnets := tierSubnetsOf input tier in
  let subnetMask := masksOf tierSubnets in
  biggestSubnetMask ← getBiggestMask effectiveTierMask (length tierSubnets);
  if decide (1 < length subnetMask)%nat then Err InconsistentSubnetSize
  else if truthyOptNum (firstMask subnetMask)
          && bool_decide (biggestSubnetMask < default 0 (firstMask subnetMask))
  then Err SubnetMaskTooNarrow
  else
    let effectiveSubnetMask := default biggestSubnetMask (firstMask subnetMask) in
    subnetNetworks ←
      Fn.cidr tierNetwork (length tierSubnets) (32 - effectiveSubnetMask);
    Ok (<[tier := assignAzs (fun azIdx => Some (Fn.select azIdx subnetNetworks)) azs]>
          networkMap).

Definition allocateSubnetsCidrIpam (self : TieredSubnets)
    (input : AllocateCidrRequest) : Result (list AllocatedSubnet) :=
  let tiers := tiersOf input in
  let azs := azsOf input in
  match ipv4NetmaskLength (ipamOptions self) with
  | None => Err MissingNetmask
  | Some netmaskLength =>
      biggestMaskTier ← getBiggestMask netmaskLength (length tiers);
      if truthyOptNum (tierMask self)
         && bool_decide (biggestMaskTier < default 0 (tierMask self))
      then Err TierMaskTooNarrow
      else
        let effectiveTierMask := default biggestMaskTier (tierMask self) in
        tierNetworks ←
          Fn.cidr (vpcCidr input) (length tiers) (32 - effectiveTierMask);
        networkMap ← forEach (ipamTierBody input azs effectiveTierMask tierNetworks)
                        tiers ∅;
        mapResult (lookupSubnet networkMap) (requestedSubnets input)
  end.

(** The body of [tiers.forEach] in [allocateSubnetsCidrNoIpam]. *)
Definition noIpamTierBody (input : AllocateCidrRequest) (azs : list string)
    (tierNetworks : list Cidr)
    (networkMap : NetworkMap) (tier : string) (tIdx : nat) : Result NetworkMap :=
  let tierSubnets := tierSubnetsOf input tier in
  let maskBits := masksOf tierSubnets in
  if decide (1 < length maskBits)%nat then Err InconsistentSubnetSize
  else
    match tierNetworks !! tIdx with
    | None => Err TypeError
    | Some tierNetwork =>
        azNetworks ← divideCidr tierNetwork (length azs) (firstMask maskBits);
        Ok (<[tier := assignAzs (fun azIdx => azNetworks !! azIdx) azs]> networkMap)
    end.

Definition allocateSubnetsCidrNoIpam (self : TieredSubnets)
    (input : AllocateCidrRequest) : Result (list AllocatedSubnet) :=
  let tiers := tiersOf input in
  let azs := azsOf input in
  tierNetworks ← divideCidr (vpcCidr input) (length tiers) (tierMask self);
  networkMap ← forEach (noIpamTierBody input azs tierNetworks) tiers ∅;
  mapResult (lookupSubnet networkMap) (requestedSubnets input).

Definition allocateSubnetsCidr (self : TieredSubnets)
    (input : AllocateCidrRequest) : Result (list AllocatedSubnet) :=
  if bool_decide (is_Some (cidrBlock (ipamOptions self)))
  then allocateSubnetsCidrNoIpam self input
  else allocateSubnetsCidrIpam self input.

(** *** The constructor *)

(** [config.cidrDetails]: the CIDR (a non-empty string) and its netmask. *)
Record CidrDetails : Type := {
  detailsCidr : Cidr;
  detailsNetmask : Z
}.

(** [config.ipamDetails]: the id of the pool ([ipamPool?.ipamPoolId]) and the
    netmask. *)
Record IpamDetails : Type := {
  detailsIpamPoolId : option string;
  ipamNetmask : Z
}.

(** The value of [options.provider.getCidrOrIpamConfiguration({})]. *)
Record CidrAssignmentConfiguration : Type := {
  cidrDetails : option CidrDetails;
  ipamDetails : option IpamDetails
}.

Record TieredSubnetsOptions : Type := {
  provider : CidrAssignmentConfiguration;
  optionsTierMask : option Z
}.

(** [new TieredSubnets(options)]; [None] is the throw of the constructor
    ([Provided CIDR assignment failed to provide either CIDR or IPAM
    details ...]). *)
Definition TieredSubnets_new (options : TieredSubnetsOptions) : option TieredSubnets :=
  match cidrDetails (provider options) with
  | Some details =>
      Some {| ipamOptions := {| cidrBlock := Some (detailsCidr details);
                                ipv4IpamPoolId := None;
                                ipv4NetmaskLength := None |};
              ipamPool := None;
              netmask := detailsNetmask details;
              tierMask := optionsTierMask options |}
  | None =>
      match ipamDetails (provider options) with
      | Some details =>
          Some {| ipamOptions := {| cidrBlock := None;
                                    ipv4IpamPoolId := detailsIpamPoolId details;
                                    ipv4NetmaskLength := Some (ipamNetmask details) |};
                  ipamPool := detailsIpamPoolId details;
                  netmask := ipamNetmask details;
                  tierMask := optionsTierMask options |}
      | None => None
      end
  end.

Definition allocateVpcCidr (self : TieredSubnets) : VpcIpamOptions :=
  ipamOptions self.

End TieredSubnets.

(** ** aws-cdk-lib and constructs *)

Module Token.

Definition validKeyChar (a : Ascii.ascii) : bool :=
  let n := Ascii.nat_of_ascii a in
  ((97 <=? n) && (n <=? 122) || (65 <=? n) && (n <=? 90)
   || (48 <=? n) && (n <=? 58) || (n =? 46) || (n =? 95) || (n =? 45))%nat.

Fixpoint stripPrefix (p s : string) : option string :=
  match p, s with
  | EmptyString, _ => Some s
  | String a p', String b s' =>
      if Ascii.eqb a b then stripPrefix p' s' else None
  | String _ _, EmptyString => None
  end.

(** One or more key characters, then the closing ["]}"]. *)
Fixpoint keyThenClose (seenOne : bool) (s : string) : bool :=
  match s with
  | EmptyString => false
  | String a s' =>
      if validKeyChar a then keyThenClose true s'
      else seenOne && bool_decide (is_Some (stripPrefix "]}" s))
  end.

Definition markerHere (s : string) : bool :=
  match stripPrefix "${Token[" s with
  | Some rest => keyThenClose false rest
  | None => false
  end.

(** [Token.isUnresolved(s)] on a string: the string holds an encoded token,
    a match of [\$\{Token\[([a-zA-Z0-9:._-]+)\]\}]. *)
Fixpoint isUnresolved (s : string) : bool :=
  match s with
  | EmptyString => false
  | String _ s' => markerHere s || isUnresolved s'
  end.

End Token.

Module Construct.

(** The construct tree of the [constructs] library: every node, named by its
    path, owns the ids of its children in creation order. *)
Abbreviation Tree := (gmap string (list string)).

Definition childrenOf (t : Tree) (scope : string) : list string :=
  default [] (t !! scope).

(** [sanitizeId]: the name of a node is its id with every path separator
    [/] replaced by [--]. *)
Definition pathSep : Ascii.ascii := Eval cbv in Ascii.ascii_of_nat 47.
Definition dash : Ascii.ascii := Eval cbv in Ascii.ascii_of_nat 45.

Fixpoint sanitizeId (id : string) : string :=
  match id with
  | EmptyString => EmptyString
  | String a id' =>
      if Ascii.eqb a pathSep then String dash (String dash (sanitizeId id'))
      else String a (sanitizeId id')
  end.

(** [node.path]: the names from the root down, joined by [/]; the root, whose
    name is empty, adds nothing. *)
Definition childPath (scope id : string) : string :=
  if decide (scope = EmptyString) then sanitizeId id
  else String.append scope (String.append "/" (sanitizeId id)).

(** The constructor of [Node], run by [new C(scope, id)], and its
    [addChild]: the node is named by the sanitized id; a node under a scope
    must have a name; a second child of the same name is refused; the new
    node starts without children. *)
Definition addChild (t : Tree) (scope id : string) : Result Tree :=
  let name := sanitizeId id in
  if decide (name = EmptyString) then Err EmptyConstructId
  else if decide (name ∈ childrenOf t scope) then Err (DuplicateConstructName name)
  else Ok (<[scope := (childrenOf t scope ++ [name])%list]>
             (<[childPath scope id := []]> t)).

End Construct.

(** ** The mutable world of a synthesis pass *)

Record World : Type := mkWorld {
  tree : gmap string (list string);
  (** [Annotations.of(c).addWarning(msg)]: construct path and message. *)
  warnings : list (string * string);
  (** [Tags.of(c).add(key, value)]: construct path, key and value. *)
  tags : list (string * (string * string));
  (** [IpamPool._provisionedCidrs], by pool path. *)
  provisionedCidrs : gmap string (list string);
  (** [IpamPool._tagRestrictions], by pool path. *)
  tagRestrictions : gmap string (gmap string string);
  (** The [cidr] fields of the array kept by the [Lazy.any] behind the
      [provisionedCidrs] of a pool's resource, by pool path: [Lazy.any]
      runs its producer at the first resolution and keeps what it
      returned. *)
  producedCidrs : gmap string (list string)
}.

(** A method call: it runs in a world, leaves a world (also when it throws)
    and returns or throws. *)
Definition M (A : Type) : Type := World -> World * Result A.

#[global] Instance M_ret : MRet M := fun _ a w => (w, Ok a).
#[global] Instance M_bind : MBind M := fun _ _ f m w =>
  match m w with
  | (w', Ok a) => f a w'
  | (w', Err e) => (w', Err e)
  end.

Definition throw {A} (e : Error) : M A := fun w => (w, Err e).

(** [Annotations.of(c).addWarning(msg)]: the message is attached to the
    construct unless the construct already carries it. *)
Definition addWarning (path msg : string) : M unit := fun w =>
  if decide ((path, msg) ∈ warnings w) then (w, Ok tt)
  else (mkWorld (tree w) (warnings w ++ [(path, msg)])%list (tags w)
          (provisionedCidrs w) (tagRestrictions w) (producedCidrs w), Ok tt).

Definition addTag (path key value : string) : M unit := fun w =>
  (mkWorld (tree w) (warnings w) (tags w ++ [(path, (key, value))])%list
     (provisionedCidrs w) (tagRestrictions w) (producedCidrs w), Ok tt).

Definition setProvisionedCidrs (pool : string) (cidrs : list string) : M unit := fun w =>
  (mkWorld (tree w) (warnings w) (tags w)
     (<[pool := cidrs]> (provisionedCidrs w)) (tagRestrictions w) (producedCidrs w),
   Ok tt).

Definition setTagRestrictions (pool : string) (r : gmap string string) : M unit := fun w =>
  (mkWorld (tree w) (warnings w) (tags w)
     (provisionedCidrs w) (<[pool := r]> (tagRestrictions w)) (producedCidrs w),
   Ok tt).

(** A new [Lazy.any] for the [provisionedCidrs] of the pool at [pool]: its
    producer has not run. *)
Definition newLazyProvisionedCidrs (pool : string) : M unit := fun w =>
  (mkWorld (tree w) (warnings w) (tags w)
     (provisionedCidrs w) (tagRestrictions w) (delete pool (producedCidrs w)),
   Ok tt).

(** The array behind [this._provisionedCidrs] of the pool at [pool]. *)
Definition provisionedOf (w : World) (pool : string) : list string :=
  default [] (provisionedCidrs w !! pool).

Definition tagRestrictionsOf (w : World) (pool : string) : gmap string string :=
  default ∅ (tagRestrictions w !! pool).

(** [super(scope, id)] of a construct: registration in the tree; the result
    is the path of the new node. *)
Definition newConstruct (scope id : string) : M string := fun w =>
  match Construct.addChild (tree w) scope id with
  | Ok t => (mkWorld t (warnings w) (tags w) (provisionedCidrs w) (tagRestrictions w)
               (producedCidrs w),
             Ok (Construct.childPath scope id))
  | Err e => (w, Err e)
  end.

(** [xs.forEach((x, idx) => ...)] with a body that is a method call. *)
Fixpoint forEachM {A} (body : A -> nat -> M unit) (idx : nat) (xs : list A) : M unit :=
  match xs with
  | [] => mret tt
  | x :: xs' => _ ← body x idx; forEachM body (S idx) xs'
  end.

Definition getWorld : M World := fun w => (w, Ok w).

(** ** ec2: ipam-pool.ts, ipam.ts, ipam-resource-discovery-association.ts *)

Module Ipam.
Import Js.

(** *** Values *)

Record PublicIpSource : Type := { sourceName : string }.
Definition AMAZON : PublicIpSource := {| sourceName := "amazon" |}.
Definition BYOIP : PublicIpSource := {| sourceName := "byoip" |}.

Inductive IpFamily : Type := IPV4 | IPV6.

(** [AddressConfiguration], as the pool reads it: the family, the name of
    the advertising service ([advertiseService?.name]) and the netmask
    lengths. *)
Record AddressConfiguration : Type := {
  family : IpFamily;
  advertiseService : option string;
  publiclyAdvertisable : option bool;
  defaultNetmaskLength : option Z;
  maxNetmaskLength : option Z;
  minNetmaskLength : option Z
}.

(** Modelled from the spec: [AddressConfiguration.of({defaultNetmaskLength,
    family, maxNetmaskLength, minNetmaskLength})], whose file is not among the
    sources.  Section 4.2: the child pool shares the address family it is
    given; the factory keeps the netmask lengths and sets nothing else. *)
Definition AddressConfiguration_of (dflt : option Z) (fam : IpFamily)
    (maxLen minLen : option Z) : AddressConfiguration :=
  {| family := fam; advertiseService := None; publiclyAdvertisable := None;
     defaultNetmaskLength := dflt; maxNetmaskLength := maxLen;
     minNetmaskLength := minLen |}.

(** Modelled from the spec: [AddressConfiguration.ipv4()], the default of a
    pool (same file): the IPv4 family and nothing else. *)
Definition AddressConfiguration_ipv4 : AddressConfiguration :=
  AddressConfiguration_of None IPV4 None None.

Record IpamScope : Type := {
  scopePath : string;
  ipamScopeArn : string;
  scopeType : string
}.

Record ResolvedIpamPoolCidrConfiguration : Type := {
  resolvedCidr : option string;
  resolvedNetmask : option Z
}.

(** [IIpamPoolCidrConfiguration]: the [inline] flag and [bind(scope)], a
    function of the construct it is bound to (given by its path). *)
Record IpamPoolCidrConfiguration : Type := {
  inline : bool;
  bind : string -> ResolvedIpamPoolCidrConfiguration
}.

(** Modelled from the spec: [IpamPoolCidrConfiguration.cidr(x)] of
    ipam-pool-cidr.ts, which is not among the sources.  Section 4.2: a
    literal, directly-addressable block, registered inline. *)
Definition IpamPoolCidrConfiguration_cidr (x : string) : IpamPoolCidrConfiguration :=
  {| inline := true;
     bind := fun _ => {| resolvedCidr := Some x; resolvedNetmask := None |} |}.

Record AddCidrToPoolOptions : Type := {
  allowInline : option bool;
  configuration : IpamPoolCidrConfiguration
}.

Record IpamPoolCidr : Type := {
  cidrPath : string;
  cidrIpamPool : string;
  cidrConfiguration : IpamPoolCidrConfiguration
}.

Record AddCidrToPoolResult : Type := {
  cidr : option IpamPoolCidr;
  inlineResult : bool
}.

Record AddChildPoolOptions : Type := {
  optAddressConfiguration : option AddressConfiguration;
  optAutoImport : option bool;
  optDefaultNetmaskLength : option Z;
  optMaxNetmaskLength : option Z;
  optMinNetmaskLength : option Z;
  optDescription : option string;
  optLocaleKey : Property string;
  optName : option string;
  optProvisionedCidrs : option (list string);
  optTagRestrictions : option (gmap string string)
}.

(** [options.locale] *)
Definition optLocale (options : AddChildPoolOptions) : option string :=
  read (optLocaleKey options).

(** The read-only fields of an [IpamPool]; its two mutable collections are
    in the [World] under [path]. *)
Record IpamPool : Type := {
  path : string;
  addressConfiguration : AddressConfiguration;
  autoImport : option bool;
  description : option string;
  ipamScope : IpamScope;
  locale : option string;
  name : option string;
  parentPool : option string;
  publicIpSource : option PublicIpSource;
  ipamPoolScopeArn : string;
  ipamPoolScopeType : string
}.

Definition ipFamily (self : IpamPool) : IpFamily :=
  family (addressConfiguration self).

Record IpamPoolProps : Type := {
  propsAddressConfiguration : option AddressConfiguration;
  propsAutoImport : option bool;
  propsDescription : option string;
  propsIpamScope : IpamScope;
  propsLocale : option string;
  propsName : option string;
  propsParentPool : option string;
  propsProvisionedCidrs : option (list string);
  propsPublicIpSource : option PublicIpSource;
  propsTagRestrictions : option (gmap string string)
}.

Record AllocateCidrFromPoolOptions : Type := {
  allocScope : option string;
  allocNetmask : option Z;
  allocDescription : option string
}.

Record IpamAllocation : Type := {
  allocationPath : string;
  allocationIpamPool : string;
  allocationNetmask : option Z;
  allocationDescription : option string
}.

(** *** Constructors of classes that are not among the sources *)

(** Modelled from the spec: the constructor of [IpamPoolCidr]
    (ipam-pool-cidr.ts is not among the sources).  Section 4.2: a child
    entity of the pool that defers the resolution of the block to the
    provisioning layer. *)
Definition IpamPoolCidr_new (scope id : string)
    (options : AddCidrToPoolOptions) (ipamPool : string) : M IpamPoolCidr :=
  p ← newConstruct scope id;
  mret {| cidrPath := p; cidrIpamPool := ipamPool;
          cidrConfiguration := configuration options |}.

(** Modelled from the spec: the constructor of [IpamAllocation]
    (ipam-allocation.ts is not among the sources).  Section 3: an allocation
    has an identity, its source pool and the requested size. *)
Definition IpamAllocation_new (scope id : string)
    (options : AllocateCidrFromPoolOptions) (ipamPool : string) : M IpamAllocation :=
  p ← newConstruct scope id;
  mret {| allocationPath := p; allocationIpamPool := ipamPool;
          allocationNetmask := allocNetmask options;
          allocationDescription := allocDescription options |}.

(** Modelled from the spec: [IpamScope.fromIpamScopeAttributes]
    (ipam-scope.ts is not among the sources): an imported scope is a
    construct under [scope] that carries the given attributes. *)
Definition IpamScope_fromIpamScopeAttributes (scope id : string)
    (arn type : string) : M IpamScope :=
  p ← newConstruct scope id;
  mret {| scopePath := p; ipamScopeArn := arn; scopeType := type |}.

(** *** IpamPoolBase *)

Definition IpamPoolBase_addCidrToPool (self : IpamPool) (id : string)
    (options : AddCidrToPoolOptions) : M AddCidrToPoolResult :=
  c ← IpamPoolCidr_new (path self) (String.append "cidr-" id) options (path self);
  mret {| cidr := Some c; inlineResult := false |}.

Definition IpamPoolBase_allocateCidrFromPool (self : IpamPool) (id : string)
    (options : AllocateCidrFromPoolOptions) : M IpamAllocation :=
  let scope := default (path self) (allocScope options) in
  IpamAllocation_new scope (String.append "allocation-" id) options (path self).

(** *** IpamPool *)

Definition inlineFallbackWarning : string :=
  "Attempted to register an inline IPAM pool CIDR using a configuration that does not provide a concrete CIDR. This likely indicates a misconfigured custom configuration. Attempting to fall back to using a non-inline implementation. Because binding was already attempted for an inline configuration consistency cannot be guaranteed.".

(** The value of [cidr] when [!cidr] is false. *)
Definition truthyCidr (o : option string) : option string :=
  if truthyOptStr o then o else None.

Definition IpamPool_addCidrToPool (self : IpamPool) (id : string)
    (options : AddCidrToPoolOptions) : M AddCidrToPoolResult :=
  if default true (allowInline options) && inline (configuration options) then
    let resolvedConfiguration := bind (configuration options) (path self) in
    match truthyCidr (resolvedCidr resolvedConfiguration) with
    | None =>
        _ ← addWarning (path self) inlineFallbackWarning;
        IpamPoolBase_addCidrToPool self id options
    | Some c =>
        w ← getWorld;
        if decide (c ∈ provisionedOf w (path self)) then throw (DuplicateCidr c)
        else
          _ ← setProvisionedCidrs (path self) (provisionedOf w (path self) ++ [c]);
          mret {| cidr := None; inlineResult := true |}
    end
  else IpamPoolBase_addCidrToPool self id options.

(** [idx.toString().padStart(3, '0')] *)
Definition padStart3 (s : string) : string :=
  match String.length s with
  | 0%nat => String.append "000" s
  | 1%nat => String.append "00" s
  | 2%nat => String.append "0" s
  | _ => s
  end.

(** [DynamicReference.string(this, this.resource.attr...)]: a deploy-time
    attribute of the pool's resource, an encoded token. *)
Definition tokenOf (attr : string) : string :=
  String.append "${Token[" (String.append attr "]}").

(** [new IpamPool(scope, id, props)].  The [Lazy.any] of [provisionedCidrs]
    is made among the properties of [new CfnIPAMPool(this, 'Resource', ...)];
    the producer of [allocationResourceTags] returns nothing and is left
    out. *)
Definition IpamPool_new (scope id : string) (props : IpamPoolProps) : M IpamPool :=
  p ← newConstruct scope id;
  _ ← setTagRestrictions p ∅;
  _ ← setProvisionedCidrs p [];
  _ ← newLazyProvisionedCidrs p;
  _ ← newConstruct p "Resource";
  let self :=
    {| path := p;
       addressConfiguration :=
         default AddressConfiguration_ipv4 (propsAddressConfiguration props);
       autoImport := propsAutoImport props;
       description := propsDescription props;
       ipamScope := propsIpamScope props;
       locale := propsLocale props;
       name := propsName props;
       parentPool := propsParentPool props;
       publicIpSource := propsPublicIpSource props;
       ipamPoolScopeArn := tokenOf "IpamScopeArn";
       ipamPoolScopeType := tokenOf "IpamScopeType" |} in
  _ ← (if truthyOptStr (propsName props)
        then addTag (Construct.childPath p "Resource") "Name" (default "" (propsName props))
        else mret tt);
  _ ← forEachM (fun x idx =>
          _ ← IpamPool_addCidrToPool self
                (String.append "provisioned-" (padStart3 (pretty idx)))
                {| allowInline := Some true;
                   configuration := IpamPoolCidrConfiguration_cidr x |};
          mret tt)
        0 (default [] (propsProvisionedCidrs props));
  mret self.

(** The [addressConfiguration] of the options, if any, is overwritten by the
    one built here. *)
Definition IpamPoolBase_addChildPool (self : IpamPool) (id : string)
    (options : AddChildPoolOptions) : M IpamPool :=
  let addressConfiguration :=
    AddressConfiguration_of (optDefaultNetmaskLength options) (ipFamily self)
      (optMaxNetmaskLength options) (optMinNetmaskLength options) in
  ipamScope ← IpamScope_fromIpamScopeAttributes (path self)
                (String.append "import-scope-" id)
                (ipamPoolScopeArn self) (ipamPoolScopeType self);
  IpamPool_new (path self) (String.append "pool-" id)
    {| propsAddressConfiguration := Some addressConfiguration;
       propsAutoImport := optAutoImport options;
       propsDescription := optDescription options;
       propsIpamScope := ipamScope;
       propsLocale := optLocale options;
       propsName := optName options;
       propsParentPool := Some (path self);
       propsProvisionedCidrs := optProvisionedCidrs options;
       propsPublicIpSource := None;
       propsTagRestrictions := optTagRestrictions options |}.

Definition validateChildLocale (self : IpamPool) (childLocale : option string) : bool :=
  if truthyOptStr (locale self) && Token.isUnresolved (default "" (locale self)) then
    match childLocale with
    | None => true
    | Some l =>
        if Token.isUnresolved l then true
        else bool_decide (locale self = Some l)
    end
  else true.

Definition validateNestingSupport (self : IpamPool) : bool :=
  let service := advertiseService (addressConfiguration self) in
  let ipSource := sourceName <$> publicIpSource self in
  negb (truthyOptStr service && bool_decide (ipSource = Some (sourceName BYOIP))).

(** [{ locale: this.locale, ...options }]: the spread copies the own keys of
    [options] over the object, so an own key [locale] of [options] replaces
    the pool's locale, also when its value is [undefined]. *)
Definition withInheritedLocale (self : IpamPool) (options : option AddChildPoolOptions)
    : AddChildPoolOptions :=
  match options with
  | None =>
      {| optAddressConfiguration := None;
         optAutoImport := None; optDefaultNetmaskLength := None;
         optMaxNetmaskLength := None; optMinNetmaskLength := None;
         optDescription := None; optLocaleKey := Own (locale self); optName := None;
         optProvisionedCidrs := None; optTagRestrictions := None |}
  | Some o =>
      {| optAddressConfiguration := optAddressConfiguration o;
         optAutoImport := optAutoImport o;
         optDefaultNetmaskLength := optDefaultNetmaskLength o;
         optMaxNetmaskLength := optMaxNetmaskLength o;
         optMinNetmaskLength := optMinNetmaskLength o;
         optDescription := optDescription o;
         optLocaleKey := match optLocaleKey o with
                         | Absent => Own (locale self)
                         | Own value => Own value
                         end;
         optName := optName o;
         optProvisionedCidrs := optProvisionedCidrs o;
         optTagRestrictions := optTagRestrictions o |}
  end.

Definition IpamPool_addChildPool (self : IpamPool) (id : string)
    (options : option AddChildPoolOptions) : M IpamPool :=
  if negb (validateChildLocale self (options ≫= optLocale)) then throw LocaleMismatch
  else if validateNestingSupport self then throw NestingUnsupported
  else IpamPoolBase_addChildPool self id (withInheritedLocale self options).

(** The keys every object literal inherits from [Object.prototype]. *)
Definition objectPrototypeKeys : list string :=
  ["constructor"; "__defineGetter__"; "__defineSetter__"; "hasOwnProperty";
   "__lookupGetter__"; "__lookupSetter__"; "isPrototypeOf";
   "propertyIsEnumerable"; "toString"; "valueOf"; "__proto__"; "toLocaleString"].

(** [key in this._tagRestrictions]: an own key or an inherited one. *)
Definition IpamPool_addTagRestriction (self : IpamPool) (key value : string) : M IpamPool :=
  w ← getWorld;
  if bool_decide (is_Some (tagRestrictionsOf w (path self) !! key))
     || bool_decide (key ∈ objectPrototypeKeys)
  then throw (DuplicateTagRestrictionKey key)
  else
    _ ← setTagRestrictions (path self) (<[key := value]> (tagRestrictionsOf w (path self)));
    mret self.

(** *** IpamBase and IpamResourceDiscoveryAssociation *)

Record IpamT : Type := {
  ipamPath : string;
  ipamId : string;
  ipamScopeCount : Z
}.

Record PrivateIpamScopeOptions : Type := {
  scopeDescription : option string
}.

Record PrivateIpamScope : Type := {
  privateScopePath : string;
  privateScopeIpam : string;
  privateScopeDescription : option string
}.

(** Modelled from the spec: the constructor of [PrivateIpamScope]
    (private-ipam-scope.ts is not among the sources).  Section 3: the scope
    quota is enforced by the container, not by the scope itself, so the
    constructor only creates the scope under its container. *)
Definition PrivateIpamScope_new (scope id : string)
    (options : PrivateIpamScopeOptions) (ipam : string) : M PrivateIpamScope :=
  p ← newConstruct scope id;
  mret {| privateScopePath := p; privateScopeIpam := ipam;
          privateScopeDescription := scopeDescription options |}.

Definition IpamBase_addScope (self : IpamT) (id : string)
    (options : PrivateIpamScopeOptions) : M PrivateIpamScope :=
  PrivateIpamScope_new (ipamPath self) (String.append "scope-" id) options (ipamPath self).

(** [node.addr] is a hash of the path of the construct, written in
    hexadecimal digits. *)
Definition isHexDigit (a : Ascii.ascii) : bool :=
  let n := Ascii.nat_of_ascii a in
  ((48 <=? n) && (n <=? 57) || (97 <=? n) && (n <=? 102))%nat.

Fixpoint isHex (s : string) : bool :=
  match s with
  | EmptyString => true
  | String a s' => isHexDigit a && isHex s'
  end.

(** [IIpamResourceDiscovery]: [node.addr] is the address of the construct,
    unique in the tree. *)
Record IpamResourceDiscovery : Type := {
  discoveryPath : string;
  addr : string;
  addrIsHex : isHex addr = true;
  ipamResourceDiscoveryId : string
}.

Record IpamResourceDiscoveryAssociation : Type := {
  associationPath : string;
  associationIpam : string;
  associationResourceDiscovery : IpamResourceDiscovery
}.

(** [new IpamResourceDiscoveryAssociation(scope, id, props)] *)
Definition IpamResourceDiscoveryAssociation_new (scope id : string)
    (ipam : IpamT) (resourceDiscovery : IpamResourceDiscovery)
    : M IpamResourceDiscoveryAssociation :=
  p ← newConstruct scope id;
  _ ← newConstruct p "Resource";
  mret {| associationPath := p; associationIpam := ipamPath ipam;
          associationResourceDiscovery := resourceDiscovery |}.

Definition IpamBase_associateResourceDiscovery (self : IpamT)
    (resourceDiscovery : IpamResourceDiscovery) : M IpamResourceDiscoveryAssociation :=
  IpamResourceDiscoveryAssociation_new (ipamPath self)
    (String.append "resource-discovery-" (addr resourceDiscovery))
    self resourceDiscovery.

(** *** Ipam: operating regions *)

(** [Ipam.addRegion] on the array [_regions]: the array after the call, and
    whether the call returned or threw. *)
Definition Ipam_addRegion (regions : list string) (region : string)
    : list string * Result unit :=
  if decide (region ∈ regions) then (regions, Err (DuplicateRegion region))
  else (regions ++ [region], Ok tt).

(** [xs.forEach((x) => { this.addRegion(x); })] *)
Fixpoint Ipam_addRegions (regions : list string) (xs : list string)
    : list string * Result unit :=
  match xs with
  | [] => (regions, Ok tt)
  | x :: xs' =>
      match Ipam_addRegion regions x with
      | (regions', Ok _) => Ipam_addRegions regions' xs'
      | (regions', Err e) => (regions', Err e)
      end
  end.

(** The part of [new Ipam(scope, id, props)] that fills [_regions]:
    [this._regions = []; ...; props.regions?.forEach(...)]. *)
Definition Ipam_initRegions (propsRegions : option (list string))
    : list string * Result unit :=
  Ipam_addRegions [] (default [] propsRegions).

(** *** IpamPool: the rendered [provisionedCidrs] *)

Record ProvisionedCidrProperty : Type := { propertyCidr : string }.

(** A resolution of the [Lazy.any(..., { omitEmptyArray: true })] behind the
    [provisionedCidrs] of the pool's resource.  The producer, a [map] over
    [_provisionedCidrs], runs at the first resolution only; the array it
    returned is kept and is the value of every later resolution.  An empty
    array is rendered as [undefined]. *)
Definition renderProvisionedCidrs (self : IpamPool)
    : M (option (list ProvisionedCidrProperty)) := fun w =>
  let produced :=
    match producedCidrs w !! path self with
    | Some kept => kept
    | None => provisionedOf w (path self)
    end in
  (mkWorld (tree w) (warnings w) (tags w) (provisionedCidrs w) (tagRestrictions w)
     (<[path self := produced]> (producedCidrs w)),
   Ok match produced with
      | [] => None
      | _ => Some (map (fun x => {| propertyCidr := x |}) produced)
      end).

End Ipam.

(** ** Properties named by the statements below *)

Module Props.
Import TieredSubnets.

(** Two subnets of the tier carry different explicit prefix lengths. *)
Definition distinctExplicitMasks (input : AllocateCidrRequest) (tier : string) : Prop :=
  ∃ x y a b,
    x ∈ tierSubnetsOf input tier ∧ y ∈ tierSubnetsOf input tier ∧
    cidrMask (configuration x) = Some a ∧ cidrMask (configuration y) = Some b ∧
    a ≠ b.

(** All subnets of the tier share one explicit prefix length ([m = Some p])
    or all leave it unset ([m = None]). *)
Definition uniformMasks (input : AllocateCidrRequest) (tier : string) : Prop :=
  ∃ m : option Z, ∀ x, x ∈ tierSubnetsOf input tier → cidrMask (configuration x) = m.

(** The loop over [tiers] gets to [tier]: the bodies of the tiers before it
    return. *)
Definition reachesTier (body : NetworkMap → string → nat → Result NetworkMap)
    (tiers : list string) (tier : string) : Prop :=
  ∃ pre post networkMap,
    tiers = pre ++ tier :: post ∧ Js.forEach body pre ∅ = Ok networkMap.

(** The validations of [allocateSubnetsCidrIpam] for one tier pass:
    [getBiggestMask] returns, the tier has at most one mask, that mask, if it
    is a number other than 0, is not above [getBiggestMask], and the tier has
    no more subnets than [Fn.cidr] takes. *)
Definition ipamTierValid (input : AllocateCidrRequest) (effectiveTierMask : Z)
    (tier : string) : Prop :=
  ∃ biggest,
    Networking.getBiggestMask effectiveTierMask (length (tierSubnetsOf input tier))
      = Ok biggest
    ∧ (length (masksOf (tierSubnetsOf input tier)) ≤ 1)%nat
    ∧ Js.truthyOptNum (firstMask (masksOf (tierSubnetsOf input tier)))
      && bool_decide (biggest < default 0 (firstMask (masksOf (tierSubnetsOf input tier))))
      = false
    ∧ (length (tierSubnetsOf input tier) ≤ 256)%nat.

(** Two subnets of the tier carry different values of [cidrMask], an unset
    mask counting as a value of its own. *)
Definition differingMasks (input : AllocateCidrRequest) (tier : string) : Prop :=
  ∃ x y,
    x ∈ tierSubnetsOf input tier ∧ y ∈ tierSubnetsOf input tier ∧
    cidrMask (configuration x) ≠ cidrMask (configuration y).

(** A mask [m] for which the JavaScript number [32 - m] is the integer
    [32 - m]: numbers are doubles, exact on integers up to [2^53]. *)
Definition safeMask (m : Z) : Prop := - (2 ^ 53 - 32) ≤ m ≤ 2 ^ 53 - 32.

(** The netmask of the allocator, its tier mask and the masks of the
    requested subnets are in that range. *)
Definition safeMasks (self : TieredSubnets.TieredSubnets) (input : AllocateCidrRequest)
    : Prop :=
  (∀ n, ipv4NetmaskLength (ipamOptions self) = Some n → safeMask n)
  ∧ (∀ m, tierMask self = Some m → safeMask m)
  ∧ ∀ x m, x ∈ requestedSubnets input → cidrMask (configuration x) = Some m →
           safeMask m.

(** No array of provisioned CIDRs holds a literal twice. *)
Definition noDuplicateCidrs (w : World) : Prop :=
  ∀ pool cidrs, provisionedCidrs w !! pool = Some cidrs → NoDup cidrs.

(** The pool advertises through a service and its addresses are BYOIP. *)
Definition advertisedByoip (self : Ipam.IpamPool) : Prop :=
  Js.truthyOptStr (Ipam.advertiseService (Ipam.addressConfiguration self)) = true
  ∧ Ipam.sourceName <$> Ipam.publicIpSource self = Some "byoip".

(** The options of [addChildPool] have no own key [locale]: no options at
    all, or options without that key. *)
Definition omitsLocale (options : option Ipam.AddChildPoolOptions) : Prop :=
  match options with
  | None => True
  | Some o => Ipam.optLocaleKey o = Js.Absent
  end.

(** A method call keeps a property of the world, whether it returns or
    throws. *)
Definition preserves {A} (P : World → Prop) (m : M A) : Prop :=
  ∀ w, P w → P (fst (m w)).

End Props.

(** ** Concrete inputs *)

Module Examples.
Import TieredSubnets.

Definition subnet (tier az : string) (mask : option Z) : RequestedSubnet :=
  {| availabilityZone := az;
     configuration := {| name := tier; cidrMask := mask |} |}.

Definition vpc16 : Cidr := ipv4 10 0 0 0 16.

(** A [TieredSubnets] built from a concrete CIDR, 10.0.0.0/16. *)
Definition fromCidr (mask : option Z) : TieredSubnets.TieredSubnets :=
  {| ipamOptions := {| cidrBlock := Some vpc16; ipv4IpamPoolId := None;
                       ipv4NetmaskLength := None |};
     ipamPool := None; netmask := 16; tierMask := mask |}.

(** A [TieredSubnets] built from an IPAM pool with netmask 16. *)
Definition fromIpam (mask : option Z) : TieredSubnets.TieredSubnets :=
  {| ipamOptions := {| cidrBlock := None; ipv4IpamPoolId := Some "ipam-pool-0a1b";
                       ipv4NetmaskLength := Some 16 |};
     ipamPool := Some "ipam-pool-0a1b"; netmask := 16; tierMask := mask |}.

(** The end-to-end scenario of the specification: two tiers, two zones. *)
Definition twoByTwo (vpc : Cidr) : AllocateCidrRequest :=
  {| vpcCidr := vpc;
     requestedSubnets :=
       [subnet "public" "az1" None; subnet "public" "az2" None;
        subnet "private" "az1" None; subnet "private" "az2" None] |}.

(** Two zones in the public tier, one in the private tier. *)
Definition unevenZones (vpc : Cidr) : AllocateCidrRequest :=
  {| vpcCidr := vpc;
     requestedSubnets :=
       [subnet "public" "az1" None; subnet "public" "az2" None;
        subnet "private" "az1" None] |}.

(** Two zones in the public tier; the private tier is in the second only. *)
Definition unevenZonesLate (vpc : Cidr) : AllocateCidrRequest :=
  {| vpcCidr := vpc;
     requestedSubnets :=
       [subnet "public" "az1" None; subnet "public" "az2" None;
        subnet "private" "az2" None] |}.

(** A tier whose two subnets ask for /24 and /25. *)
Definition mixedMasks (vpc : Cidr) : AllocateCidrRequest :=
  {| vpcCidr := vpc;
     requestedSubnets :=
       [subnet "public" "az1" (Some 24); subnet "public" "az2" (Some 25)] |}.

(** A tier whose two subnets both ask for /24. *)
Definition explicit24 (vpc : Cidr) : AllocateCidrRequest :=
  {| vpcCidr := vpc;
     requestedSubnets :=
       [subnet "public" "az1" (Some 24); subnet "public" "az2" (Some 24)] |}.

(** A provider that gives both CIDR details and IPAM details. *)
Definition bothDetails : TieredSubnetsOptions :=
  {| provider := {| cidrDetails := Some {| detailsCidr := vpc16; detailsNetmask := 16 |};
                    ipamDetails := Some {| detailsIpamPoolId := Some "ipam-pool-0a1b";
                                           ipamNetmask := 20 |} |};
     optionsTierMask := None |}.

(** A provider that gives IPAM details only. *)
Definition ipamDetailsOnly : TieredSubnetsOptions :=
  {| provider := {| cidrDetails := None;
                    ipamDetails := Some {| detailsIpamPoolId := Some "ipam-pool-0a1b";
                                           ipamNetmask := 16 |} |};
     optionsTierMask := None |}.

Import Ipam.

Definition emptyWorld : World := mkWorld ∅ [] [] ∅ ∅ ∅.

Definition privateScope : IpamScope :=
  {| scopePath := "stack/ipam/default-private-scope";
     ipamScopeArn := "arn:aws:ec2::123456789012:ipam-scope/ipam-scope-0a1b";
     scopeType := "private" |}.

Definition poolProps (loc service : option string) (source : option PublicIpSource)
    (cidrs : option (list string)) : IpamPoolProps :=
  {| propsAddressConfiguration :=
       Some {| family := IPV4; advertiseService := service;
               publiclyAdvertisable := None; defaultNetmaskLength := None;
               maxNetmaskLength := None; minNetmaskLength := None |};
     propsAutoImport := None; propsDescription := None;
     propsIpamScope := privateScope; propsLocale := loc; propsName := None;
     propsParentPool := None; propsProvisionedCidrs := cidrs;
     propsPublicIpSource := source; propsTagRestrictions := None |}.

(** [const pool = new IpamPool(stack, 'pool', props); return call(pool);]
    in an empty tree. *)
Definition withPool {A} (props : IpamPoolProps) (call : IpamPool → M A)
    : World * Result A :=
  (pool ← IpamPool_new "stack" "pool" props; call pool) emptyWorld.

(** The pool that [new IpamPool(stack, 'pool', props)] returns. *)
Definition poolOf (props : IpamPoolProps) : IpamPool :=
  {| path := "stack/pool";
     addressConfiguration :=
       default AddressConfiguration_ipv4 (propsAddressConfiguration props);
     autoImport := propsAutoImport props;
     description := propsDescription props;
     ipamScope := propsIpamScope props;
     locale := propsLocale props;
     name := propsName props;
     parentPool := propsParentPool props;
     publicIpSource := propsPublicIpSource props;
     ipamPoolScopeArn := tokenOf "IpamScopeArn";
     ipamPoolScopeType := tokenOf "IpamScopeType" |}.

Definition childIn (loc : option string) : AddChildPoolOptions :=
  {| optAddressConfiguration := None;
     optAutoImport := None; optDefaultNetmaskLength := None;
     optMaxNetmaskLength := None; optMinNetmaskLength := None;
     optDescription := None;
     optLocaleKey := match loc with Some l => Js.Own (Some l) | None => Js.Absent end;
     optName := None;
     optProvisionedCidrs := None; optTagRestrictions := None |}.

(** The options [{ locale: undefined }]. *)
Definition undefinedLocale : AddChildPoolOptions :=
  {| optAddressConfiguration := None;
     optAutoImport := None; optDefaultNetmaskLength := None;
     optMaxNetmaskLength := None; optMinNetmaskLength := None;
     optDescription := None; optLocaleKey := Js.Own None; optName := None;
     optProvisionedCidrs := None; optTagRestrictions := None |}.

(** A custom inline configuration whose [bind] gives no CIDR. *)
Definition noLiteral : IpamPoolCidrConfiguration :=
  {| inline := true;
     bind := fun _ => {| resolvedCidr := None; resolvedNetmask := Some 24 |} |}.

Definition inlineCidr (x : string) : AddCidrToPoolOptions :=
  {| allowInline := None; configuration := IpamPoolCidrConfiguration_cidr x |}.

Definition theIpam : IpamT :=
  {| ipamPath := "stack/ipam"; ipamId := "ipam-0a1b"; ipamScopeCount := 5 |}.

Definition noDescription : PrivateIpamScopeOptions := {| scopeDescription := None |}.

(** The tree after five calls of [addScope] on [theIpam]. *)
Definition fiveScopes : World :=
  fst ((_ ← IpamBase_addScope theIpam "a" noDescription;
        _ ← IpamBase_addScope theIpam "b" noDescription;
        _ ← IpamBase_addScope theIpam "c" noDescription;
        _ ← IpamBase_addScope theIpam "d" noDescription;
        IpamBase_addScope theIpam "e" noDescription) emptyWorld).

Definition discovery : IpamResourceDiscovery :=
  {| discoveryPath := "stack/discovery";
     addr := "c8a1f0e6b7d24c0f9a3e5b1d7c2f4a6e8b0d9c1e2f";
     addrIsHex := eq_refl;
     ipamResourceDiscoveryId := "ipam-res-disco-0a1b" |}.

End Examples.

(** * Lemmas *)

(** A decidable statement about concrete values, settled by evaluation. *)
Ltac by_compute := apply (bool_decide_unpack _); vm_compute; exact I.

(** [H] lists the errors a call can throw, and none is the one at hand. *)
Ltac refute_errors H :=
  lazymatch type of H with
  | _ ∨ _ => destruct H as [H|H]; refute_errors H
  | ex _ => destruct H as [? H]; refute_errors H
  | _ => discriminate H
  end.

(** ** [Array.from(new Set(...))] *)

Section ArrayFromSet.
Context `{EqDecision A}.
Implicit Types (xs acc : list A) (x : A).

Lemma elem_of_foldl_setAdd xs : ∀ acc x,
  x ∈ foldl Js.setAdd acc xs ↔ x ∈ acc ∨ x ∈ xs.
Proof.
  induction xs as [|y xs IH]; intros acc x; simpl.
  - rewrite elem_of_nil. tauto.
  - rewrite IH, elem_of_cons. unfold Js.setAdd.
    destruct (decide (y ∈ acc)) as [Hin|Hnin].
    + split; [tauto|]. intros [?|[->|?]]; auto.
    + rewrite elem_of_app, list_elem_of_singleton. tauto.
Qed.

Lemma NoDup_foldl_setAdd xs : ∀ acc, NoDup acc → NoDup (foldl Js.setAdd acc xs).
Proof.
  induction xs as [|y xs IH]; intros acc Hnd; simpl; [done|].
  apply IH. unfold Js.setAdd.
  destruct (decide (y ∈ acc)) as [Hin|Hnin]; [done|].
  apply NoDup_app. split_and!; [done| |apply NoDup_singleton].
  intros z Hz ->%list_elem_of_singleton. done.
Qed.

Lemma elem_of_arrayFromSet xs x : x ∈ Js.arrayFromSet xs ↔ x ∈ xs.
Proof.
  unfold Js.arrayFromSet. rewrite elem_of_foldl_setAdd, elem_of_nil. tauto.
Qed.

Lemma NoDup_arrayFromSet xs : NoDup (Js.arrayFromSet xs).
Proof. apply NoDup_foldl_setAdd, NoDup_nil_2. Qed.

Lemma NoDup_two_length (l : list A) a b :
  NoDup l → a ∈ l → b ∈ l → a ≠ b → (1 < length l)%nat.
Proof.
  intros Hnd Ha Hb Hne.
  destruct l as [|u [|v l]]; simpl; [by apply elem_of_nil in Ha| |lia].
  apply list_elem_of_singleton in Ha, Hb. congruence.
Qed.

Lemma NoDup_all_eq_length (l : list A) m :
  NoDup l → (∀ x, x ∈ l → x = m) → (length l ≤ 1)%nat.
Proof.
  intros Hnd Hall.
  destruct l as [|u [|v l]]; simpl; [lia|lia|].
  exfalso. apply NoDup_cons in Hnd as [Hu _]. apply Hu.
  rewrite (Hall u), (Hall v); [left| |]; set_solver.
Qed.

End ArrayFromSet.

(** ** Loops that may throw *)

Lemma forEachFrom_app {A St} (body : St → A → nat → Result St) pre : ∀ post idx s,
  Js.forEachFrom body idx (pre ++ post) s =
  s' ← Js.forEachFrom body idx pre s; Js.forEachFrom body (idx + length pre) post s'.
Proof.
  induction pre as [|x pre IH]; intros post idx s; simpl.
  - by rewrite Nat.add_0_r.
  - destruct (body s x idx) as [s1|e]; simpl; [|done].
    rewrite IH. by replace (S idx + length pre)%nat with (idx + S (length pre))%nat by lia.
Qed.

Lemma forEachFrom_throws {A St} (body : St → A → nat → Result St) x xs :
  x ∈ xs →
  (∀ s idx, ∃ e, body s x idx = Err e) →
  ∀ idx s, ∃ e, Js.forEachFrom body idx xs s = Err e.
Proof.
  intros Hin Hbody. induction xs as [|y xs IH]; intros idx s; simpl.
  - by apply elem_of_nil in Hin.
  - apply elem_of_cons in Hin as [<-|Hin].
    + destruct (Hbody s idx) as [e ->]. by exists e.
    + destruct (body s y idx) as [s1|e]; simpl; [|by exists e].
      by apply IH.
Qed.

Lemma forEach_reaches_throw {A St} (body : St → A → nat → Result St)
    xs pre x post s s' e :
  xs = pre ++ x :: post →
  Js.forEach body pre s = Ok s' →
  (∀ idx, body s' x idx = Err e) →
  Js.forEach body xs s = Err e.
Proof.
  unfold Js.forEach. intros -> Hpre Hx.
  rewrite forEachFrom_app, Hpre. simpl. by rewrite Hx.
Qed.

(** A loop that throws does so at its first element whose step throws: the
    steps before it returned. *)
Lemma forEachFrom_first_throw {A St} (body : St → A → nat → Result St) xs : ∀ idx s e,
  Js.forEachFrom body idx xs s = Err e →
  ∃ pre x post s',
    xs = pre ++ x :: post
    ∧ Js.forEachFrom body idx pre s = Ok s'
    ∧ body s' x (idx + length pre)%nat = Err e.
Proof.
  induction xs as [|a xs IH]; intros idx s e; simpl; [done|].
  destruct (body s a idx) as [s1|e1] eqn:Hbody; simpl.
  - intros (pre & x & post & s' & -> & Hpre & Hx)%IH.
    exists (a :: pre), x, post, s'. simpl. rewrite Hbody. simpl.
    split_and!; [done|done|].
    by replace (idx + S (length pre))%nat with (S idx + length pre)%nat by lia.
  - intros [= <-]. exists [], a, xs, s. simpl. by rewrite Nat.add_0_r.
Qed.

Lemma forEachFrom_err {A St} (body : St → A → nat → Result St) xs idx s e :
  Js.forEachFrom body idx xs s = Err e →
  ∃ s' x i, x ∈ xs ∧ body s' x i = Err e.
Proof.
  intros (pre & x & post & s' & -> & _ & Hx)%forEachFrom_first_throw.
  exists s', x, (idx + length pre)%nat. split; [|done].
  apply elem_of_app. right. left.
Qed.

Lemma mapResult_err {X Y} (f : X → Result Y) xs : ∀ e,
  Js.mapResult f xs = Err e → ∃ x, x ∈ xs ∧ f x = Err e.
Proof.
  induction xs as [|a xs IH]; intros e; simpl; [done|].
  destruct (f a) as [y|e1] eqn:Hf; simpl.
  - destruct (Js.mapResult f xs) as [ys|e2]; simpl; [done|].
    intros [= <-]. destruct (IH e2 eq_refl) as (x & Hx & He).
    exists x. split; [by right|done].
  - intros [= <-]. exists a. split; [left|done].
Qed.

Lemma mapResult_lookup {X Y} (f : X → Result Y) xs : ∀ out,
  Js.mapResult f xs = Ok out →
  length out = length xs
  ∧ ∀ k x, xs !! k = Some x → ∃ y, f x = Ok y ∧ out !! k = Some y.
Proof.
  induction xs as [|a xs IH]; intros out; simpl.
  - intros [= <-]. done.
  - destruct (f a) as [y|e] eqn:Hy; simpl; [|done].
    destruct (Js.mapResult f xs) as [ys|e]; simpl; [|done].
    intros [= <-]. destruct (IH ys eq_refl) as [Hlen Hk]. split; [simpl; lia|].
    intros [|k] x; simpl.
    + intros [= <-]. by exists y.
    + apply Hk.
Qed.

Lemma mapResult_ok {X Y} (f : X → Result Y) xs :
  (∀ x, x ∈ xs → ∃ y, f x = Ok y) → ∃ out, Js.mapResult f xs = Ok out.
Proof.
  induction xs as [|a xs IH]; intros Hf; simpl.
  - by exists [].
  - destruct (Hf a) as [y ->]; [left|]. simpl.
    destruct IH as [ys ->]; [intros x Hx; apply Hf; by right|].
    by exists (y :: ys).
Qed.

(** A loop whose body stores one value per element under the element's name. *)
Lemma forEachFrom_stores {V} (value : string → nat → Result V)
    (body : gmap string V → string → nat → Result (gmap string V)) tiers :
  (∀ m t i, body m t i = v ← value t i; Ok (<[t := v]> m)) →
  ∀ idx m m' i t,
    NoDup tiers →
    Js.forEachFrom body idx tiers m = Ok m' →
    tiers !! i = Some t →
    ∃ v, value t (idx + i)%nat = Ok v ∧ m' !! t = Some v.
Proof.
  intros Hbody.
  assert (∀ tiers idx m m' t, t ∉ tiers →
            Js.forEachFrom body idx tiers m = Ok m' → m' !! t = m !! t) as Hother.
  { clear tiers. induction tiers as [|a tiers IH]; intros idx m m' t Hnin; simpl.
    - by intros [= <-].
    - apply not_elem_of_cons in Hnin as [Hne Hnin]. rewrite Hbody.
      destruct (value a idx) as [v|e]; simpl; [|done].
      intros H. rewrite (IH _ _ _ _ Hnin H). by rewrite lookup_insert_ne. }
  induction tiers as [|a tiers IH]; intros idx m m' i t Hnd Hrun Hi; [done|].
  apply NoDup_cons in Hnd as [Hnin Hnd]. simpl in Hrun. rewrite Hbody in Hrun.
  destruct (value a idx) as [v|e] eqn:Hv; simpl in Hrun; [|done].
  destruct i as [|i]; simpl in Hi.
  - injection Hi as ->. exists v. rewrite Nat.add_0_r. split; [done|].
    rewrite (Hother _ _ _ _ _ Hnin Hrun). by rewrite lookup_insert_eq.
  - destruct (IH _ _ _ i t Hnd Hrun Hi) as (v' & Hv' & Hm').
    exists v'. split; [|done]. by replace (idx + S i)%nat with (S idx + i)%nat by lia.
Qed.

Lemma forEachFrom_stores_ok {V} (value : string → nat → Result V)
    (body : gmap string V → string → nat → Result (gmap string V)) tiers :
  (∀ m t i, body m t i = v ← value t i; Ok (<[t := v]> m)) →
  (∀ t i, t ∈ tiers → ∃ v, value t i = Ok v) →
  ∀ idx m, ∃ m', Js.forEachFrom body idx tiers m = Ok m'.
Proof.
  intros Hbody. induction tiers as [|a tiers IH]; intros Hval idx m; simpl.
  - by exists m.
  - rewrite Hbody. destruct (Hval a idx) as [v ->]; [left|]. simpl.
    apply IH. intros t i Ht. apply Hval. by right.
Qed.

(** ** utils/networking, as modelled *)

Section NetworkingFacts.
Import Networking.

(** [getBiggestMask] is the [biggestChildPrefix] of the specification: the
    smallest prefix length that fits [count] children. *)
Lemma getBiggestMask_smallest n count p :
  (0 < count)%nat →
  getBiggestMask n count = Ok p →
  n ≤ p ≤ 32
  ∧ Z.of_nat count ≤ 2 ^ (p - n)
  ∧ ∀ q, n ≤ q → Z.of_nat count ≤ 2 ^ (q - n) → p ≤ q.
Proof.
  intros Hcount. unfold getBiggestMask.
  destruct (Z.ltb_spec 32 (n + Z.log2_up (Z.of_nat count))); [done|].
  intros [= <-]. pose proof (Z.log2_up_nonneg (Z.of_nat count)).
  replace (n + Z.log2_up (Z.of_nat count) - n) with (Z.log2_up (Z.of_nat count)) by lia.
  split_and!; [lia|lia| |].
  - apply Z.log2_up_le_pow2; lia.
  - intros q Hq Hfit. apply Z.log2_up_le_pow2 in Hfit; lia.
Qed.

Lemma getBiggestMask_exhausted n count :
  getBiggestMask n count = Err AddressSpaceExhausted
  ↔ 32 < n + Z.log2_up (Z.of_nat count).
Proof.
  unfold getBiggestMask.
  destruct (Z.ltb_spec 32 (n + Z.log2_up (Z.of_nat count))); split; (done || lia).
Qed.

Lemma getBiggestMask_lower_bound n count b :
  getBiggestMask n count = Ok b → n ≤ b.
Proof.
  unfold getBiggestMask. destruct (32 <? _); [done|].
  intros [= <-]. pose proof (Z.log2_up_nonneg (Z.of_nat count)). lia.
Qed.

Lemma getBiggestMask_err n count e :
  getBiggestMask n count = Err e → e = AddressSpaceExhausted.
Proof. unfold getBiggestMask. destruct (32 <? _); [|done]. by intros [= <-]. Qed.

Lemma Fn_cidr_ok c count bits :
  (1 ≤ count ≤ 256)%nat → Fn.cidr c count bits = Ok (FnCidr c count bits).
Proof. intros H. unfold Fn.cidr. destruct (decide _); [lia|done]. Qed.

Lemma Fn_cidr_inv c count bits l :
  Fn.cidr c count bits = Ok l → (1 ≤ count ≤ 256)%nat ∧ l = FnCidr c count bits.
Proof.
  unfold Fn.cidr. destruct (decide _); [done|]. intros [= <-]. split; [lia|done].
Qed.

Lemma Fn_cidr_err c count bits e :
  Fn.cidr c count bits = Err e → e = FnCidrCount count ∧ (count < 1 ∨ 256 < count)%nat.
Proof. unfold Fn.cidr. destruct (decide _); [|done]. by intros [= <-]. Qed.

(** The errors of a partition. *)
Lemma divideCidr_errors c count mask e :
  divideCidr c count mask = Err e →
  e = InvalidPrefixLength ∨ e = AddressSpaceExhausted ∨ e = PrefixTooWide
  ∨ e = FnCidrCount count.
Proof.
  unfold divideCidr. destruct (prefixOf c) as [p|]; [|intros [= <-]; auto].
  destruct (getBiggestMask p count) as [b|e'] eqn:Hb; simpl.
  - destruct (_ <? _); [intros [= <-]; auto|].
    unfold validatePrefix. destruct (_ || _); simpl; [intros [= <-]; auto|].
    destruct c; try done;
      destruct (Fn.cidr _ _ _) as [l|e'] eqn:Hl; simpl; try done;
      intros [= <-]; apply Fn_cidr_err in Hl as [-> _]; auto.
  - intros [= <-]. apply getBiggestMask_err in Hb as ->. auto.
Qed.

(** A partition that returns gives [count] blocks. *)
Lemma divideCidr_length c count mask blocks :
  divideCidr c count mask = Ok blocks → length blocks = count.
Proof.
  unfold divideCidr. destruct (prefixOf c) as [p|]; [|done].
  destruct (getBiggestMask p count) as [b|]; simpl; [|done].
  destruct (_ <? _); [done|].
  destruct (validatePrefix _); simpl; [|done].
  destruct c; try (destruct (Fn.cidr _ _ _); simpl; [|done]);
    intros [= <-]; by rewrite length_map, length_seq.
Qed.

(** Direct mode: the blocks of a literal parent. *)
Lemma divideCidr_blocks parent count mask blocks :
  divideCidr (Literal parent) count mask = Ok blocks →
  ∃ p,
    length blocks = count
    ∧ ∀ i, (i < count)%nat →
        blocks !! i = Some (Literal (mkBlock (base parent + Z.of_nat i * 2 ^ (32 - p)) p)).
Proof.
  unfold divideCidr. simpl.
  destruct (getBiggestMask _ _) as [b|]; simpl; [|done].
  destruct (_ <? _); [done|].
  destruct (validatePrefix _); simpl; [|done].
  intros [= <-]. exists (default b mask). split.
  - by rewrite length_map, length_seq.
  - intros i Hi. rewrite list_lookup_fmap, lookup_seq_lt by done. done.
Qed.

Lemma divideCidr_explicit parent count b m :
  getBiggestMask (prefixLength parent) count = Ok b →
  b ≤ m → 0 ≤ m ≤ 32 →
  divideCidr (Literal parent) count (Some m) =
  Ok (map (childBlock parent m) (seq 0 count)).
Proof.
  intros Hb Hle Hm. unfold divideCidr, validatePrefix. simpl. rewrite Hb. simpl.
  destruct (Z.ltb_spec m b); [lia|].
  destruct (Z.ltb_spec m 0); [lia|].
  destruct (Z.ltb_spec 32 m); [lia|done].
Qed.

End NetworkingFacts.

(** ** Tiered subnets: masks of a tier *)

Section TierMasks.
Import TieredSubnets Networking Props.
Implicit Types (input : AllocateCidrRequest) (tier : string).

Lemma masks_differing input tier :
  differingMasks input tier ↔ (1 < length (masksOf (tierSubnetsOf input tier)))%nat.
Proof.
  unfold masksOf. split.
  - intros (x & y & Hx & Hy & Hne).
    apply (NoDup_two_length _ (cidrMask (configuration x)) (cidrMask (configuration y))).
    + apply NoDup_arrayFromSet.
    + apply elem_of_arrayFromSet, list_elem_of_fmap. exists x. auto.
    + apply elem_of_arrayFromSet, list_elem_of_fmap. exists y. auto.
    + done.
  - intros Hlen.
    pose proof (NoDup_arrayFromSet
                  (map (fun x => cidrMask (configuration x)) (tierSubnetsOf input tier)))
      as Hnd.
    destruct (Js.arrayFromSet _) as [|a [|b l]] eqn:Hl; simpl in Hlen; [lia|lia|].
    assert (a ∈ Js.arrayFromSet
              (map (fun x => cidrMask (configuration x)) (tierSubnetsOf input tier)))
      as (x & -> & Hx)%elem_of_arrayFromSet%list_elem_of_fmap
      by (rewrite Hl; left).
    assert (b ∈ Js.arrayFromSet
              (map (fun x => cidrMask (configuration x)) (tierSubnetsOf input tier)))
      as (y & -> & Hy)%elem_of_arrayFromSet%list_elem_of_fmap
      by (rewrite Hl; right; left).
    exists x, y. split_and!; [done..|].
    apply NoDup_cons in Hnd as [Hnin _]. intros Heq. apply Hnin. rewrite Heq. left.
Qed.

Lemma distinct_differing input tier :
  distinctExplicitMasks input tier → differingMasks input tier.
Proof.
  intros (x & y & a & b & Hx & Hy & Ha & Hb & Hne). exists x, y.
  split_and!; [done..|]. congruence.
Qed.

Lemma uniform_not_differing input tier :
  uniformMasks input tier ↔ ¬ differingMasks input tier.
Proof.
  split.
  - intros [m Hm] (x & y & Hx & Hy & Hne). apply Hne.
    by rewrite (Hm x), (Hm y).
  - intros Hnot. destruct (tierSubnetsOf input tier) as [|x l] eqn:Hl.
    + exists None. intros y Hy. rewrite Hl in Hy.
      by apply elem_of_nil in Hy.
    + exists (cidrMask (configuration x)). intros y Hy.
      destruct (decide (cidrMask (configuration y) = cidrMask (configuration x)))
        as [|Hne]; [done|].
      exfalso. apply Hnot. exists y, x. split_and!; [done| |done].
      rewrite Hl. left.
Qed.

Lemma masks_uniform input tier :
  uniformMasks input tier →
  (length (masksOf (tierSubnetsOf input tier)) ≤ 1)%nat.
Proof.
  intros Hu%uniform_not_differing.
  destruct (decide (1 < length (masksOf (tierSubnetsOf input tier)))%nat)
    as [Hlen%masks_differing|]; [done|lia].
Qed.

(** The step of a tier fails with the inconsistent-subnet-size error exactly
    when the masks of the tier differ (built from an IPAM pool: and
    [getBiggestMask] of the tier, which is run first, returns). *)
Lemma noIpamTierBody_inconsistent input azs tierNetworks networkMap tier tIdx :
  noIpamTierBody input azs tierNetworks networkMap tier tIdx = Err InconsistentSubnetSize
  ↔ differingMasks input tier.
Proof.
  rewrite masks_differing. unfold noIpamTierBody.
  destruct (decide _) as [Hlen|Hlen]; [done|]. split; [|done].
  destruct (tierNetworks !! tIdx) as [c|]; [|done].
  destruct (divideCidr c _ _) as [l|e] eqn:Hd; simpl; [done|].
  intros [= ->]. apply divideCidr_errors in Hd. refute_errors Hd.
Qed.

Lemma ipamTierBody_inconsistent input azs eff tierNetworks networkMap tier tIdx :
  ipamTierBody input azs eff tierNetworks networkMap tier tIdx = Err InconsistentSubnetSize
  ↔ (∃ bs, getBiggestMask eff (length (tierSubnetsOf input tier)) = Ok bs)
    ∧ differingMasks input tier.
Proof.
  rewrite masks_differing. unfold ipamTierBody.
  destruct (getBiggestMask eff _) as [bs|e] eqn:Hbs; simpl.
  - destruct (decide _) as [Hlen|Hlen]; [split; [intros _; split; [by eexists|done]|done]|].
    split; [|by intros [_ ?]].
    destruct (_ && _); [done|].
    destruct (Fn.cidr _ _ _) as [l|e] eqn:Hl; simpl; [done|].
    intros [= ->]. by apply Fn_cidr_err in Hl as [? _].
  - split; [|by intros [[? ?] _]].
    intros [= ->]. by apply getBiggestMask_err in Hbs.
Qed.

Lemma ipamTierBody_differing_throws input azs eff tierNetworks networkMap tier tIdx :
  differingMasks input tier →
  ∃ e, ipamTierBody input azs eff tierNetworks networkMap tier tIdx = Err e.
Proof.
  intros H.
  destruct (getBiggestMask eff (length (tierSubnetsOf input tier))) as [b|e] eqn:Hb.
  - exists InconsistentSubnetSize. apply ipamTierBody_inconsistent. eauto.
  - exists e. unfold ipamTierBody. by rewrite Hb.
Qed.

(** A tier whose masks differ makes the allocation fail, in both modes. *)
Lemma allocateNoIpam_differing_throws self input tier :
  tier ∈ tiersOf input → differingMasks input tier →
  ∃ e, allocateSubnetsCidrNoIpam self input = Err e.
Proof.
  intros Hin Hd. unfold allocateSubnetsCidrNoIpam.
  destruct (divideCidr _ _ _) as [tn|e]; simpl; [|by exists e].
  destruct (forEachFrom_throws (noIpamTierBody input (azsOf input) tn)
              tier (tiersOf input) Hin) with (idx := 0%nat) (s := (∅ : NetworkMap))
    as [e He].
  - intros s idx. exists InconsistentSubnetSize. by apply noIpamTierBody_inconsistent.
  - exists e. unfold Js.forEach. by rewrite He.
Qed.

Lemma allocateIpam_differing_throws self input tier :
  tier ∈ tiersOf input → differingMasks input tier →
  ∃ e, allocateSubnetsCidrIpam self input = Err e.
Proof.
  intros Hin Hd. unfold allocateSubnetsCidrIpam.
  destruct (ipv4NetmaskLength _) as [n|]; [|by eexists].
  destruct (getBiggestMask n _) as [b|e]; simpl; [|by exists e].
  destruct (_ && _); [by eexists|].
  destruct (Fn.cidr _ _ _) as [tn|e]; simpl; [|by exists e].
  destruct (forEachFrom_throws
              (ipamTierBody input (azsOf input) (default b (tierMask self)) tn)
              tier (tiersOf input) Hin) with (idx := 0%nat) (s := (∅ : NetworkMap))
    as [e He].
  - intros s idx. by apply ipamTierBody_differing_throws.
  - exists e. unfold Js.forEach. by rewrite He.
Qed.

(** The final [map] cannot throw the inconsistent-subnet-size error. *)
Lemma lookupSubnet_errors networkMap x e :
  lookupSubnet networkMap x = Err e → e = TypeError.
Proof. unfold lookupSubnet. destruct (networkMap !! _); [done|]. by intros [= <-]. Qed.

(** An allocation from a concrete CIDR fails with the
    inconsistent-subnet-size error exactly when the partition of the VPC
    returns and the loop gets to a tier whose masks differ. *)
Lemma allocateNoIpam_inconsistent self input :
  allocateSubnetsCidrNoIpam self input = Err InconsistentSubnetSize
  ↔ ∃ tierNetworks tier,
      divideCidr (vpcCidr input) (length (tiersOf input)) (tierMask self) = Ok tierNetworks
      ∧ reachesTier (noIpamTierBody input (azsOf input) tierNetworks) (tiersOf input) tier
      ∧ differingMasks input tier.
Proof.
  unfold allocateSubnetsCidrNoIpam. split.
  - destruct (divideCidr (vpcCidr input) _ _) as [tn|e] eqn:Htn; simpl.
    + destruct (Js.forEach _ _ _) as [nm|e] eqn:Hloop; simpl.
      * intros (x & _ & Hx%lookupSubnet_errors)%mapResult_err. done.
      * intros [= ->].
        apply forEachFrom_first_throw in Hloop as (pre & t & post & s' & Ht & Hpre & Hbody).
        exists tn, t. split_and!; [done| |by eapply noIpamTierBody_inconsistent].
        by exists pre, post, s'.
    + intros [= ->]. apply divideCidr_errors in Htn. refute_errors Htn.
  - intros (tn & tier & -> & (pre & post & nm & Htiers & Hpre) & Hd). simpl.
    rewrite (forEach_reaches_throw _ _ pre tier post ∅ nm InconsistentSubnetSize);
      [done|done|done|].
    intros idx. by apply noIpamTierBody_inconsistent.
Qed.

(** An allocation from an IPAM pool fails with the inconsistent-subnet-size
    error exactly when the netmask is given, [getBiggestMask] returns, the
    tier mask passes its check, [Fn.cidr] takes the number of tiers, and the
    loop gets to a tier whose masks differ and whose [getBiggestMask]
    returns. *)
Lemma allocateIpam_inconsistent self input :
  allocateSubnetsCidrIpam self input = Err InconsistentSubnetSize
  ↔ ∃ n b tier bs,
      ipv4NetmaskLength (ipamOptions self) = Some n
      ∧ getBiggestMask n (length (tiersOf input)) = Ok b
      ∧ Js.truthyOptNum (tierMask self) && bool_decide (b < default 0 (tierMask self))
        = false
      ∧ (1 ≤ length (tiersOf input) ≤ 256)%nat
      ∧ reachesTier
          (ipamTierBody input (azsOf input) (default b (tierMask self))
             (FnCidr (vpcCidr input) (length (tiersOf input))
                (32 - default b (tierMask self))))
          (tiersOf input) tier
      ∧ getBiggestMask (default b (tierMask self)) (length (tierSubnetsOf input tier))
        = Ok bs
      ∧ differingMasks input tier.
Proof.
  unfold allocateSubnetsCidrIpam. split.
  - destruct (ipv4NetmaskLength _) as [n|]; [|done].
    destruct (getBiggestMask n _) as [b|e] eqn:Hb; simpl;
      [|intros [= ->]; by apply getBiggestMask_err in Hb].
    destruct (_ && _) eqn:Hcheck; [done|].
    destruct (Fn.cidr _ _ _) as [tn|e] eqn:Htn; simpl;
      [|intros [= ->]; by apply Fn_cidr_err in Htn as [? _]].
    apply Fn_cidr_inv in Htn as [Hcount ->].
    destruct (Js.forEach _ _ _) as [nm|e] eqn:Hloop; simpl.
    + intros (x & _ & Hx%lookupSubnet_errors)%mapResult_err. done.
    + intros [= ->].
      apply forEachFrom_first_throw in Hloop as (pre & t & post & s' & Ht & Hpre & Hbody).
      apply ipamTierBody_inconsistent in Hbody as [[bs Hbs] Hd].
      exists n, b, t, bs. split_and!; try (done || lia). by exists pre, post, s'.
  - intros (n & b & tier & bs & -> & -> & Hcheck & Hcount
            & (pre & post & nm & Htiers & Hpre) & Hbs & Hd).
    simpl. rewrite Hcheck, Fn_cidr_ok by done. simpl.
    rewrite (forEach_reaches_throw _ _ pre tier post ∅ nm InconsistentSubnetSize);
      [done|done|done|].
    intros idx. apply ipamTierBody_inconsistent. eauto.
Qed.

End TierMasks.

(** ** Tiered subnets: the blocks of a returned allocation *)

Section AllocationShape.
Import TieredSubnets Networking Props.

Lemma assignAzsFrom_other pick azs : ∀ idx (m : gmap string Cidr) az,
  az ∉ azs → assignAzsFrom pick idx azs m !! az = m !! az.
Proof.
  induction azs as [|a azs IH]; intros idx m az Hnin; simpl; [done|].
  apply not_elem_of_cons in Hnin as [Hne Hnin].
  rewrite IH by done. unfold assignAz.
  destruct (decide (a = "__proto__")); [done|].
  destruct (pick idx); [by rewrite lookup_insert_ne|by rewrite lookup_delete_ne].
Qed.

Lemma assignAzsFrom_lookup pick azs : ∀ idx (m : gmap string Cidr) i az,
  NoDup azs → azs !! i = Some az → az ≠ "__proto__" →
  assignAzsFrom pick idx azs m !! az = pick (idx + i)%nat.
Proof.
  induction azs as [|a azs IH]; intros idx m i az Hnd Hi Hproto; [done|].
  apply NoDup_cons in Hnd as [Hnin Hnd]. destruct i as [|i]; simpl in *.
  - injection Hi as ->. rewrite assignAzsFrom_other by done.
    rewrite Nat.add_0_r. unfold assignAz.
    destruct (decide (az = "__proto__")); [done|].
    destruct (pick idx); [by rewrite lookup_insert_eq|by rewrite lookup_delete_eq].
  - rewrite (IH _ _ i) by done. f_equal. lia.
Qed.

(** What the final [map] reads for the zone at position [i]: the value the
    loop over the zones picked for it, or [Object.prototype] for the zone
    [__proto__]. *)
Lemma readAz_assignAzs pick azs i az :
  NoDup azs → azs !! i = Some az →
  readAz az (assignAzs pick azs) =
  if decide (az = "__proto__") then Some ObjectPrototype else pick i.
Proof.
  intros Hnd Hi. unfold readAz, assignAzs.
  destruct (decide (az = "__proto__")); [done|].
  by rewrite (assignAzsFrom_lookup _ _ _ _ i).
Qed.

(** The value that [allocateSubnetsCidrNoIpam] stores for a tier. *)
Lemma noIpamTierBody_stores input azs tierNetworks networkMap tier tIdx :
  noIpamTierBody input azs tierNetworks networkMap tier tIdx =
  v ← (if decide (1 < length (masksOf (tierSubnetsOf input tier)))%nat
        then Err InconsistentSubnetSize
        else match tierNetworks !! tIdx with
             | None => Err TypeError
             | Some tierNetwork =>
                 azNetworks ← divideCidr tierNetwork (length azs)
                                 (firstMask (masksOf (tierSubnetsOf input tier)));
                 Ok (assignAzs (fun azIdx => azNetworks !! azIdx) azs)
             end);
  Ok (<[tier := v]> networkMap).
Proof.
  unfold noIpamTierBody. destruct (decide _); [done|].
  destruct (tierNetworks !! tIdx); [|done].
  by destruct (divideCidr _ _ _).
Qed.

(** The value that [allocateSubnetsCidrIpam] stores for a tier. *)
Lemma ipamTierBody_stores input azs eff tierNetworks networkMap tier tIdx :
  ipamTierBody input azs eff tierNetworks networkMap tier tIdx =
  v ← (biggest ← getBiggestMask eff (length (tierSubnetsOf input tier));
       let masks := masksOf (tierSubnetsOf input tier) in
       if decide (1 < length masks)%nat then Err InconsistentSubnetSize
       else if Js.truthyOptNum (firstMask masks)
               && bool_decide (biggest < default 0 (firstMask masks))
       then Err SubnetMaskTooNarrow
       else
         subnetNetworks ← Fn.cidr (FnSelect tIdx tierNetworks)
                             (length (tierSubnetsOf input tier))
                             (32 - default biggest (firstMask masks));
         Ok (assignAzs (fun azIdx => Some (FnSelect azIdx subnetNetworks)) azs));
  Ok (<[tier := v]> networkMap).
Proof.
  unfold ipamTierBody, Fn.select. destruct (getBiggestMask _ _); simpl; [|done].
  destruct (decide _); [done|]. destruct (_ && _); [done|].
  by destruct (Fn.cidr _ _ _).
Qed.

(** The blocks of an allocation from an IPAM pool that returns. *)
Lemma ipam_blocks self input out :
  allocateSubnetsCidrIpam self input = Ok out →
  ∃ n b,
    ipv4NetmaskLength (ipamOptions self) = Some n
    ∧ getBiggestMask n (length (tiersOf input)) = Ok b
    ∧ (1 ≤ length (tiersOf input) ≤ 256)%nat
    ∧ length out = length (requestedSubnets input)
    ∧ ∀ k x tIdx azIdx,
        requestedSubnets input !! k = Some x →
        tiersOf input !! tIdx = Some (name (configuration x)) →
        azsOf input !! azIdx = Some (availabilityZone x) →
        ∃ bs,
          getBiggestMask (default b (tierMask self))
            (length (tierSubnetsOf input (name (configuration x)))) = Ok bs
          ∧ (1 ≤ length (tierSubnetsOf input (name (configuration x))) ≤ 256)%nat
          ∧ out !! k = Some {| cidr := Some
              (if decide (availabilityZone x = "__proto__") then ObjectPrototype
               else
                 FnSelect azIdx
                   (FnCidr
                      (FnSelect tIdx
                         (FnCidr (vpcCidr input) (length (tiersOf input))
                            (32 - default b (tierMask self))))
                      (length (tierSubnetsOf input (name (configuration x))))
                      (32 - default bs
                              (firstMask
                                 (masksOf
                                    (tierSubnetsOf input (name (configuration x)))))))) |}.
Proof.
  unfold allocateSubnetsCidrIpam. intros H.
  destruct (ipv4NetmaskLength _) as [n|]; [|done].
  destruct (getBiggestMask n _) as [b|e] eqn:Hb; simpl in H; [|done].
  destruct (_ && _); [done|].
  destruct (Fn.cidr _ _ _) as [tn|e] eqn:Htn; simpl in H; [|done].
  apply Fn_cidr_inv in Htn as [Hcount ->].
  exists n, b. split_and!; [done|done|lia|lia| |].
  - destruct (Js.forEach _ _ _) as [nm|e]; simpl in H; [|done].
    by apply mapResult_lookup in H as [Hlen _].
  - destruct (Js.forEach _ _ _) as [nm|e] eqn:Hloop; simpl in H; [|done].
    apply mapResult_lookup in H as [_ Hout].
    intros k x tIdx azIdx Hx Ht Haz.
    destruct (Hout k x Hx) as (y & Hy & Hk).
    eapply (forEachFrom_stores _ _ (tiersOf input)) with (i := tIdx)
      in Hloop as (v & Hv & Hnm);
      [|intros; apply ipamTierBody_stores|apply NoDup_arrayFromSet|exact Ht].
    simpl in Hv.
    destruct (getBiggestMask (default b (tierMask self)) _) as [bs|e] eqn:Hbs;
      simpl in Hv; [|done].
    destruct (decide _); [done|]. destruct (_ && _); [done|].
    destruct (Fn.cidr _ _ _) as [sn|e] eqn:Hsn; simpl in Hv; [|done].
    apply Fn_cidr_inv in Hsn as [Hsubnets ->].
    injection Hv as <-. exists bs. split_and!; [done|lia|lia|].
    unfold lookupSubnet in Hy. rewrite Hnm in Hy. injection Hy as <-.
    rewrite Hk. do 2 f_equal.
    rewrite (readAz_assignAzs _ _ azIdx (availabilityZone x))
      by (apply NoDup_arrayFromSet || done).
    by destruct (decide _).
Qed.

End AllocationShape.

(** ** Tiered subnets: the errors of an allocation *)

Section AllocationErrors.
Import TieredSubnets Networking Props.

(** An allocation from a concrete CIDR throws nothing but the errors of
    [divideCidr], the inconsistent-subnet-size error and a [TypeError]. *)
Lemma allocateNoIpam_errors self input e :
  allocateSubnetsCidrNoIpam self input = Err e →
  e = InvalidPrefixLength ∨ e = AddressSpaceExhausted ∨ e = PrefixTooWide
  ∨ (∃ count, e = FnCidrCount count) ∨ e = InconsistentSubnetSize ∨ e = TypeError.
Proof.
  unfold allocateSubnetsCidrNoIpam. intros H.
  destruct (divideCidr (vpcCidr input) _ _) as [tn|e'] eqn:Htn; simpl in H.
  - destruct (Js.forEach _ _ _) as [nm|e'] eqn:Hloop; simpl in H.
    + apply mapResult_err in H as (x & _ & ->%lookupSubnet_errors). auto 10.
    + injection H as ->. apply forEachFrom_err in Hloop as (s' & t & i & _ & Hbody).
      unfold noIpamTierBody in Hbody.
      destruct (decide _); [injection Hbody as <-; auto 10|].
      destruct (tn !! i) as [c|]; [|injection Hbody as <-; auto 10].
      destruct (divideCidr c _ _) eqn:Hc; simpl in Hbody; [done|].
      injection Hbody as ->. apply divideCidr_errors in Hc.
      destruct Hc as [->|[->|[->| ->]]]; eauto 10.
  - injection H as ->. apply divideCidr_errors in Htn.
    destruct Htn as [->|[->|[->| ->]]]; eauto 10.
Qed.

(** An allocation from an IPAM pool throws the missing-netmask error only
    when the allocator has no netmask. *)
Lemma allocateSubnetsCidrIpam_netmask self input :
  allocateSubnetsCidrIpam self input = Err MissingNetmask →
  ipv4NetmaskLength (ipamOptions self) = None.
Proof.
  unfold allocateSubnetsCidrIpam. intros H.
  destruct (ipv4NetmaskLength _) as [n|]; [exfalso|done].
  destruct (getBiggestMask n _) as [b|e] eqn:Hb; simpl in H;
    [|injection H as ->; by apply getBiggestMask_err in Hb].
  destruct (_ && _); [done|].
  destruct (Fn.cidr _ _ _) as [tn|e] eqn:Htn; simpl in H;
    [|injection H as ->; by apply Fn_cidr_err in Htn as [? _]].
  apply Fn_cidr_inv in Htn as [_ ->].
  destruct (Js.forEach _ _ _) as [nm|e] eqn:Hloop; simpl in H.
  - by apply mapResult_err in H as (x & _ & ?%lookupSubnet_errors).
  - injection H as ->. apply forEachFrom_err in Hloop as (s' & t & i & _ & Hbody).
    rewrite ipamTierBody_stores in Hbody.
    destruct (getBiggestMask (default b (tierMask self)) _) as [bs|e] eqn:Hbs;
      simpl in Hbody; [|injection Hbody as ->; by apply getBiggestMask_err in Hbs].
    destruct (decide _); [done|]. destruct (_ && _); [done|].
    destruct (Fn.cidr _ _ _) as [sn|e] eqn:Hsn; simpl in Hbody; [done|].
    injection Hbody as ->. by apply Fn_cidr_err in Hsn as [? _].
Qed.

Lemma allocateSubnetsCidrNoIpam_netmask self input :
  allocateSubnetsCidrNoIpam self input ≠ Err MissingNetmask.
Proof. intros H%allocateNoIpam_errors. refute_errors H. Qed.

Lemma tier_mask_rejected_ipam self input n b m :
  ipv4NetmaskLength (ipamOptions self) = Some n →
  0 ≤ n →
  getBiggestMask n (length (tiersOf input)) = Ok b →
  tierMask self = Some m →
  b < m →
  allocateSubnetsCidrIpam self input = Err TierMaskTooNarrow.
Proof.
  intros Hn Hpos Hb Hm Hlt. unfold allocateSubnetsCidrIpam.
  rewrite Hn, Hb, Hm. simpl.
  apply getBiggestMask_lower_bound in Hb.
  unfold Js.truthyNum. rewrite bool_decide_true by done.
  destruct (Z.eqb_spec m 0); [lia|done].
Qed.

End AllocationErrors.

(** ** Tiered subnets: the claims *)

Section TieredClaims.
Import TieredSubnets Networking Props Examples.

(** The scenario of section 8 of the specification: 10.0.0.0/16 for the
    tiers public and private in the zones az1 and az2. *)
Example end_to_end_scenario :
  allocateSubnetsCidr (fromCidr None) (twoByTwo vpc16) =
  Ok [ {| cidr := Some (ipv4 10 0 0 0 18) |}; {| cidr := Some (ipv4 10 0 64 0 18) |};
       {| cidr := Some (ipv4 10 0 128 0 18) |}; {| cidr := Some (ipv4 10 0 192 0 18) |} ].
Proof. vm_compute. reflexivity. Qed.

(** C1, at the input that shows the defect.  The VPC 10.0.0.0/16 has the
    tier public in az1 and az2 and the tier private in az1 only.  Built from
    a concrete CIDR, the allocator splits the private tier 10.0.128.0/17 by
    the number of zones of the whole request (two), so (private, az1) gets
    10.0.128.0/18; a split by the tier's own zone count (one) is the whole
    /17.  Built from an IPAM pool, the allocator does split the private tier
    by its own count, [Fn.cidr(tier, 1, 15)], and then selects by the
    position of the zone in the zone list of the whole request: with the
    private tier in az2 only, it selects block 1 of a partition of one. *)
Theorem zone_split_counts_zones_of_whole_request :
  allocateSubnetsCidr (fromCidr None) (unevenZones vpc16) =
    Ok [ {| cidr := Some (ipv4 10 0 0 0 18) |};
         {| cidr := Some (ipv4 10 0 64 0 18) |};
         {| cidr := Some (ipv4 10 0 128 0 18) |} ]
  ∧ length (tierSubnetsOf (unevenZones vpc16) "private") = 1%nat
  ∧ length (azsOf (unevenZones vpc16)) = 2%nat
  ∧ divideCidr (ipv4 10 0 128 0 17) 1 None = Ok [ipv4 10 0 128 0 17]
  ∧ allocateSubnetsCidr (fromIpam None) (unevenZones (Token "Vpc.CidrBlock")) =
    (let tiers := FnCidr (Token "Vpc.CidrBlock") 2 15 in
     Ok [ {| cidr := Some (FnSelect 0 (FnCidr (FnSelect 0 tiers) 2 14)) |};
          {| cidr := Some (FnSelect 1 (FnCidr (FnSelect 0 tiers) 2 14)) |};
          {| cidr := Some (FnSelect 0 (FnCidr (FnSelect 1 tiers) 1 15)) |} ])
  ∧ allocateSubnetsCidr (fromIpam None) (unevenZonesLate (Token "Vpc.CidrBlock")) =
    (let tiers := FnCidr (Token "Vpc.CidrBlock") 2 15 in
     Ok [ {| cidr := Some (FnSelect 0 (FnCidr (FnSelect 0 tiers) 2 14)) |};
          {| cidr := Some (FnSelect 1 (FnCidr (FnSelect 0 tiers) 2 14)) |};
          {| cidr := Some (FnSelect 1 (FnCidr (FnSelect 1 tiers) 1 15)) |} ]).
Proof. vm_compute. repeat split; reflexivity. Qed.

(** C5.  The comparison of the tier mask with [getBiggestMask] is made by
    one of the two paths only.  Built from an IPAM pool with a netmask, the
    allocator rejects a tier mask that is numerically larger than
    [getBiggestMask] of the netmask and the number of tiers, before any
    block is assigned.  Built from a concrete CIDR, the allocator never
    raises the tier-mask error: it hands the tier mask to [divideCidr].  At
    10.0.0.0/16 with two tiers, [getBiggestMask] is 17; the tier mask 20 is
    larger, and the allocation returns four blocks. *)
Theorem tier_mask_compared_by_ipam_path_only :
  (∀ self input n b m,
     cidrBlock (ipamOptions self) = None →
     ipv4NetmaskLength (ipamOptions self) = Some n →
     0 ≤ n →
     getBiggestMask n (length (tiersOf input)) = Ok b →
     tierMask self = Some m →
     b < m →
     allocateSubnetsCidr self input = Err TierMaskTooNarrow)
  ∧ (∀ self input,
       is_Some (cidrBlock (ipamOptions self)) →
       allocateSubnetsCidr self input ≠ Err TierMaskTooNarrow)
  ∧ getBiggestMask 16 (length (tiersOf (twoByTwo vpc16))) = Ok 17
  ∧ allocateSubnetsCidr (fromCidr (Some 20)) (twoByTwo vpc16) =
    Ok [ {| cidr := Some (ipv4 10 0 0 0 21) |}; {| cidr := Some (ipv4 10 0 8 0 21) |};
         {| cidr := Some (ipv4 10 0 16 0 21) |}; {| cidr := Some (ipv4 10 0 24 0 21) |} ].
Proof.
  split_and!.
  - intros self input n b m Hmode Hn Hpos Hb Hm Hlt. unfold allocateSubnetsCidr.
    rewrite Hmode, bool_decide_false by (by intros [? ?]).
    by eapply tier_mask_rejected_ipam.
  - intros self input Hmode. unfold allocateSubnetsCidr.
    rewrite bool_decide_true by done.
    intros H%allocateNoIpam_errors. refute_errors H.
  - reflexivity.
  - vm_compute. reflexivity.
Qed.

Lemma tier_mask_compared_by_ipam_path_only_witness :
  allocateSubnetsCidr (fromIpam (Some 20)) (twoByTwo (Token "Vpc.CidrBlock"))
    = Err TierMaskTooNarrow
  ∧ allocateSubnetsCidr (fromCidr (Some 20)) (twoByTwo vpc16) ≠ Err TierMaskTooNarrow.
Proof.
  split.
  - refine (proj1 tier_mask_compared_by_ipam_path_only (fromIpam (Some 20))
              (twoByTwo (Token "Vpc.CidrBlock")) 16 17 20 _ _ _ _ _ _);
      [reflexivity | reflexivity | lia | reflexivity | reflexivity | lia].
  - refine (proj1 (proj2 tier_mask_compared_by_ipam_path_only) (fromCidr (Some 20))
              (twoByTwo vpc16) _).
    by eexists.
Defined.

(** C6 as stated fails in two ways.  A tier that asks for /24 and /25, in an
    allocation from an IPAM pool with the tier mask 20 (above
    [getBiggestMask], 16): the allocation fails with the tier-mask error,
    not with the inconsistent-subnet-size error.  A tier whose two subnets
    both ask for /24, in an allocation from an IPAM pool with netmask 16:
    the masks are uniform, and the tier is rejected with the subnet-mask
    error ([getBiggestMask] of the tier is 17). *)
Lemma subnet_size_claim_fails :
  (distinctExplicitMasks (mixedMasks (Token "Vpc.CidrBlock")) "public"
   ∧ "public" ∈ tiersOf (mixedMasks (Token "Vpc.CidrBlock"))
   ∧ allocateSubnetsCidr (fromIpam (Some 20)) (mixedMasks (Token "Vpc.CidrBlock"))
     = Err TierMaskTooNarrow)
  ∧ (uniformMasks (explicit24 (Token "Vpc.CidrBlock")) "public"
     ∧ "public" ∈ tiersOf (explicit24 (Token "Vpc.CidrBlock"))
     ∧ allocateSubnetsCidr (fromIpam None) (explicit24 (Token "Vpc.CidrBlock"))
       = Err SubnetMaskTooNarrow).
Proof.
  split; split_and!.
  - exists (subnet "public" "az1" (Some 24)), (subnet "public" "az2" (Some 25)), 24, 25.
    split_and!; try done; by_compute.
  - by_compute.
  - vm_compute. reflexivity.
  - exists (Some 24). intros x. vm_compute. intros H.
    repeat (apply elem_of_cons in H as [->|H]; [reflexivity|]). by apply elem_of_nil in H.
  - by_compute.
  - vm_compute. reflexivity.
Qed.

(** C6, as amended.  A tier of the request whose subnets carry two different
    explicit prefix lengths makes the allocation fail, in both modes.  The
    error is the inconsistent-subnet-size error exactly when every
    validation that runs before the consistency check of some tier passes
    and the subnets of that tier do not all carry the same cidrMask, an
    unset cidrMask counting as a value of its own: built from a concrete
    CIDR, the partition of the VPC returns and the steps of the tiers before
    it return; built from an IPAM pool, the netmask is given,
    [getBiggestMask] returns, the tier mask passes its check, the number of
    tiers is one that [Fn.cidr] takes, the steps of the tiers before it
    return and [getBiggestMask] of the tier returns.  The masks of a tier
    differ exactly when they are not uniform (one shared explicit prefix
    length, or all unset); so when the masks of every tier are uniform, no
    allocation fails with the inconsistent-subnet-size error. *)
Theorem inconsistent_subnet_size self input :
  (∀ tier, tier ∈ tiersOf input → distinctExplicitMasks input tier →
     (∃ e, allocateSubnetsCidrNoIpam self input = Err e)
     ∧ (∃ e, allocateSubnetsCidrIpam self input = Err e))
  ∧ (allocateSubnetsCidrNoIpam self input = Err InconsistentSubnetSize
     ↔ ∃ tierNetworks tier,
         divideCidr (vpcCidr input) (length (tiersOf input)) (tierMask self)
           = Ok tierNetworks
         ∧ reachesTier (noIpamTierBody input (azsOf input) tierNetworks)
             (tiersOf input) tier
         ∧ ¬ uniformMasks input tier)
  ∧ (allocateSubnetsCidrIpam self input = Err InconsistentSubnetSize
     ↔ ∃ n b tier bs,
         ipv4NetmaskLength (ipamOptions self) = Some n
         ∧ getBiggestMask n (length (tiersOf input)) = Ok b
         ∧ Js.truthyOptNum (tierMask self)
           && bool_decide (b < default 0 (tierMask self)) = false
         ∧ (1 ≤ length (tiersOf input) ≤ 256)%nat
         ∧ reachesTier
             (ipamTierBody input (azsOf input) (default b (tierMask self))
                (FnCidr (vpcCidr input) (length (tiersOf input))
                   (32 - default b (tierMask self))))
             (tiersOf input) tier
         ∧ getBiggestMask (default b (tierMask self))
             (length (tierSubnetsOf input tier)) = Ok bs
         ∧ ¬ uniformMasks input tier)
  ∧ (∀ tier, ¬ uniformMasks input tier ↔ differingMasks input tier)
  ∧ ((∀ tier, tier ∈ tiersOf input → uniformMasks input tier) →
     allocateSubnetsCidrNoIpam self input ≠ Err InconsistentSubnetSize
     ∧ allocateSubnetsCidrIpam self input ≠ Err InconsistentSubnetSize).
Proof.
  assert (∀ tier, ¬ uniformMasks input tier ↔ differingMasks input tier) as Hnot.
  { intros tier. rewrite uniform_not_differing. split; [|tauto].
    intros Hnn. rewrite masks_differing.
    destruct (decide (1 < length (masksOf (tierSubnetsOf input tier)))%nat)
      as [|Hlen]; [done|].
    exfalso. apply Hnn. by rewrite masks_differing. }
  assert (∀ (body : NetworkMap → string → nat → Result NetworkMap) tier,
            reachesTier body (tiersOf input) tier → tier ∈ tiersOf input) as Hreach.
  { intros body tier (pre & post & nm & -> & _). apply elem_of_app. right. left. }
  split_and!.
  - intros tier Hin Hd%distinct_differing. split.
    + by eapply allocateNoIpam_differing_throws.
    + by eapply allocateIpam_differing_throws.
  - rewrite allocateNoIpam_inconsistent.
    split; intros (tn & tier & ? & ? & ?); exists tn, tier; by rewrite ?Hnot in *.
  - rewrite allocateIpam_inconsistent.
    split; intros (n & b & tier & bs & ? & ? & ? & ? & ? & ? & ?);
      exists n, b, tier, bs; by rewrite ?Hnot in *.
  - done.
  - intros Hall. split.
    + intros (tn & tier & _ & Hr%Hreach & Hd%Hnot)%allocateNoIpam_inconsistent. 
      apply Hd. auto.
    + intros (n & b & tier & bs & _ & _ & _ & _ & Hr%Hreach & _ & Hd%Hnot)
               %allocateIpam_inconsistent.
      apply Hd. auto.
Qed.

Lemma mixedMasks_not_uniform vpc : ¬ Props.uniformMasks (mixedMasks vpc) "public".
Proof.
  intros [m Hm].
  assert (Some 24 = m) as <-.
  { apply (Hm (subnet "public" "az1" (Some 24))). by_compute. }
  assert (Some 25 = Some 24) by (apply (Hm (subnet "public" "az2" (Some 25))); by_compute).
  done.
Qed.

Lemma inconsistent_subnet_size_witness :
  allocateSubnetsCidrNoIpam (fromCidr None) (mixedMasks vpc16)
    = Err InconsistentSubnetSize
  ∧ allocateSubnetsCidrIpam (fromIpam None) (mixedMasks (Token "Vpc.CidrBlock"))
    = Err InconsistentSubnetSize.
Proof.
  split.
  - apply (proj1 (proj2 (inconsistent_subnet_size (fromCidr None) (mixedMasks vpc16)))).
    eexists _, "public". split_and!.
    + vm_compute. reflexivity.
    + exists [], [], ∅. split; reflexivity.
    + apply mixedMasks_not_uniform.
  - apply (proj1 (proj2 (proj2 (inconsistent_subnet_size (fromIpam None)
                                  (mixedMasks (Token "Vpc.CidrBlock")))))).
    exists 16, 16, "public", 17. split_and!.
    + reflexivity.
    + reflexivity.
    + reflexivity.
    + vm_compute. lia.
    + vm_compute. lia.
    + exists [], [], ∅. split; reflexivity.
    + reflexivity.
    + apply mixedMasks_not_uniform.
Defined.

End TieredClaims.

(** ** Method calls in a world *)

Section Calls.
Import Props.
Context {A B : Type}.

Lemma bind_ok (m : M A) (f : A → M B) w w' a :
  m w = (w', Ok a) → (m ≫= f) w = f a w'.
Proof. intros H. unfold mbind, M_bind. by rewrite H. Qed.

Lemma bind_err (m : M A) (f : A → M B) w w' e :
  m w = (w', Err e) → (m ≫= f) w = (w', Err e).
Proof. intros H. unfold mbind, M_bind. by rewrite H. Qed.

Lemma preserves_bind P (m : M A) (f : A → M B) :
  preserves P m → (∀ a, preserves P (f a)) → preserves P (m ≫= f).
Proof.
  intros Hm Hf w Hw. unfold mbind, M_bind.
  specialize (Hm w Hw). destruct (m w) as [w' [a|e]]; simpl in *; [|done].
  by apply Hf.
Qed.

Lemma preserves_ret P (a : A) : preserves P (mret a : M A).
Proof. by intros w Hw. Qed.

Lemma preserves_throw P e : preserves P (throw e : M A).
Proof. by intros w Hw. Qed.

End Calls.

Lemma preserves_forEachM {A} P (body : A → nat → M unit) xs :
  (∀ x idx, Props.preserves P (body x idx)) →
  ∀ idx, Props.preserves P (forEachM body idx xs).
Proof.
  intros Hbody. induction xs as [|x xs IH]; intros idx; simpl.
  - apply preserves_ret.
  - apply preserves_bind; [apply Hbody|]. intros _. apply IH.
Qed.

(** ** The construct tree *)

Lemma append_ne (s x : string) : x ≠ EmptyString → String.append s x ≠ s.
Proof.
  intros Hx. induction s as [|a s IH]; simpl; [done|].
  intros [= H]. by apply IH.
Qed.

Lemma append_assoc (s x y : string) :
  String.append (String.append s x) y = String.append s (String.append x y).
Proof.
  induction s as [|a s IH]; [done|].
  change (String a (String.append (String.append s x) y)
          = String a (String.append s (String.append x y))).
  by rewrite IH.
Qed.

Lemma append_nonempty (p x : string) : p ≠ EmptyString → String.append p x ≠ EmptyString.
Proof. by destruct p. Qed.

(** [sanitizeId] works character by character. *)
Lemma sanitizeId_append (s x : string) :
  Construct.sanitizeId (String.append s x)
  = String.append (Construct.sanitizeId s) (Construct.sanitizeId x).
Proof.
  induction s as [|a s IH]; [done|].
  change (Construct.sanitizeId (String a (String.append s x))
          = String.append (Construct.sanitizeId (String a s)) (Construct.sanitizeId x)).
  simpl. rewrite IH. by destruct (Ascii.eqb a Construct.pathSep).
Qed.

Lemma sanitizeId_nonempty (id : string) :
  id ≠ EmptyString → Construct.sanitizeId id ≠ EmptyString.
Proof.
  destruct id as [|a id]; [done|]. intros _. simpl.
  by destruct (Ascii.eqb a Construct.pathSep).
Qed.

(** An id of hexadecimal digits is its own name. *)
Lemma sanitizeId_hex (s : string) : Ipam.isHex s = true → Construct.sanitizeId s = s.
Proof.
  induction s as [|a s IH]; [done|]. simpl.
  intros [Ha Hs]%andb_true_iff. rewrite IH by done.
  destruct (Ascii.eqb_spec a Construct.pathSep) as [->|]; [|done].
  by vm_compute in Ha.
Qed.

(** The name of a child whose id is a prefix without [/] and a user id. *)
Lemma sanitizeId_prefixed (p id : string) :
  Construct.sanitizeId p = p →
  Construct.sanitizeId (String.append p id) = String.append p (Construct.sanitizeId id).
Proof. intros Hp. by rewrite sanitizeId_append, Hp. Qed.

Lemma childPath_ne (scope id : string) :
  id ≠ EmptyString → Construct.childPath scope id ≠ scope.
Proof.
  intros Hid%sanitizeId_nonempty. unfold Construct.childPath.
  destruct (decide (scope = EmptyString)) as [->|]; [done|].
  apply append_ne. by destruct (Construct.sanitizeId id).
Qed.

Lemma childPath_nonempty (scope id : string) :
  id ≠ EmptyString → Construct.childPath scope id ≠ EmptyString.
Proof.
  intros Hid%sanitizeId_nonempty. unfold Construct.childPath.
  destruct (decide (scope = EmptyString)) as [->|Hs]; [done|].
  by apply append_nonempty.
Qed.

Lemma grandchildPath_ne (scope id id' : string) :
  id ≠ EmptyString →
  Construct.childPath (Construct.childPath scope id) id' ≠ scope.
Proof.
  intros Hid. pose proof (childPath_nonempty scope id Hid) as Hp.
  unfold Construct.childPath at 1.
  destruct (decide (Construct.childPath scope id = EmptyString)); [done|].
  unfold Construct.childPath.
  destruct (decide (scope = EmptyString)) as [->|Hs].
  - apply append_nonempty. by apply sanitizeId_nonempty.
  - rewrite append_assoc. by apply append_ne.
Qed.

Lemma newConstruct_fresh scope id w :
  id ≠ EmptyString →
  Construct.sanitizeId id ∉ Construct.childrenOf (tree w) scope →
  ∃ w', newConstruct scope id w = (w', Ok (Construct.childPath scope id))
        ∧ Construct.childrenOf (tree w') scope
          = Construct.childrenOf (tree w) scope ++ [Construct.sanitizeId id]
        ∧ Construct.childrenOf (tree w') (Construct.childPath scope id) = []
        ∧ (∀ other, other ≠ scope → other ≠ Construct.childPath scope id →
             Construct.childrenOf (tree w') other = Construct.childrenOf (tree w) other)
        ∧ warnings w' = warnings w ∧ tags w' = tags w
        ∧ provisionedCidrs w' = provisionedCidrs w
        ∧ tagRestrictions w' = tagRestrictions w.
Proof.
  intros Hid Hfresh. unfold newConstruct, Construct.addChild.
  destruct (decide (Construct.sanitizeId id = EmptyString)) as [He|_];
    [by apply sanitizeId_nonempty in He|].
  destruct (decide _) as [|_]; [done|].
  eexists. split; [done|]. simpl. unfold Construct.childrenOf.
  split_and!; try done.
  - by rewrite lookup_insert_eq.
  - rewrite lookup_insert_ne by (symmetry; by apply childPath_ne).
    by rewrite lookup_insert_eq.
  - intros other H1 H2. by rewrite !lookup_insert_ne.
Qed.

Lemma newConstruct_taken scope id w :
  id ≠ EmptyString →
  Construct.sanitizeId id ∈ Construct.childrenOf (tree w) scope →
  newConstruct scope id w = (w, Err (DuplicateConstructName (Construct.sanitizeId id))).
Proof.
  intros Hid Hin. unfold newConstruct, Construct.addChild.
  destruct (decide (Construct.sanitizeId id = EmptyString)) as [He|_];
    [by apply sanitizeId_nonempty in He|].
  by destruct (decide _).
Qed.

(** What a [new C(scope, id)] leaves alone. *)
Lemma newConstruct_frame scope id w :
  warnings (fst (newConstruct scope id w)) = warnings w
  ∧ tags (fst (newConstruct scope id w)) = tags w
  ∧ provisionedCidrs (fst (newConstruct scope id w)) = provisionedCidrs w
  ∧ tagRestrictions (fst (newConstruct scope id w)) = tagRestrictions w.
Proof.
  unfold newConstruct. by destruct (Construct.addChild _ _ _).
Qed.

(** A [new C(scope, id)] that throws leaves the world as it was. *)
Lemma newConstruct_err scope id w w' e :
  newConstruct scope id w = (w', Err e) → w' = w.
Proof.
  unfold newConstruct. destruct (Construct.addChild _ _ _); [done|]. by intros [= <-].
Qed.

Lemma bind_inv_ok {A B} (m : M A) (f : A → M B) w w' b :
  (m ≫= f) w = (w', Ok b) → ∃ w1 a, m w = (w1, Ok a) ∧ f a w1 = (w', Ok b).
Proof.
  unfold mbind, M_bind. destruct (m w) as [w1 [a|e]]; [|done].
  intros H. by exists w1, a.
Qed.

(** [Annotations.addWarning]: afterwards the construct carries the message,
    once if it did not carry it twice before; nothing else changes. *)
Lemma addWarning_spec p msg w :
  let w' := fst (addWarning p msg w) in
  snd (addWarning p msg w) = Ok tt
  ∧ warnings w' = (if decide ((p, msg) ∈ warnings w) then warnings w
                   else warnings w ++ [(p, msg)])
  ∧ tree w' = tree w ∧ tags w' = tags w
  ∧ provisionedCidrs w' = provisionedCidrs w
  ∧ tagRestrictions w' = tagRestrictions w.
Proof. unfold addWarning. by destruct (decide _). Qed.

(** ** IPAM pools: child pools *)

Section ChildPools.
Import Ipam Props Examples.

Lemma isUnresolved_nonempty s : Token.isUnresolved s = true → s ≠ EmptyString.
Proof. by intros H ->. Qed.

Lemma validateChildLocale_concrete_parent self childLocale :
  Token.isUnresolved (default "" (locale self)) = false →
  validateChildLocale self childLocale = true.
Proof.
  intros H. unfold validateChildLocale. rewrite H.
  by rewrite andb_false_r.
Qed.

Lemma validateChildLocale_token_parent self pl l :
  locale self = Some pl →
  Token.isUnresolved pl = true →
  Token.isUnresolved l = false →
  validateChildLocale self (Some l) = false.
Proof.
  intros Hpl Htok Hl. unfold validateChildLocale. rewrite Hpl. simpl.
  rewrite Htok, Hl.
  destruct (String.eqb_spec pl EmptyString) as [->|_]; [done|]. simpl.
  apply bool_decide_eq_false. intros [= ->]. congruence.
Qed.

Lemma IpamPool_new_fields scope id props w w' pool :
  IpamPool_new scope id props w = (w', Ok pool) →
  path pool = Construct.childPath scope id
  ∧ locale pool = propsLocale props
  ∧ parentPool pool = propsParentPool props
  ∧ publicIpSource pool = propsPublicIpSource props
  ∧ addressConfiguration pool
    = default AddressConfiguration_ipv4 (propsAddressConfiguration props).
Proof.
  unfold IpamPool_new. intros H.
  apply bind_inv_ok in H as (w1 & p & Hp & H).
  apply bind_inv_ok in H as (w2 & [] & _ & H).
  apply bind_inv_ok in H as (w3 & [] & _ & H).
  apply bind_inv_ok in H as (w3' & [] & _ & H).
  apply bind_inv_ok in H as (w4 & r & _ & H).
  apply bind_inv_ok in H as (w5 & [] & _ & H).
  apply bind_inv_ok in H as (w6 & [] & _ & H).
  injection H as _ <-. simpl.
  unfold newConstruct in Hp. destruct (Construct.addChild _ _ _); [|done].
  by injection Hp as _ <-.
Qed.

Lemma addChildPool_fields self id options w w' child :
  IpamPoolBase_addChildPool self id options w = (w', Ok child) →
  locale child = optLocale options
  ∧ parentPool child = Some (path self)
  ∧ family (addressConfiguration child) = ipFamily self.
Proof.
  unfold IpamPoolBase_addChildPool. intros H.
  apply bind_inv_ok in H as (w1 & sc & _ & H).
  apply IpamPool_new_fields in H as (_ & Hl & Hp & _ & Ha).
  by rewrite Hl, Hp, Ha.
Qed.

(** C2, what the code does.  [validateChildLocale] compares the two locales
    when the pool's own locale is a token, not when it is concrete.  So
    (1) under a pool whose locale is concrete, every child locale passes and
    [addChildPool] goes on to the nesting check; (2) under a pool whose
    locale is a token, a concrete child locale is refused with the
    locale-mismatch error; (3) a child pool made from options without the
    key [locale] (or without options) has the locale of its parent;
    (4) a child pool made from options with an own key [locale] has the
    value of that key, also when the value is [undefined]. *)
Theorem locale_check_runs_for_token_parent self id options :
  (Token.isUnresolved (default "" (locale self)) = false →
     validateChildLocale self (options ≫= optLocale) = true
     ∧ IpamPool_addChildPool self id options
       = if validateNestingSupport self then throw NestingUnsupported
         else IpamPoolBase_addChildPool self id (withInheritedLocale self options))
  ∧ (∀ pl l w,
       locale self = Some pl → Token.isUnresolved pl = true →
       options ≫= optLocale = Some l → Token.isUnresolved l = false →
       IpamPool_addChildPool self id options w = (w, Err LocaleMismatch))
  ∧ (∀ w w' child,
       omitsLocale options →
       IpamPool_addChildPool self id options w = (w', Ok child) →
       locale child = locale self)
  ∧ (∀ w w' child o value,
       options = Some o → optLocaleKey o = Js.Own value →
       IpamPool_addChildPool self id options w = (w', Ok child) →
       locale child = value).
Proof.
  split_and!.
  - intros H. split; [by apply validateChildLocale_concrete_parent|].
    unfold IpamPool_addChildPool.
    by rewrite validateChildLocale_concrete_parent.
  - intros pl l w Hpl Htok Hopt Hl. unfold IpamPool_addChildPool.
    rewrite Hopt, (validateChildLocale_token_parent self pl l) by done.
    done.
  - intros w w' child Hopt. unfold IpamPool_addChildPool.
    destruct (negb _); [done|].
    destruct (validateNestingSupport self); [done|].
    intros (Hl & _)%addChildPool_fields. rewrite Hl.
    destruct options as [o|]; simpl in *; [|done].
    unfold optLocale. simpl. by rewrite Hopt.
  - intros w w' child o value -> Hkey. unfold IpamPool_addChildPool.
    destruct (negb _); [done|].
    destruct (validateNestingSupport self); [done|].
    intros (Hl & _)%addChildPool_fields. rewrite Hl.
    unfold optLocale. simpl. by rewrite Hkey.
Qed.

(** C2, at the input of the specification: a pool in us-west-2 (one that
    passes the nesting check as the code has it) accepts a child pool in
    us-east-1; a pool whose locale is a token refuses it; a child made
    without options is in us-west-2, and a child made with the options
    [{ locale: undefined }] has no locale. *)
Lemma locale_check_runs_for_token_parent_witness :
  let parent := poolProps (Some "us-west-2") (Some "ec2") (Some BYOIP) None in
  Token.isUnresolved "us-west-2" = false
  ∧ validateChildLocale (poolOf parent) (Some "us-east-1") = true
  ∧ locale <$> snd (withPool parent (fun pool =>
        IpamPool_addChildPool pool "child" (Some (childIn (Some "us-east-1")))))
    = Ok (Some "us-east-1")
  ∧ snd (withPool (poolProps (Some (tokenOf "Region")) (Some "ec2") (Some BYOIP) None)
           (fun pool =>
              IpamPool_addChildPool pool "child" (Some (childIn (Some "us-east-1")))))
    = Err LocaleMismatch
  ∧ locale <$> snd (withPool parent (fun pool => IpamPool_addChildPool pool "child" None))
    = Ok (Some "us-west-2")
  ∧ locale <$> snd (withPool parent (fun pool =>
        IpamPool_addChildPool pool "child" (Some undefinedLocale)))
    = Ok None.
Proof.
  intros parent. split; [reflexivity|]. split.
  - refine (proj1 (proj1 (locale_check_runs_for_token_parent (poolOf parent) "child"
                            (Some (childIn (Some "us-east-1")))) _)).
    reflexivity.
  - split_and!; vm_compute; reflexivity.
Defined.

End ChildPools.

Section Nesting.
Import Ipam Props Examples.

Lemma validateNestingSupport_false self :
  validateNestingSupport self = false ↔ advertisedByoip self.
Proof.
  unfold validateNestingSupport, advertisedByoip.
  rewrite negb_false_iff, andb_true_iff, bool_decide_eq_true. done.
Qed.

(** C3, what the code does.  [validateNestingSupport] answers whether
    nesting is supported, and [addChildPool] throws when the answer is yes:
    past the locale check, a pool with an advertising service and BYOIP
    addresses goes on to create the child pool, and every other pool fails
    with the nesting-unsupported error. *)
Theorem nesting_check_is_negated self id options :
  validateChildLocale self (options ≫= optLocale) = true →
  (advertisedByoip self →
     IpamPool_addChildPool self id options
     = IpamPoolBase_addChildPool self id (withInheritedLocale self options))
  ∧ (¬ advertisedByoip self →
     ∀ w, IpamPool_addChildPool self id options w = (w, Err NestingUnsupported)).
Proof.
  intros Hloc. unfold IpamPool_addChildPool. rewrite Hloc. simpl. split.
  - intros H%validateNestingSupport_false. by rewrite H.
  - intros H. destruct (validateNestingSupport self) eqn:Hv; [done|].
    by apply validateNestingSupport_false in Hv.
Qed.

(** C3, at the input of the specification and at its opposite: the pool
    with the advertising service ec2 and BYOIP addresses gets its child
    pool, the pool with neither is refused. *)
Lemma nesting_check_is_negated_witness :
  isOk (snd (withPool (poolProps None (Some "ec2") (Some BYOIP) None)
               (fun pool => IpamPool_addChildPool pool "child" None))) = true
  ∧ IpamPool_addChildPool (poolOf (poolProps None None None None)) "child" None emptyWorld
    = (emptyWorld, Err NestingUnsupported).
Proof.
  split; [vm_compute; reflexivity|].
  refine (proj2 (nesting_check_is_negated (poolOf (poolProps None None None None))
                   "child" None _) _ emptyWorld).
  - reflexivity.
  - intros [H _]. discriminate H.
Defined.

End Nesting.

(** ** IPAM pools: registering and allocating CIDRs *)

Section PoolCidrs.
Import Ipam Props Examples.

(** The registration of [IpamPoolBase]: a new [IpamPoolCidr] under the pool
    when the name is free there, the duplicate-name error otherwise. *)
Lemma IpamPoolBase_addCidrToPool_fresh self id options w :
  Construct.sanitizeId (String.append "cidr-" id)
    ∉ Construct.childrenOf (tree w) (path self) →
  let r := IpamPoolBase_addCidrToPool self id options w in
  snd r
  = Ok {| cidr := Some {| cidrPath := Construct.childPath (path self)
                                       (String.append "cidr-" id);
                          cidrIpamPool := path self;
                          cidrConfiguration := configuration options |};
          inlineResult := false |}
  ∧ Construct.childrenOf (tree (fst r)) (path self)
    = Construct.childrenOf (tree w) (path self)
      ++ [Construct.sanitizeId (String.append "cidr-" id)].
Proof.
  intros (w' & Hw & Hch & _)%newConstruct_fresh; [|by apply append_nonempty].
  unfold IpamPoolBase_addCidrToPool, IpamPoolCidr_new.
  unfold mbind, M_bind. by rewrite Hw.
Qed.

Lemma IpamPoolBase_addCidrToPool_taken self id options w :
  Construct.sanitizeId (String.append "cidr-" id)
    ∈ Construct.childrenOf (tree w) (path self) →
  IpamPoolBase_addCidrToPool self id options w
  = (w, Err (DuplicateConstructName (Construct.sanitizeId (String.append "cidr-" id)))).
Proof.
  intros Hin. unfold IpamPoolBase_addCidrToPool, IpamPoolCidr_new, mbind, M_bind.
  by rewrite newConstruct_taken by (done || by apply append_nonempty).
Qed.

Lemma IpamPoolBase_addCidrToPool_frame self id options w :
  let r := IpamPoolBase_addCidrToPool self id options w in
  warnings (fst r) = warnings w
  ∧ tags (fst r) = tags w
  ∧ provisionedCidrs (fst r) = provisionedCidrs w
  ∧ tagRestrictions (fst r) = tagRestrictions w.
Proof.
  unfold IpamPoolBase_addCidrToPool, IpamPoolCidr_new, mbind, M_bind.
  pose proof (newConstruct_frame (path self) (String.append "cidr-" id) w) as H.
  by destruct (newConstruct _ _ _) as [w' [c|e]].
Qed.

(** C7.  An inline registration whose configuration binds to no CIDR is
    the non-inline registration of [IpamPoolBase], run after the fallback
    warning is attached to the pool (the pool carries the message once: a
    message it already carries is not attached again).  The missing literal
    raises no error and the arrays of provisioned CIDRs are as before.  When
    the name of the new construct, [cidr-] and the id, is free in the pool,
    the call creates the [IpamPoolCidr] as the last child of the pool and
    reports [inline: false] with it; when the name is taken, the call fails
    with the duplicate-name error of the construct tree, as every [new]
    does, and the tree is as before. *)
Theorem inline_without_literal_falls_back self id options w :
  default true (allowInline options) = true →
  inline (configuration options) = true →
  truthyCidr (resolvedCidr (bind (configuration options) (path self))) = None →
  let child := Construct.sanitizeId (String.append "cidr-" id) in
  let warned := fst (addWarning (path self) inlineFallbackWarning w) in
  let r := IpamPool_addCidrToPool self id options w in
  r = IpamPoolBase_addCidrToPool self id options warned
  ∧ warnings (fst r)
    = (if decide ((path self, inlineFallbackWarning) ∈ warnings w) then warnings w
       else warnings w ++ [(path self, inlineFallbackWarning)])
  ∧ provisionedCidrs (fst r) = provisionedCidrs w
  ∧ (child ∉ Construct.childrenOf (tree w) (path self) →
       snd r = Ok {| cidr := Some {| cidrPath := Construct.childPath (path self)
                                                  (String.append "cidr-" id);
                                     cidrIpamPool := path self;
                                     cidrConfiguration := configuration options |};
                     inlineResult := false |}
       ∧ Construct.childrenOf (tree (fst r)) (path self)
         = Construct.childrenOf (tree w) (path self) ++ [child])
  ∧ (child ∈ Construct.childrenOf (tree w) (path self) →
       snd r = Err (DuplicateConstructName child) ∧ tree (fst r) = tree w).
Proof.
  intros Hallow Hinline Hcidr child warned r.
  assert (r = IpamPoolBase_addCidrToPool self id options warned) as Hr.
  { unfold r, IpamPool_addCidrToPool. rewrite Hallow, Hinline, Hcidr. simpl.
    unfold mbind, M_bind, warned.
    by destruct (addWarning (path self) inlineFallbackWarning w) as [w' [[]|e]] eqn:Hw;
      [|by pose proof (proj1 (addWarning_spec (path self) inlineFallbackWarning w));
         rewrite Hw in *]. }
  destruct (addWarning_spec (path self) inlineFallbackWarning w)
    as (_ & Hwarn & Htree & _ & Hprov & _).
  destruct (IpamPoolBase_addCidrToPool_frame self id options warned) as (Hw & _ & Hp & _).
  rewrite Hr. split_and!.
  - done.
  - by rewrite Hw.
  - by rewrite Hp.
  - intros Hfresh. fold warned in Htree. rewrite <- Htree in Hfresh |- *.
    by apply IpamPoolBase_addCidrToPool_fresh.
  - intros Hin. fold warned in Htree. rewrite <- Htree in Hin |- *.
    by rewrite IpamPoolBase_addCidrToPool_taken.
Qed.

(** C7 at a new pool without CIDRs: the first fallback attaches the warning
    and creates [cidr-extra] after the pool's resource; a second fallback,
    under another id, creates [cidr-more] and leaves the one warning. *)
Lemma inline_without_literal_falls_back_witness :
  let props := poolProps None None None None in
  let self := poolOf props in
  let options := {| allowInline := Some true; configuration := noLiteral |} in
  let w := fst (withPool props mret) in
  let r := IpamPool_addCidrToPool self "extra" options w in
  let r' := IpamPool_addCidrToPool self "more" options (fst r) in
  inlineResult <$> snd r = Ok false
  ∧ warnings (fst r) = [("stack/pool", inlineFallbackWarning)]
  ∧ provisionedOf (fst r) "stack/pool" = []
  ∧ Construct.childrenOf (tree (fst r)) "stack/pool" = ["Resource"; "cidr-extra"]
  ∧ inlineResult <$> snd r' = Ok false
  ∧ warnings (fst r') = [("stack/pool", inlineFallbackWarning)]
  ∧ Construct.childrenOf (tree (fst r')) "stack/pool"
    = ["Resource"; "cidr-extra"; "cidr-more"].
Proof.
  intros props self options w r r'.
  destruct (inline_without_literal_falls_back self "extra" options w)
    as (_ & Hw & Hp & Hok & _); [reflexivity..|].
  destruct Hok as [Hok Hch]; [by_compute|].
  destruct (inline_without_literal_falls_back self "more" options (fst r))
    as (_ & Hw' & _ & Hok' & _); [reflexivity..|].
  destruct Hok' as [Hok' Hch']; [by_compute|].
  fold r in Hok, Hch, Hw, Hp. fold r' in Hok', Hch', Hw'.
  split_and!.
  - by rewrite Hok.
  - refine (eq_trans Hw _). reflexivity.
  - unfold provisionedOf. rewrite Hp. reflexivity.
  - refine (eq_trans Hch _). reflexivity.
  - by rewrite Hok'.
  - refine (eq_trans Hw' _). rewrite Hw. reflexivity.
  - refine (eq_trans Hch' _). rewrite Hch. reflexivity.
Defined.

(** C10.  [allocateCidrFromPool] changes nothing of the pool: the arrays of
    provisioned CIDRs and the tag restrictions (of every pool), the warnings
    and the tags are as before.  When the name of the new construct,
    [allocation-] and the id, is free in the scope (the pool itself unless
    [options.scope] is given), the call returns a new allocation under that
    scope, against this pool and with the requested netmask; when the name
    is taken there, the call throws and the world is as before. *)
Theorem allocateCidrFromPool_frame self id options w :
  let scope := default (path self) (allocScope options) in
  let child := Construct.sanitizeId (String.append "allocation-" id) in
  let r := IpamPoolBase_allocateCidrFromPool self id options w in
  provisionedCidrs (fst r) = provisionedCidrs w
  ∧ tagRestrictions (fst r) = tagRestrictions w
  ∧ warnings (fst r) = warnings w
  ∧ tags (fst r) = tags w
  ∧ (child ∉ Construct.childrenOf (tree w) scope →
       snd r = Ok {| allocationPath := Construct.childPath scope
                                         (String.append "allocation-" id);
                     allocationIpamPool := path self;
                     allocationNetmask := allocNetmask options;
                     allocationDescription := allocDescription options |}
       ∧ Construct.childrenOf (tree (fst r)) scope
         = Construct.childrenOf (tree w) scope ++ [child])
  ∧ (child ∈ Construct.childrenOf (tree w) scope →
       r = (w, Err (DuplicateConstructName child))).
Proof.
  intros scope child r.
  unfold r, IpamPoolBase_allocateCidrFromPool, IpamAllocation_new.
  fold scope. unfold mbind, M_bind.
  destruct (newConstruct_frame scope (String.append "allocation-" id) w)
    as (Hw & Ht & Hp & Hr).
  split_and!.
  - destruct (newConstruct _ _ _) as [w' [p|e]]; done.
  - destruct (newConstruct _ _ _) as [w' [p|e]]; done.
  - destruct (newConstruct _ _ _) as [w' [p|e]]; done.
  - destruct (newConstruct _ _ _) as [w' [p|e]]; done.
  - intros (w' & Hnew & Hch & _)%newConstruct_fresh; [|by apply append_nonempty].
    by rewrite Hnew.
  - intros Hin. by rewrite newConstruct_taken by (done || by apply append_nonempty).
Qed.

(** C10 at a pool that holds 10.0.0.0/8, with an id that has a path
    separator: the allocation is named [allocation-vpc--a]. *)
Lemma allocateCidrFromPool_frame_witness :
  let self := poolOf (poolProps None None None (Some ["10.0.0.0/8"])) in
  let options := {| allocScope := None; allocNetmask := Some 24;
                    allocDescription := None |} in
  let w := fst (withPool (poolProps None None None (Some ["10.0.0.0/8"])) mret) in
  let r := IpamPoolBase_allocateCidrFromPool self "vpc/a" options w in
  provisionedOf (fst r) "stack/pool" = ["10.0.0.0/8"]
  ∧ snd r = Ok {| allocationPath := "stack/pool/allocation-vpc--a";
                  allocationIpamPool := "stack/pool";
                  allocationNetmask := Some 24;
                  allocationDescription := None |}
  ∧ Construct.childrenOf (tree (fst r)) "stack/pool" = ["Resource"; "allocation-vpc--a"].
Proof.
  intros self options w r.
  destruct (allocateCidrFromPool_frame self "vpc/a" options w)
    as (Hp & _ & _ & _ & Hok & _).
  destruct Hok as [Hok Hch]; [by_compute|].
  fold r in Hp, Hok, Hch. unfold provisionedOf. rewrite Hp, Hok.
  split_and!; [vm_compute; reflexivity|vm_compute; reflexivity|].
  simpl in Hch. rewrite Hch. vm_compute. reflexivity.
Defined.

End PoolCidrs.

(** ** IPAM pools: no CIDR is provisioned twice *)

Section NoDuplicates.
Import Ipam Props Examples.

Lemma noDuplicateCidrs_frame w w' :
  provisionedCidrs w' = provisionedCidrs w →
  noDuplicateCidrs w → noDuplicateCidrs w'.
Proof. unfold noDuplicateCidrs. by intros ->. Qed.

Lemma preserves_newConstruct scope id :
  preserves noDuplicateCidrs (newConstruct scope id).
Proof.
  intros w. apply noDuplicateCidrs_frame.
  by destruct (newConstruct_frame scope id w) as (_ & _ & ? & _).
Qed.

Lemma preserves_addWarning p msg : preserves noDuplicateCidrs (addWarning p msg).
Proof.
  intros w. apply noDuplicateCidrs_frame.
  by destruct (addWarning_spec p msg w) as (_ & _ & _ & _ & ? & _).
Qed.

Lemma preserves_addTag p k v : preserves noDuplicateCidrs (addTag p k v).
Proof. intros w. by apply noDuplicateCidrs_frame. Qed.

Lemma preserves_setTagRestrictions p r :
  preserves noDuplicateCidrs (setTagRestrictions p r).
Proof. intros w. by apply noDuplicateCidrs_frame. Qed.

Lemma preserves_setProvisionedCidrs p cidrs :
  NoDup cidrs → preserves noDuplicateCidrs (setProvisionedCidrs p cidrs).
Proof.
  intros Hnd w Hw q l. simpl. rewrite lookup_insert.
  case_decide; [by intros [= <-]|]. apply Hw.
Qed.

Lemma noDuplicateCidrs_provisionedOf w p :
  noDuplicateCidrs w → NoDup (provisionedOf w p).
Proof.
  intros Hw. unfold provisionedOf.
  destruct (provisionedCidrs w !! p) as [l|] eqn:Hl; simpl.
  - by eapply Hw.
  - apply NoDup_nil_2.
Qed.

Lemma preserves_base_addCidrToPool self id options :
  preserves noDuplicateCidrs (IpamPoolBase_addCidrToPool self id options).
Proof.
  unfold IpamPoolBase_addCidrToPool, IpamPoolCidr_new.
  apply preserves_bind; [|intros; apply preserves_ret].
  apply preserves_bind; [apply preserves_newConstruct|intros; apply preserves_ret].
Qed.

Lemma preserves_addCidrToPool self id options :
  preserves noDuplicateCidrs (IpamPool_addCidrToPool self id options).
Proof.
  unfold IpamPool_addCidrToPool.
  destruct (_ && _); [|apply preserves_base_addCidrToPool].
  destruct (truthyCidr _) as [c|].
  - intros w Hw. unfold mbind, M_bind, getWorld.
    destruct (decide _) as [|Hnew]; [done|].
    cbn -[setProvisionedCidrs]. apply preserves_setProvisionedCidrs; [|done].
    apply NoDup_app. split_and!.
    + by apply noDuplicateCidrs_provisionedOf.
    + by intros x Hx ->%list_elem_of_singleton.
    + apply NoDup_singleton.
  - apply preserves_bind; [apply preserves_addWarning|].
    intros _. apply preserves_base_addCidrToPool.
Qed.

Lemma preserves_IpamPool_new scope id props :
  preserves noDuplicateCidrs (IpamPool_new scope id props).
Proof.
  unfold IpamPool_new.
  apply preserves_bind; [apply preserves_newConstruct|]. intros p.
  apply preserves_bind; [apply preserves_setTagRestrictions|]. intros _.
  apply preserves_bind; [apply preserves_setProvisionedCidrs, NoDup_nil_2|]. intros _.
  apply preserves_bind; [by intros w; apply noDuplicateCidrs_frame|]. intros _.
  apply preserves_bind; [apply preserves_newConstruct|]. intros _.
  apply preserves_bind.
  { destruct (Js.truthyOptStr _); [apply preserves_addTag|apply preserves_ret]. }
  intros _. apply preserves_bind; [|intros; apply preserves_ret].
  apply preserves_forEachM. intros x idx.
  apply preserves_bind; [apply preserves_addCidrToPool|intros; apply preserves_ret].
Qed.

Lemma preserves_addChildPool self id options :
  preserves noDuplicateCidrs (IpamPool_addChildPool self id options).
Proof.
  unfold IpamPool_addChildPool.
  destruct (negb _); [apply preserves_throw|].
  destruct (validateNestingSupport self); [apply preserves_throw|].
  unfold IpamPoolBase_addChildPool.
  apply preserves_bind; [|intros; apply preserves_IpamPool_new].
  unfold IpamScope_fromIpamScopeAttributes.
  apply preserves_bind; [apply preserves_newConstruct|intros; apply preserves_ret].
Qed.

Lemma preserves_allocateCidrFromPool self id options :
  preserves noDuplicateCidrs (IpamPoolBase_allocateCidrFromPool self id options).
Proof.
  unfold IpamPoolBase_allocateCidrFromPool, IpamAllocation_new.
  apply preserves_bind; [apply preserves_newConstruct|intros; apply preserves_ret].
Qed.

Lemma preserves_addTagRestriction self key value :
  preserves noDuplicateCidrs (IpamPool_addTagRestriction self key value).
Proof.
  intros w Hw. unfold IpamPool_addTagRestriction, mbind, M_bind, getWorld.
  destruct (_ || _); [done|]. done.
Qed.

Lemma addCidrToPool_duplicate self id options c w :
  default true (allowInline options) = true →
  inline (configuration options) = true →
  truthyCidr (resolvedCidr (bind (configuration options) (path self))) = Some c →
  c ∈ provisionedOf w (path self) →
  IpamPool_addCidrToPool self id options w = (w, Err (DuplicateCidr c)).
Proof.
  intros Hallow Hinline Hcidr Hin. unfold IpamPool_addCidrToPool.
  rewrite Hallow, Hinline, Hcidr. simpl.
  unfold mbind, M_bind, getWorld. by destruct (decide _).
Qed.

Lemma addCidrToPool_new_literal self id options c w :
  default true (allowInline options) = true →
  inline (configuration options) = true →
  truthyCidr (resolvedCidr (bind (configuration options) (path self))) = Some c →
  c ∉ provisionedOf w (path self) →
  snd (IpamPool_addCidrToPool self id options w)
    = Ok {| cidr := None; inlineResult := true |}
  ∧ provisionedOf (fst (IpamPool_addCidrToPool self id options w)) (path self)
    = provisionedOf w (path self) ++ [c].
Proof.
  intros Hallow Hinline Hcidr Hin. unfold IpamPool_addCidrToPool.
  rewrite Hallow, Hinline, Hcidr. simpl.
  unfold mbind, M_bind, getWorld. destruct (decide _); [done|].
  split; [done|]. unfold provisionedOf at 1. simpl.
  by rewrite lookup_insert_eq.
Qed.

(** C4.  No array of provisioned CIDRs holds a literal twice.  An inline
    registration of a literal the pool already holds throws the
    duplicate-CIDR error and leaves the world, so also the array, as it was;
    a new literal is appended; and every operation of a pool, and the
    constructor, keeps all arrays free of duplicates, whether it returns or
    throws. *)
Theorem provisioned_cidrs_hold_no_duplicate self :
  (∀ id options c w,
     default true (allowInline options) = true →
     inline (configuration options) = true →
     truthyCidr (resolvedCidr (bind (configuration options) (path self))) = Some c →
     (c ∈ provisionedOf w (path self) →
        IpamPool_addCidrToPool self id options w = (w, Err (DuplicateCidr c)))
     ∧ (c ∉ provisionedOf w (path self) →
        snd (IpamPool_addCidrToPool self id options w)
          = Ok {| cidr := None; inlineResult := true |}
        ∧ provisionedOf (fst (IpamPool_addCidrToPool self id options w)) (path self)
          = provisionedOf w (path self) ++ [c]))
  ∧ noDuplicateCidrs emptyWorld
  ∧ (∀ scope id props, preserves noDuplicateCidrs (IpamPool_new scope id props))
  ∧ (∀ id options, preserves noDuplicateCidrs (IpamPool_addCidrToPool self id options))
  ∧ (∀ id options, preserves noDuplicateCidrs (IpamPool_addChildPool self id options))
  ∧ (∀ id options,
       preserves noDuplicateCidrs (IpamPoolBase_allocateCidrFromPool self id options))
  ∧ (∀ key value,
       preserves noDuplicateCidrs (IpamPool_addTagRestriction self key value)).
Proof.
  split_and!.
  - intros id options c w Hallow Hinline Hcidr. split; intros Hc.
    + by apply addCidrToPool_duplicate.
    + by apply addCidrToPool_new_literal.
  - intros p l. unfold emptyWorld. simpl. by rewrite lookup_empty.
  - apply preserves_IpamPool_new.
  - apply preserves_addCidrToPool.
  - apply preserves_addChildPool.
  - apply preserves_allocateCidrFromPool.
  - apply preserves_addTagRestriction.
Qed.

(** The second inline registration of 10.0.0.0/8 in one pool. *)
Lemma provisioned_cidrs_hold_no_duplicate_witness :
  let props := poolProps None None None (Some ["10.0.0.0/8"]) in
  let w := fst (withPool props mret) in
  provisionedOf w "stack/pool" = ["10.0.0.0/8"]
  ∧ IpamPool_addCidrToPool (poolOf props) "again" (inlineCidr "10.0.0.0/8") w
    = (w, Err (DuplicateCidr "10.0.0.0/8"))
  ∧ noDuplicateCidrs w.
Proof.
  intros props w. split; [vm_compute; reflexivity|].
  destruct (provisioned_cidrs_hold_no_duplicate (poolOf props))
    as (Hadd & Hempty & Hnew & _).
  split.
  - refine (proj1 (Hadd "again" (inlineCidr "10.0.0.0/8") "10.0.0.0/8" w _ _ _) _);
      [reflexivity..|].
    by_compute.
  - unfold w, withPool. apply preserves_bind; [apply Hnew| |exact Hempty].
    intros a. apply preserves_ret.
Defined.

End NoDuplicates.

(** ** The IPAM: scopes and resource discoveries *)

Section IpamContainer.
Import Ipam Props Examples.

(** C8, as amended.  [addScope] makes no quota check.  Whatever the number
    of scopes the IPAM holds, and whatever its [ipamScopeCount], the call
    creates the scope under the IPAM when the name of the new construct,
    [scope-] and the id, is free there, and otherwise fails with the
    duplicate-name error of the construct tree; no call fails with a
    scope-quota error. *)
Theorem addScope_checks_no_quota self id options w :
  let child := Construct.sanitizeId (String.append "scope-" id) in
  (child ∉ Construct.childrenOf (tree w) (ipamPath self) →
     ∃ w', IpamBase_addScope self id options w
           = (w', Ok {| privateScopePath := Construct.childPath (ipamPath self)
                                              (String.append "scope-" id);
                        privateScopeIpam := ipamPath self;
                        privateScopeDescription := scopeDescription options |})
           ∧ Construct.childrenOf (tree w') (ipamPath self)
             = Construct.childrenOf (tree w) (ipamPath self) ++ [child])
  ∧ (child ∈ Construct.childrenOf (tree w) (ipamPath self) →
     IpamBase_addScope self id options w = (w, Err (DuplicateConstructName child)))
  ∧ snd (IpamBase_addScope self id options w) ≠ Err ScopeQuotaExceeded.
Proof.
  intros child.
  unfold IpamBase_addScope, PrivateIpamScope_new, mbind, M_bind.
  assert (String.append "scope-" id ≠ EmptyString) as Hid by (by apply append_nonempty).
  split_and!.
  - intros (w' & Hnew & Hch & _)%newConstruct_fresh; [|done].
    exists w'. by rewrite Hnew.
  - intros Hin. by rewrite newConstruct_taken.
  - destruct (decide (child ∈ Construct.childrenOf (tree w) (ipamPath self)))
      as [Hin|Hnin].
    + by rewrite newConstruct_taken.
    + apply newConstruct_fresh in Hnin as (w' & Hnew & _); [|done]. by rewrite Hnew.
Qed.

(** C8 at an IPAM that holds five scopes: a sixth scope is created; and a
    scope whose id has a path separator takes the name with [--], so that a
    later scope of that very name is refused. *)
Lemma addScope_checks_no_quota_witness :
  Construct.childrenOf (tree fiveScopes) (ipamPath theIpam)
    = ["scope-a"; "scope-b"; "scope-c"; "scope-d"; "scope-e"]
  ∧ (∃ w', IpamBase_addScope theIpam "f/g" noDescription fiveScopes
           = (w', Ok {| privateScopePath := "stack/ipam/scope-f--g";
                        privateScopeIpam := "stack/ipam";
                        privateScopeDescription := None |})
           ∧ Construct.childrenOf (tree w') (ipamPath theIpam)
             = ["scope-a"; "scope-b"; "scope-c"; "scope-d"; "scope-e"; "scope-f--g"]
           ∧ IpamBase_addScope theIpam "f--g" noDescription w'
             = (w', Err (DuplicateConstructName "scope-f--g"))).
Proof.
  split; [vm_compute; reflexivity|].
  destruct (proj1 (addScope_checks_no_quota theIpam "f/g" noDescription fiveScopes))
    as (w' & Hw' & Hch); [by_compute|].
  exists w'. split_and!.
  - exact Hw'.
  - refine (eq_trans Hch _). vm_compute. reflexivity.
  - refine (proj1 (proj2 (addScope_checks_no_quota theIpam "f--g" noDescription w')) _).
    cbv zeta. rewrite Hch. apply elem_of_app. right. left.
Defined.

(** C8 as stated fails: an IPAM that holds five scopes gets a sixth. *)
Lemma sixth_scope_is_created :
  Construct.childrenOf (tree fiveScopes) (ipamPath theIpam)
    = ["scope-a"; "scope-b"; "scope-c"; "scope-d"; "scope-e"]
  ∧ ipamScopeCount theIpam = 5
  ∧ snd (IpamBase_addScope theIpam "f" noDescription fiveScopes)
    = Ok {| privateScopePath := "stack/ipam/scope-f";
            privateScopeIpam := "stack/ipam";
            privateScopeDescription := None |}
  ∧ length (Construct.childrenOf
              (tree (fst (IpamBase_addScope theIpam "f" noDescription fiveScopes)))
              (ipamPath theIpam)) = 6%nat.
Proof. vm_compute. repeat split; reflexivity. Qed.

Lemma filter_eq_fresh (l : list string) (x : string) :
  x ∉ l → filter (fun c => c = x) (l ++ [x]) = [x].
Proof.
  induction l as [|y l IH]; intros Hx; simpl.
  - by rewrite filter_cons_True.
  - apply not_elem_of_cons in Hx as [Hne Hx].
    rewrite filter_cons_False by congruence. by apply IH.
Qed.

(** The id of an association names it: the address of a resource discovery
    has no path separator. *)
Lemma associationName rd :
  Construct.sanitizeId (String.append "resource-discovery-" (addr rd))
  = String.append "resource-discovery-" (addr rd).
Proof. rewrite sanitizeId_prefixed by done. by rewrite sanitizeId_hex by apply addrIsHex. Qed.

Lemma associateResourceDiscovery_ok self rd w w1 a :
  IpamBase_associateResourceDiscovery self rd w = (w1, Ok a) →
  (String.append "resource-discovery-" (addr rd)
     ∉ Construct.childrenOf (tree w) (ipamPath self))
  ∧ Construct.childrenOf (tree w1) (ipamPath self)
    = Construct.childrenOf (tree w) (ipamPath self)
      ++ [String.append "resource-discovery-" (addr rd)].
Proof.
  intros H. set (child := String.append "resource-discovery-" (addr rd)).
  unfold IpamBase_associateResourceDiscovery, IpamResourceDiscoveryAssociation_new in H.
  fold child in H.
  apply bind_inv_ok in H as (w2 & p & Hp & H).
  apply bind_inv_ok in H as (w3 & p' & Hp' & H).
  injection H as <- _.
  assert (child ≠ EmptyString) as Hid by (by apply append_nonempty).
  pose proof (associationName rd) as Hname. fold child in Hname.
  destruct (decide (child ∈ Construct.childrenOf (tree w) (ipamPath self)))
    as [Hin|Hnin].
  { rewrite newConstruct_taken in Hp by (done || by rewrite Hname). done. }
  split; [done|].
  rewrite <- Hname in Hnin.
  apply newConstruct_fresh in Hnin as (w2' & Hnew & Hch & Hempty & _); [|done].
  rewrite Hname in Hch.
  rewrite Hnew in Hp. injection Hp as -> <-.
  assert (Construct.sanitizeId "Resource" ∉ Construct.childrenOf (tree w2)
            (Construct.childPath (ipamPath self) child)) as Hres.
  { rewrite Hempty. apply not_elem_of_nil. }
  apply newConstruct_fresh in Hres as (w3' & Hnew' & _ & _ & Hother & _); [|done].
  rewrite Hnew' in Hp'. injection Hp' as -> _.
  rewrite Hother; [done| |].
  - symmetry. by apply childPath_ne.
  - symmetry. by apply grandchildPath_ne.
Qed.

(** C9, as amended.  The id of the association is derived from the address
    of the resource discovery, so once a discovery is associated, a second
    call with the same discovery (or with any of the same address) is
    refused by the construct tree with the duplicate-name error and changes
    nothing; the IPAM holds exactly one association of that name. *)
Theorem associateResourceDiscovery_twice self rd rd' w w1 a :
  addr rd' = addr rd →
  IpamBase_associateResourceDiscovery self rd w = (w1, Ok a) →
  IpamBase_associateResourceDiscovery self rd' w1
    = (w1, Err (DuplicateConstructName
                  (String.append "resource-discovery-" (addr rd))))
  ∧ filter (fun c => c = String.append "resource-discovery-" (addr rd))
      (Construct.childrenOf (tree w1) (ipamPath self))
    = [String.append "resource-discovery-" (addr rd)].
Proof.
  intros Haddr (Hfresh & Hch)%associateResourceDiscovery_ok.
  set (child := String.append "resource-discovery-" (addr rd)) in *. split.
  - unfold IpamBase_associateResourceDiscovery, IpamResourceDiscoveryAssociation_new.
    rewrite Haddr. fold child. unfold mbind at 1, M_bind at 1.
    pose proof (associationName rd) as Hname. fold child in Hname.
    rewrite newConstruct_taken; [by rewrite Hname|by apply append_nonempty|].
    rewrite Hname, Hch. apply elem_of_app. right. left.
  - rewrite Hch. by apply filter_eq_fresh.
Qed.

Lemma associateResourceDiscovery_twice_witness :
  let first := IpamBase_associateResourceDiscovery theIpam discovery emptyWorld in
  isOk (snd first) = true
  ∧ snd (IpamBase_associateResourceDiscovery theIpam discovery (fst first))
    = Err (DuplicateConstructName
             "resource-discovery-c8a1f0e6b7d24c0f9a3e5b1d7c2f4a6e8b0d9c1e2f").
Proof.
  intros first. split; [vm_compute; reflexivity|].
  destruct (snd first) as [a|e] eqn:Ha; [|by vm_compute in Ha].
  destruct (associateResourceDiscovery_twice theIpam discovery discovery
              emptyWorld (fst first) a eq_refl) as [H _].
  - fold first. rewrite <- Ha. by destruct first.
  - by rewrite H.
Defined.

(** C9 as stated fails: the second association of one discovery is not a
    silent no-op, it throws. *)
Lemma second_association_throws :
  let first := IpamBase_associateResourceDiscovery theIpam discovery emptyWorld in
  isOk (snd first) = true
  ∧ isOk (snd (IpamBase_associateResourceDiscovery theIpam discovery (fst first)))
    = false.
Proof. vm_compute. split; reflexivity. Qed.

End IpamContainer.

(** * Further properties *)

(** ** Tiered subnets: every subnet has a tier and a zone in the lists *)

Section TieredIndices.
Import TieredSubnets Networking Props Examples.

Lemma tier_index input x :
  x ∈ requestedSubnets input →
  ∃ tIdx, tiersOf input !! tIdx = Some (name (configuration x)).
Proof.
  intros Hx. apply list_elem_of_lookup. unfold tiersOf.
  apply elem_of_arrayFromSet, list_elem_of_fmap. by exists x.
Qed.

Lemma az_index input x :
  x ∈ requestedSubnets input →
  ∃ azIdx, azsOf input !! azIdx = Some (availabilityZone x).
Proof.
  intros Hx. apply list_elem_of_lookup. unfold azsOf.
  apply elem_of_arrayFromSet, list_elem_of_fmap. by exists x.
Qed.

Lemma tier_has_subnets input tier :
  tier ∈ tiersOf input → tierSubnetsOf input tier ≠ [].
Proof.
  unfold tiersOf. intros (x & -> & Hx)%elem_of_arrayFromSet%list_elem_of_fmap.
  intros Hnil. assert (x ∈ tierSubnetsOf input (name (configuration x))) as Hin.
  { unfold tierSubnetsOf. by apply list_elem_of_filter. }
  rewrite Hnil in Hin. by apply elem_of_nil in Hin.
Qed.

(** The masks of a tier whose subnets all carry the mask [m]. *)
Lemma masksOf_uniform input tier m :
  tier ∈ tiersOf input →
  (∀ x, x ∈ tierSubnetsOf input tier → cidrMask (configuration x) = m) →
  masksOf (tierSubnetsOf input tier) = [m].
Proof.
  intros Hin Hall.
  destruct (tierSubnetsOf input tier) as [|x xs] eqn:Hxs;
    [by apply tier_has_subnets in Hin|].
  assert (∀ o, o ∈ masksOf (x :: xs) → o = m) as Hm.
  { intros o (y & -> & Hy)%elem_of_arrayFromSet%list_elem_of_fmap. auto. }
  assert (cidrMask (configuration x) ∈ masksOf (x :: xs)) as Hx.
  { apply elem_of_arrayFromSet. simpl. left. }
  pose proof (NoDup_all_eq_length (masksOf (x :: xs)) m (NoDup_arrayFromSet _) Hm)
    as Hlen.
  destruct (masksOf (x :: xs)) as [|o [|o' os]]; simpl in Hlen.
  - by apply elem_of_nil in Hx.
  - f_equal. apply Hm. left.
  - lia.
Qed.

End TieredIndices.

(** ** Tiered subnets: what an allocation returns *)

Section TieredReturns.
Import TieredSubnets Networking Props Examples.

(** The blocks of an allocation from a concrete CIDR that returns: one
    entry per requested subnet, in the order of the request.  The subnet of
    tier number [tIdx] in zone number [azIdx] (positions in the lists of the
    distinct tiers and zones of the request) gets block [azIdx] of the
    partition of tier block [tIdx] into as many blocks as the request has
    distinct zones; a subnet in the zone named [__proto__] gets
    [Object.prototype] instead, since [networkMap[tier]] is an object
    literal. *)
Theorem allocateSubnetsCidrNoIpam_shape self input out :
  allocateSubnetsCidrNoIpam self input = Ok out →
  ∃ tierNetworks,
    divideCidr (vpcCidr input) (length (tiersOf input)) (tierMask self) = Ok tierNetworks
    ∧ length out = length (requestedSubnets input)
    ∧ ∀ k x tIdx azIdx,
        requestedSubnets input !! k = Some x →
        tiersOf input !! tIdx = Some (name (configuration x)) →
        azsOf input !! azIdx = Some (availabilityZone x) →
        ∃ tierNetwork azNetworks azNetwork,
          tierNetworks !! tIdx = Some tierNetwork
          ∧ divideCidr tierNetwork (length (azsOf input))
              (firstMask (masksOf (tierSubnetsOf input (name (configuration x)))))
            = Ok azNetworks
          ∧ azNetworks !! azIdx = Some azNetwork
          ∧ out !! k = Some {| cidr := Some
              (if decide (availabilityZone x = "__proto__") then ObjectPrototype
               else azNetwork) |}.
Proof.
  unfold allocateSubnetsCidrNoIpam. intros H.
  destruct (divideCidr (vpcCidr input) _ _) as [tn|e]; simpl in H; [|done].
  exists tn. split; [done|].
  destruct (Js.forEach _ _ _) as [nm|e] eqn:Hloop; simpl in H; [|done].
  apply mapResult_lookup in H as [Hlen Hout]. split; [done|].
  intros k x tIdx azIdx Hx Ht Haz.
  destruct (Hout k x Hx) as (y & Hy & Hk).
  eapply (forEachFrom_stores _ _ (tiersOf input)) with (i := tIdx) in Hloop as (v & Hv & Hnm);
    [|intros; apply noIpamTierBody_stores|apply NoDup_arrayFromSet|exact Ht].
  simpl in Hv. destruct (decide _); [done|].
  destruct (tn !! tIdx) as [tierNetwork|] eqn:Htn; [|done].
  destruct (divideCidr tierNetwork _ _) as [azNetworks|e] eqn:Hdiv; simpl in Hv; [|done].
  injection Hv as <-.
  destruct (lookup_lt_is_Some_2 azNetworks azIdx) as [azNetwork Haznet].
  { rewrite (divideCidr_length _ _ _ _ Hdiv). by eapply lookup_lt_Some. }
  exists tierNetwork, azNetworks, azNetwork. split_and!; [done..|].
  unfold lookupSubnet in Hy. rewrite Hnm in Hy. injection Hy as <-.
  rewrite Hk. do 2 f_equal.
  rewrite (readAz_assignAzs _ _ azIdx (availabilityZone x))
    by (apply NoDup_arrayFromSet || done).
  by destruct (decide _).
Qed.

(** An allocation from a concrete CIDR, at the scenario of two tiers in two
    zones: the subnet (private, az2) is at tier position 1 and zone position
    1, and gets block 1 of the partition of tier block 1. *)
Lemma allocateSubnetsCidrNoIpam_shape_witness :
  ∃ tierNetworks,
    divideCidr vpc16 2 None = Ok tierNetworks
    ∧ ∃ tierNetwork azNetworks,
        tierNetworks !! 1%nat = Some tierNetwork
        ∧ divideCidr tierNetwork 2 None = Ok azNetworks
        ∧ azNetworks !! 1%nat = Some (ipv4 10 0 192 0 18).
Proof.
  destruct (allocateSubnetsCidrNoIpam_shape (fromCidr None) (twoByTwo vpc16)
              [ {| cidr := Some (ipv4 10 0 0 0 18) |};
                {| cidr := Some (ipv4 10 0 64 0 18) |};
                {| cidr := Some (ipv4 10 0 128 0 18) |};
                {| cidr := Some (ipv4 10 0 192 0 18) |} ])
    as (tn & Htn & _ & Hshape); [vm_compute; reflexivity|].
  exists tn. split; [exact Htn|].
  destruct (Hshape 3%nat (subnet "private" "az2" None) 1%nat 1%nat)
    as (tierNetwork & azNetworks & azNetwork & H1 & H2 & H3 & H4); [reflexivity..|].
  exists tierNetwork, azNetworks. split_and!; [exact H1|exact H2|].
  simpl in H4. injection H4 as <-. exact H3.
Defined.

(** The blocks of an allocation from an IPAM pool that returns, for
    masks in the range where JavaScript subtracts exactly.  Subnet number
    [k] of the request, whose tier is at position [tIdx] of the distinct
    tiers and whose zone is at position [azIdx] of the distinct zones, gets
    [Fn.select(azIdx, Fn.cidr(Fn.select(tIdx, Fn.cidr(vpcCidr, tiers, 32 - t)),
    n, 32 - s))], where [t] is the tier mask if given and [getBiggestMask] of
    the netmask and the number of tiers otherwise, [n] is the number of
    subnets requested for the tier, and [s] is the tier's cidrMask if given
    and [getBiggestMask] of [t] and [n] otherwise; a subnet in the zone
    named [__proto__] gets [Object.prototype] instead.  The number of tiers
    and the number of subnets of every tier are between 1 and 256. *)
Theorem allocateSubnetsCidrIpam_blocks self input out :
  safeMasks self input →
  allocateSubnetsCidrIpam self input = Ok out →
  ∃ n b,
    ipv4NetmaskLength (ipamOptions self) = Some n
    ∧ getBiggestMask n (length (tiersOf input)) = Ok b
    ∧ (1 ≤ length (tiersOf input) ≤ 256)%nat
    ∧ length out = length (requestedSubnets input)
    ∧ ∀ k x tIdx azIdx,
        requestedSubnets input !! k = Some x →
        tiersOf input !! tIdx = Some (name (configuration x)) →
        azsOf input !! azIdx = Some (availabilityZone x) →
        ∃ bs,
          getBiggestMask (default b (tierMask self))
            (length (tierSubnetsOf input (name (configuration x)))) = Ok bs
          ∧ (1 ≤ length (tierSubnetsOf input (name (configuration x))) ≤ 256)%nat
          ∧ out !! k = Some {| cidr := Some
              (if decide (availabilityZone x = "__proto__") then ObjectPrototype
               else
                 FnSelect azIdx
                   (FnCidr
                      (FnSelect tIdx
                         (FnCidr (vpcCidr input) (length (tiersOf input))
                            (32 - default b (tierMask self))))
                      (length (tierSubnetsOf input (name (configuration x))))
                      (32 - default bs
                              (firstMask
                                 (masksOf
                                    (tierSubnetsOf input (name (configuration x)))))))) |}.
Proof. intros _. apply ipam_blocks. Qed.

Lemma twoByTwo_safeMasks vpc : safeMasks (fromIpam None) (twoByTwo vpc).
Proof.
  split_and!.
  - intros n [= <-]. unfold safeMask. lia.
  - intros m [=].
  - intros x m Hx Hm. exfalso. revert Hx Hm. simpl.
    intros Hx. repeat (apply elem_of_cons in Hx as [->|Hx]; [done|]).
    by apply elem_of_nil in Hx.
Qed.

Lemma allocateSubnetsCidrIpam_blocks_witness :
  ∃ out, allocateSubnetsCidrIpam (fromIpam None) (twoByTwo (Token "Vpc.CidrBlock")) = Ok out
    ∧ out !! 3%nat = Some {| cidr := Some
        (FnSelect 1 (FnCidr (FnSelect 1 (FnCidr (Token "Vpc.CidrBlock") 2 15)) 2 14)) |}.
Proof.
  destruct (allocateSubnetsCidrIpam (fromIpam None) (twoByTwo (Token "Vpc.CidrBlock")))
    as [out|e] eqn:Hout; [|by vm_compute in Hout].
  exists out. split; [reflexivity|].
  destruct (allocateSubnetsCidrIpam_blocks _ _ _ (twoByTwo_safeMasks _) Hout)
    as (n & b & Hn & Hb & _ & _ & Hblocks).
  destruct (Hblocks 3%nat (subnet "private" "az2" None) 1%nat 1%nat)
    as (bs & Hbs & _ & Hk); [reflexivity..|].
  vm_compute in Hn, Hb. injection Hn as <-. injection Hb as <-.
  vm_compute in Hbs. injection Hbs as <-. exact Hk.
Defined.

(** An allocation from an IPAM pool fails only in its validations:
    when the netmask is given, [getBiggestMask] returns, the tier mask
    passes its check, the request has between 1 and 256 tiers and every tier
    passes its own validations, the allocation returns one value per
    requested subnet, none of them undefined. *)
Theorem allocateSubnetsCidrIpam_returns self input n b :
  ipv4NetmaskLength (ipamOptions self) = Some n →
  getBiggestMask n (length (tiersOf input)) = Ok b →
  Js.truthyOptNum (tierMask self) && bool_decide (b < default 0 (tierMask self)) = false →
  (1 ≤ length (tiersOf input) ≤ 256)%nat →
  (∀ tier, tier ∈ tiersOf input → ipamTierValid input (default b (tierMask self)) tier) →
  ∃ out,
    allocateSubnetsCidrIpam self input = Ok out
    ∧ length out = length (requestedSubnets input)
    ∧ ∀ y, y ∈ out → is_Some (cidr y).
Proof.
  intros Hn Hb Hcheck Hcount Hvalid.
  assert (∃ out, allocateSubnetsCidrIpam self input = Ok out) as [out Hout].
  { unfold allocateSubnetsCidrIpam. rewrite Hn, Hb. simpl.
    rewrite Hcheck, Fn_cidr_ok by done. simpl.
    match goal with
    | |- context [Js.forEach ?body _ _] =>
        destruct (forEachFrom_stores_ok _ body (tiersOf input)
                    (fun m t i => ipamTierBody_stores input (azsOf input) _ _ m t i))
          with (idx := 0%nat) (m := (∅ : NetworkMap)) as [nm Hloop]
    end.
    - intros t i Ht. destruct (Hvalid t Ht) as (bs & Hbs & Hlen & Hsub & Hmany).
      rewrite Hbs. simpl.
      destruct (decide _); [lia|]. rewrite Hsub.
      rewrite Fn_cidr_ok; [by eexists|].
      apply tier_has_subnets in Ht. destruct (tierSubnetsOf input t); [done|].
      simpl in *. lia.
    - unfold Js.forEach. rewrite Hloop. simpl.
      apply mapResult_ok. intros x Hx.
      destruct (tier_index input x Hx) as [tIdx Ht].
      eapply (forEachFrom_stores _ _ (tiersOf input)) with (i := tIdx)
        in Hloop as (v & _ & Hnm);
        [|intros; apply ipamTierBody_stores|apply NoDup_arrayFromSet|exact Ht].
      unfold lookupSubnet. rewrite Hnm. by eexists. }
  exists out. split; [done|].
  destruct (ipam_blocks _ _ _ Hout) as (n' & b' & _ & _ & _ & Hlen & Hblocks).
  split; [done|].
  intros y (k & Hk)%list_elem_of_lookup.
  destruct (lookup_lt_is_Some_2 (requestedSubnets input) k) as [x Hx].
  { rewrite <- Hlen. by eapply lookup_lt_Some. }
  assert (x ∈ requestedSubnets input) as Hin by (by eapply list_elem_of_lookup_2).
  destruct (tier_index input x Hin) as [tIdx Ht].
  destruct (az_index input x Hin) as [azIdx Haz].
  destruct (Hblocks k x tIdx azIdx Hx Ht Haz) as (bs & _ & _ & Hy).
  rewrite Hk in Hy. injection Hy as ->. by eexists.
Qed.

Lemma allocateSubnetsCidrIpam_returns_witness :
  ∃ out, allocateSubnetsCidrIpam (fromIpam None) (unevenZones (Token "Vpc.CidrBlock"))
           = Ok out
         ∧ length out = 3%nat.
Proof.
  destruct (allocateSubnetsCidrIpam_returns (fromIpam None)
              (unevenZones (Token "Vpc.CidrBlock")) 16 17)
    as (out & Hout & Hlen & _);
    [reflexivity|reflexivity|reflexivity|vm_compute; lia| |by exists out].
  intros tier Htier.
  assert (tier = "public" ∨ tier = "private") as [-> | ->].
  { revert Htier. vm_compute. intros H.
    repeat (apply elem_of_cons in H as [H|H]; [auto|]). by apply elem_of_nil in H. }
  - exists 18. split_and!; [reflexivity| vm_compute; lia | reflexivity | vm_compute; lia].
  - exists 17. split_and!; [reflexivity| vm_compute; lia | reflexivity | vm_compute; lia].
Defined.

(** An allocation from an IPAM pool gives two requested subnets, the
    first of them in a zone not named [__proto__], the same value exactly
    when they name the same tier and the same zone: different pairs never
    share a block, and a pair requested twice gets one block. *)
Theorem allocateSubnetsCidrIpam_distinct self input out k1 k2 x1 x2 y1 y2 :
  allocateSubnetsCidrIpam self input = Ok out →
  requestedSubnets input !! k1 = Some x1 →
  requestedSubnets input !! k2 = Some x2 →
  out !! k1 = Some y1 →
  out !! k2 = Some y2 →
  availabilityZone x1 ≠ "__proto__" →
  cidr y1 = cidr y2
  ↔ name (configuration x1) = name (configuration x2)
    ∧ availabilityZone x1 = availabilityZone x2.
Proof.
  intros Hout Hx1 Hx2 Hy1 Hy2 Hproto.
  destruct (ipam_blocks _ _ _ Hout) as (n & b & _ & _ & _ & _ & Hblocks).
  assert (x1 ∈ requestedSubnets input) as Hin1 by (by eapply list_elem_of_lookup_2).
  assert (x2 ∈ requestedSubnets input) as Hin2 by (by eapply list_elem_of_lookup_2).
  destruct (tier_index input x1 Hin1) as [t1 Ht1].
  destruct (az_index input x1 Hin1) as [a1 Ha1].
  destruct (tier_index input x2 Hin2) as [t2 Ht2].
  destruct (az_index input x2 Hin2) as [a2 Ha2].
  destruct (Hblocks k1 x1 t1 a1 Hx1 Ht1 Ha1) as (bs1 & Hbs1 & _ & Hk1).
  destruct (Hblocks k2 x2 t2 a2 Hx2 Ht2 Ha2) as (bs2 & Hbs2 & _ & Hk2).
  rewrite Hy1 in Hk1. rewrite Hy2 in Hk2.
  injection Hk1 as ->. injection Hk2 as ->. simpl.
  destruct (decide (availabilityZone x1 = "__proto__")); [done|].
  destruct (decide (availabilityZone x2 = "__proto__")) as [Hx2p|_].
  { split; [done|]. intros [_ Haz]. congruence. }
  split.
  - intros [= -> -> _ _]. split; congruence.
  - intros [Hname Haz].
    assert (t1 = t2) as ->.
    { eapply (NoDup_lookup (tiersOf input)); [apply NoDup_arrayFromSet|exact Ht1|].
      by rewrite Hname. }
    assert (a1 = a2) as ->.
    { eapply (NoDup_lookup (azsOf input)); [apply NoDup_arrayFromSet|exact Ha1|].
      by rewrite Haz. }
    rewrite Hname in Hbs1 |- *. rewrite Hbs1 in Hbs2. by injection Hbs2 as ->.
Qed.

Lemma allocateSubnetsCidrIpam_distinct_witness :
  ∃ out y1 y2,
    allocateSubnetsCidrIpam (fromIpam None) (twoByTwo (Token "Vpc.CidrBlock")) = Ok out
    ∧ out !! 1%nat = Some y1 ∧ out !! 2%nat = Some y2 ∧ cidr y1 ≠ cidr y2.
Proof.
  destruct (allocateSubnetsCidrIpam (fromIpam None) (twoByTwo (Token "Vpc.CidrBlock")))
    as [out|e] eqn:Hout; [|by vm_compute in Hout].
  destruct (out !! 1%nat) as [y1|] eqn:Hy1; [|by vm_compute in Hout; injection Hout as <-].
  destruct (out !! 2%nat) as [y2|] eqn:Hy2; [|by vm_compute in Hout; injection Hout as <-].
  exists out, y1, y2. split_and!; [reflexivity|exact Hy1|exact Hy2|].
  intros Heq.
  apply (allocateSubnetsCidrIpam_distinct _ _ _ 1%nat 2%nat
           (subnet "public" "az2" None) (subnet "private" "az1" None) y1 y2 Hout)
    in Heq as [Hname _];
    [discriminate Hname|reflexivity|reflexivity|exact Hy1|exact Hy2|discriminate].
Defined.

End TieredReturns.

(** ** Tiered subnets: the subnet mask check and the constructor *)

Section TieredChecks.
Import TieredSubnets Networking Props Examples.

(** A cidrMask shared by all subnets of a tier, in an allocation from
    an IPAM pool whose request has no more tiers than [Fn.cidr] takes: when
    the mask is numerically larger than [getBiggestMask] of the effective
    tier mask and the number of subnets of the tier, the allocation fails
    with the subnet-mask error as soon as the loop gets to the tier.  An
    allocation from a concrete CIDR makes no such comparison: the tier's
    step hands the mask to [divideCidr]. *)
Theorem shared_subnet_mask_above_biggest self input tier m :
  tier ∈ tiersOf input →
  (∀ x, x ∈ tierSubnetsOf input tier → cidrMask (configuration x) = Some m) →
  (∀ n b bs,
     ipv4NetmaskLength (ipamOptions self) = Some n →
     getBiggestMask n (length (tiersOf input)) = Ok b →
     Js.truthyOptNum (tierMask self)
       && bool_decide (b < default 0 (tierMask self)) = false →
     (length (tiersOf input) ≤ 256)%nat →
     reachesTier
       (ipamTierBody input (azsOf input) (default b (tierMask self))
          (FnCidr (vpcCidr input) (length (tiersOf input))
             (32 - default b (tierMask self))))
       (tiersOf input) tier →
     getBiggestMask (default b (tierMask self))
       (length (tierSubnetsOf input tier)) = Ok bs →
     bs < m → m ≠ 0 →
     allocateSubnetsCidrIpam self input = Err SubnetMaskTooNarrow)
  ∧ (∀ azs tierNetworks networkMap tIdx,
       noIpamTierBody input azs tierNetworks networkMap tier tIdx =
       match tierNetworks !! tIdx with
       | None => Err TypeError
       | Some tierNetwork =>
           azNetworks ← divideCidr tierNetwork (length azs) (Some m);
           Ok (<[tier := assignAzs (fun azIdx => azNetworks !! azIdx) azs]> networkMap)
       end).
Proof.
  intros Hin Hall. pose proof (masksOf_uniform input tier (Some m) Hin Hall) as Hmasks.
  split.
  - intros n b bs Hn Hb Hcheck Hcount (pre & post & nm & Htiers & Hpre) Hbs Hlt Hm0.
    unfold allocateSubnetsCidrIpam. rewrite Hn, Hb. simpl.
    rewrite Hcheck, Fn_cidr_ok; [simpl|].
    + rewrite (forEach_reaches_throw _ _ pre tier post ∅ nm SubnetMaskTooNarrow);
        [done|done|done|].
      intros idx. unfold ipamTierBody. rewrite Hbs, Hmasks. simpl.
      unfold Js.truthyNum. rewrite bool_decide_true by done.
      by destruct (Z.eqb_spec m 0).
    + split; [|done]. rewrite Htiers, length_app. simpl. lia.
  - intros azs tn nm tIdx. unfold noIpamTierBody. by rewrite Hmasks.
Qed.

Lemma shared_subnet_mask_above_biggest_witness :
  allocateSubnetsCidrIpam (fromIpam None) (explicit24 (Token "Vpc.CidrBlock"))
    = Err SubnetMaskTooNarrow.
Proof.
  refine (proj1 (shared_subnet_mask_above_biggest (fromIpam None)
                   (explicit24 (Token "Vpc.CidrBlock")) "public" 24 _ _)
            16 16 17 _ _ _ _ _ _ _ _).
  - by_compute.
  - intros x Hx. revert Hx. vm_compute. intros H.
    repeat (apply elem_of_cons in H as [->|H]; [reflexivity|]). by apply elem_of_nil in H.
  - reflexivity.
  - reflexivity.
  - reflexivity.
  - vm_compute. lia.
  - exists [], [], ∅. split; reflexivity.
  - reflexivity.
  - lia.
  - lia.
Defined.

(** The constructor and the mode of the allocator.  The constructor
    throws exactly when the provider gives neither CIDR details nor IPAM
    details.  CIDR details win over IPAM details: the allocator then splits
    the concrete CIDR and keeps no pool.  With IPAM details only, it
    allocates from the pool with the netmask of the details.  Either way the
    missing-netmask error of [allocateSubnetsCidrIpam] is out of reach for an
    allocator made by the constructor. *)
Theorem constructed_allocator_mode options :
  (TieredSubnets_new options = None
   ↔ cidrDetails (provider options) = None ∧ ipamDetails (provider options) = None)
  ∧ ∀ self input,
      TieredSubnets_new options = Some self →
      tierMask self = optionsTierMask options
      ∧ (∀ d, cidrDetails (provider options) = Some d →
           allocateVpcCidr self = {| cidrBlock := Some (detailsCidr d);
                                     ipv4IpamPoolId := None;
                                     ipv4NetmaskLength := None |}
           ∧ ipamPool self = None
           ∧ allocateSubnetsCidr self input = allocateSubnetsCidrNoIpam self input)
      ∧ (∀ d, cidrDetails (provider options) = None →
              ipamDetails (provider options) = Some d →
           allocateVpcCidr self = {| cidrBlock := None;
                                     ipv4IpamPoolId := detailsIpamPoolId d;
                                     ipv4NetmaskLength := Some (ipamNetmask d) |}
           ∧ allocateSubnetsCidr self input = allocateSubnetsCidrIpam self input)
      ∧ allocateSubnetsCidr self input ≠ Err MissingNetmask.
Proof.
  unfold TieredSubnets_new. split.
  - destruct (cidrDetails _), (ipamDetails _); split; (done || by intros [? ?]).
  - intros self input Hnew.
    destruct (cidrDetails (provider options)) as [c|] eqn:Hc.
    + injection Hnew as <-. split_and!; try done.
      * intros d [= <-]. done.
      * unfold allocateSubnetsCidr. simpl. apply allocateSubnetsCidrNoIpam_netmask.
    + destruct (ipamDetails (provider options)) as [i|] eqn:Hi; [|done].
      injection Hnew as <-. split_and!; try done.
      * intros d _ [= <-]. done.
      * unfold allocateSubnetsCidr. simpl.
        by intros H%allocateSubnetsCidrIpam_netmask.
Qed.

Lemma constructed_allocator_mode_witness :
  ∃ self, TieredSubnets_new bothDetails = Some self
    ∧ ipamPool self = None
    ∧ allocateSubnetsCidr self (twoByTwo vpc16)
      = allocateSubnetsCidrNoIpam self (twoByTwo vpc16).
Proof.
  eexists. split; [reflexivity|].
  match goal with
  | |- ipamPool ?self = _ ∧ _ =>
      destruct (proj2 (constructed_allocator_mode bothDetails) self (twoByTwo vpc16) eq_refl)
        as (_ & Hcidr & _ & _)
  end.
  destruct (Hcidr _ eq_refl) as (_ & Hpool & Hmode). by split.
Defined.

End TieredChecks.

(** ** IPAM pools: tag restrictions *)

Section TagRestrictions.
Import Ipam Props Examples.

Lemma addTagRestriction_taken self key value w :
  is_Some (tagRestrictionsOf w (path self) !! key) ∨ key ∈ objectPrototypeKeys →
  IpamPool_addTagRestriction self key value w
    = (w, Err (DuplicateTagRestrictionKey key)).
Proof.
  intros H. unfold IpamPool_addTagRestriction, mbind, M_bind, getWorld.
  destruct H as [H|H].
  - by rewrite (bool_decide_true _ H).
  - rewrite (bool_decide_true _ H). by rewrite orb_true_r.
Qed.

Lemma addTagRestriction_new self key value w :
  tagRestrictionsOf w (path self) !! key = None →
  key ∉ objectPrototypeKeys →
  IpamPool_addTagRestriction self key value w
    = (mkWorld (tree w) (warnings w) (tags w) (provisionedCidrs w)
         (<[path self := <[key := value]> (tagRestrictionsOf w (path self))]>
            (tagRestrictions w))
         (producedCidrs w),
       Ok self).
Proof.
  intros Hown Hproto. unfold IpamPool_addTagRestriction, mbind, M_bind, getWorld.
  rewrite bool_decide_false by (rewrite Hown; by intros [? ?]).
  by rewrite bool_decide_false.
Qed.

(** [addTagRestriction].  A key that the pool already restricts, or that
    every JavaScript object inherits (such as [constructor]), is refused with
    the duplicate-key error and nothing changes.  Any other key is recorded
    with its value and the pool is returned; the restriction can then be
    read back, a second call for the key is refused whatever the value, the
    other keys of the pool, the restrictions of other pools and the
    provisioned CIDRs are as before. *)
Theorem addTagRestriction_records_once self key value w :
  let own := tagRestrictionsOf w (path self) in
  let r := IpamPool_addTagRestriction self key value w in
  (is_Some (own !! key) ∨ key ∈ objectPrototypeKeys →
     r = (w, Err (DuplicateTagRestrictionKey key)))
  ∧ (own !! key = None → key ∉ objectPrototypeKeys →
       snd r = Ok self
       ∧ tagRestrictionsOf (fst r) (path self) !! key = Some value
       ∧ (∀ other, other ≠ key →
            tagRestrictionsOf (fst r) (path self) !! other = own !! other)
       ∧ (∀ value', IpamPool_addTagRestriction self key value' (fst r)
                    = (fst r, Err (DuplicateTagRestrictionKey key)))
       ∧ (∀ pool, pool ≠ path self →
            tagRestrictionsOf (fst r) pool = tagRestrictionsOf w pool)
       ∧ provisionedCidrs (fst r) = provisionedCidrs w
       ∧ tree (fst r) = tree w).
Proof.
  intros own r. split.
  - apply addTagRestriction_taken.
  - intros Hown Hproto. unfold r.
    rewrite addTagRestriction_new by done. simpl.
    assert (∀ k, tagRestrictionsOf
                   (mkWorld (tree w) (warnings w) (tags w) (provisionedCidrs w)
                      (<[path self := <[key := value]> own]> (tagRestrictions w))
                      (producedCidrs w))
                   (path self) !! k = <[key := value]> own !! k) as Hread.
    { intros k. unfold tagRestrictionsOf at 1. simpl. by rewrite lookup_insert_eq. }
    split_and!; try done.
    + by rewrite Hread, lookup_insert_eq.
    + intros other Hne. by rewrite Hread, lookup_insert_ne.
    + intros value'. apply addTagRestriction_taken. left.
      rewrite Hread, lookup_insert_eq. by eexists.
    + intros pool Hne. unfold tagRestrictionsOf. simpl. by rewrite lookup_insert_ne.
Qed.

Lemma addTagRestriction_records_once_witness :
  let self := poolOf (poolProps None None None None) in
  let r := IpamPool_addTagRestriction self "env" "prod" emptyWorld in
  snd r = Ok self
  ∧ tagRestrictionsOf (fst r) "stack/pool" !! "env" = Some "prod"
  ∧ IpamPool_addTagRestriction self "env" "test" (fst r)
    = (fst r, Err (DuplicateTagRestrictionKey "env"))
  ∧ IpamPool_addTagRestriction self "constructor" "x" emptyWorld
    = (emptyWorld, Err (DuplicateTagRestrictionKey "constructor")).
Proof.
  intros self r.
  destruct (proj2 (addTagRestriction_records_once self "env" "prod" emptyWorld))
    as (Hok & Hread & _ & Hagain & _); [reflexivity|by_compute|].
  split_and!; [exact Hok|exact Hread|exact (Hagain "test")|].
  apply (proj1 (addTagRestriction_records_once self "constructor" "x" emptyWorld)).
  right. by_compute.
Defined.

(** Two restrictions on different keys can be added in either order: the
    pool ends with the same restrictions. *)
Theorem addTagRestriction_commutes self k1 v1 k2 v2 w :
  k1 ≠ k2 →
  tagRestrictionsOf w (path self) !! k1 = None → k1 ∉ objectPrototypeKeys →
  tagRestrictionsOf w (path self) !! k2 = None → k2 ∉ objectPrototypeKeys →
  (_ ← IpamPool_addTagRestriction self k1 v1; IpamPool_addTagRestriction self k2 v2) w
  = (_ ← IpamPool_addTagRestriction self k2 v2; IpamPool_addTagRestriction self k1 v1) w.
Proof.
  intros Hne H1 Hp1 H2 Hp2.
  rewrite (bind_ok _ _ w _ self (addTagRestriction_new self k1 v1 w H1 Hp1)).
  rewrite (bind_ok _ _ w _ self (addTagRestriction_new self k2 v2 w H2 Hp2)).
  rewrite !addTagRestriction_new; try done.
  - unfold tagRestrictionsOf. simpl. rewrite !lookup_insert_eq. simpl.
    rewrite !insert_insert_eq. do 3 f_equal. by apply insert_insert_ne.
  - unfold tagRestrictionsOf at 1. simpl. rewrite lookup_insert_eq. simpl.
    by rewrite lookup_insert_ne.
  - unfold tagRestrictionsOf at 1. simpl. rewrite lookup_insert_eq. simpl.
    by rewrite lookup_insert_ne.
Qed.

Lemma addTagRestriction_commutes_witness :
  let self := poolOf (poolProps None None None None) in
  fst ((_ ← IpamPool_addTagRestriction self "env" "prod";
        IpamPool_addTagRestriction self "team" "net") emptyWorld)
  = fst ((_ ← IpamPool_addTagRestriction self "team" "net";
          IpamPool_addTagRestriction self "env" "prod") emptyWorld).
Proof.
  intros self.
  rewrite (addTagRestriction_commutes self "env" "prod" "team" "net" emptyWorld);
    [reflexivity|done|reflexivity|by_compute|reflexivity|by_compute].
Defined.

End TagRestrictions.

(** ** IPAM pools: what the constructor and the registrations leave alone *)

Section PoolFrames.
Import Ipam Props Examples.

Lemma keeps_tagRestrictions_newConstruct T scope id :
  preserves (fun w => tagRestrictions w = T) (newConstruct scope id).
Proof.
  intros w <-. by destruct (newConstruct_frame scope id w) as (_ & _ & _ & ?).
Qed.

Lemma keeps_tagRestrictions_addCidrToPool T self id options :
  preserves (fun w => tagRestrictions w = T) (IpamPool_addCidrToPool self id options).
Proof.
  assert (preserves (fun w => tagRestrictions w = T)
            (IpamPoolBase_addCidrToPool self id options)) as Hbase.
  { unfold IpamPoolBase_addCidrToPool, IpamPoolCidr_new.
    apply preserves_bind; [|intros; apply preserves_ret].
    apply preserves_bind; [apply keeps_tagRestrictions_newConstruct|].
    intros; apply preserves_ret. }
  unfold IpamPool_addCidrToPool.
  destruct (_ && _); [|done].
  destruct (truthyCidr _) as [c|].
  - intros w Hw. unfold mbind, M_bind, getWorld. by destruct (decide _).
  - apply preserves_bind; [|done].
    intros w <-. by destruct (addWarning_spec (path self) inlineFallbackWarning w)
      as (_ & _ & _ & _ & _ & ?).
Qed.

(** The constructor of a pool does not read [props.tagRestrictions]: a new
    pool restricts no tag, whatever restrictions its properties carry, and
    so does a child pool made by [addChildPool] with [tagRestrictions] among
    its options. *)
Theorem constructor_drops_tagRestrictions scope id props w w' pool :
  IpamPool_new scope id props w = (w', Ok pool) →
  tagRestrictionsOf w' (path pool) = ∅.
Proof.
  unfold IpamPool_new. intros H.
  apply bind_inv_ok in H as (w1 & p & Hp & H).
  apply bind_inv_ok in H as (w2 & [] & H2 & H).
  assert (tagRestrictions w2 = <[p := ∅]> (tagRestrictions w1)) as Hw2.
  { by injection H2 as <-. }
  set (T := <[p := ∅]> (tagRestrictions w1)) in *.
  assert (preserves (fun w => tagRestrictions w = T) (setProvisionedCidrs p []))
    as Hset by (by intros w0).
  apply bind_inv_ok in H as (w3 & [] & H3 & H).
  pose proof (Hset w2 Hw2) as Hw3. rewrite H3 in Hw3. simpl in Hw3.
  apply bind_inv_ok in H as (w3' & [] & H3' & H).
  assert (tagRestrictions w3' = T) as Hw3' by (by injection H3' as <-).
  apply bind_inv_ok in H as (w4 & r & H4 & H).
  pose proof (keeps_tagRestrictions_newConstruct T p "Resource" w3' Hw3') as Hw4.
  rewrite H4 in Hw4. simpl in Hw4.
  apply bind_inv_ok in H as (w5 & [] & H5 & H).
  assert (tagRestrictions w5 = T) as Hw5.
  { destruct (Js.truthyOptStr _); [|by injection H5 as <-].
    by injection H5 as <-. }
  apply bind_inv_ok in H as (w6 & [] & H6 & H).
  assert (tagRestrictions w6 = T) as Hw6.
  { match type of H6 with
    | forEachM ?body _ _ _ = _ =>
        pose proof (preserves_forEachM (fun w => tagRestrictions w = T) body
                      (default [] (propsProvisionedCidrs props))) as Hloop
    end.
    specialize (Hloop (fun x idx =>
      preserves_bind _ _ _ (keeps_tagRestrictions_addCidrToPool T _ _ _)
        (fun _ => preserves_ret _ _)) 0%nat w5 Hw5).
    by rewrite H6 in Hloop. }
  injection H as <- <-. simpl. unfold tagRestrictionsOf.
  rewrite Hw6. unfold T. by rewrite lookup_insert_eq.
Qed.

Lemma constructor_drops_tagRestrictions_witness :
  ∃ w' pool,
    IpamPool_new "stack" "pool"
      {| propsAddressConfiguration := None; propsAutoImport := None;
         propsDescription := None; propsIpamScope := privateScope;
         propsLocale := None; propsName := None; propsParentPool := None;
         propsProvisionedCidrs := None; propsPublicIpSource := None;
         propsTagRestrictions := Some {[ "env" := "prod" ]} |} emptyWorld
    = (w', Ok pool)
    ∧ tagRestrictionsOf w' (path pool) = ∅.
Proof.
  match goal with
  | |- ∃ w' pool, ?call = _ ∧ _ =>
      destruct call as [w' [pool|e]] eqn:Hnew; [|by vm_compute in Hnew]
  end.
  exists w', pool. split; [reflexivity|].
  by eapply constructor_drops_tagRestrictions.
Defined.

(** A registration that is not inline ([allowInline: false], or a
    configuration that is not inline) is the registration of [IpamPoolBase]:
    it compares nothing with the provisioned CIDRs and leaves them and the
    warnings as they are.  When the name of the new construct, [cidr-] and
    the id, is free in the pool, the call creates a new [IpamPoolCidr] as the
    last child of the pool and returns it, also for a literal the pool
    already holds; when the name is taken the call fails with the
    duplicate-name error and the world is as before. *)
Theorem registration_not_inline self id options w :
  default true (allowInline options) && inline (configuration options) = false →
  let child := Construct.sanitizeId (String.append "cidr-" id) in
  let r := IpamPool_addCidrToPool self id options w in
  provisionedCidrs (fst r) = provisionedCidrs w
  ∧ warnings (fst r) = warnings w
  ∧ (child ∉ Construct.childrenOf (tree w) (path self) →
       snd r = Ok {| cidr := Some {| cidrPath := Construct.childPath (path self)
                                                  (String.append "cidr-" id);
                                     cidrIpamPool := path self;
                                     cidrConfiguration := configuration options |};
                     inlineResult := false |}
       ∧ Construct.childrenOf (tree (fst r)) (path self)
         = Construct.childrenOf (tree w) (path self) ++ [child])
  ∧ (child ∈ Construct.childrenOf (tree w) (path self) →
       r = (w, Err (DuplicateConstructName child)))
  ∧ (∀ c, snd r ≠ Err (DuplicateCidr c)).
Proof.
  intros Hmode child r. unfold r, IpamPool_addCidrToPool. rewrite Hmode.
  destruct (IpamPoolBase_addCidrToPool_frame self id options w) as (Hw & _ & Hp & _).
  split_and!; [done|done| | |].
  - apply IpamPoolBase_addCidrToPool_fresh.
  - apply IpamPoolBase_addCidrToPool_taken.
  - intros c Hc.
    destruct (decide (child ∈ Construct.childrenOf (tree w) (path self))) as [Hin|Hnin].
    + by rewrite IpamPoolBase_addCidrToPool_taken in Hc.
    + apply (IpamPoolBase_addCidrToPool_fresh self id options) in Hnin as [Hok _].
      by rewrite Hok in Hc.
Qed.

(** The literal 10.0.0.0/8 is provisioned inline by the constructor and
    registered again with [allowInline: false]. *)
Lemma registration_not_inline_witness :
  let props := poolProps None None None (Some ["10.0.0.0/8"]) in
  let w := fst (withPool props mret) in
  let r := IpamPool_addCidrToPool (poolOf props) "again"
             {| allowInline := Some false;
                configuration := IpamPoolCidrConfiguration_cidr "10.0.0.0/8" |} w in
  provisionedOf w "stack/pool" = ["10.0.0.0/8"]
  ∧ inlineResult <$> snd r = Ok false
  ∧ provisionedCidrs (fst r) = provisionedCidrs w
  ∧ Construct.childrenOf (tree (fst r)) "stack/pool" = ["Resource"; "cidr-again"].
Proof.
  intros props w r. split; [vm_compute; reflexivity|].
  destruct (registration_not_inline (poolOf props) "again"
              {| allowInline := Some false;
                 configuration := IpamPoolCidrConfiguration_cidr "10.0.0.0/8" |} w)
    as (Hp & _ & Hok & _); [reflexivity|].
  destruct Hok as [Hok Hch]; [by_compute|].
  fold r in Hp, Hok, Hch. split_and!; [|exact Hp|].
  - rewrite Hok. reflexivity.
  - refine (eq_trans Hch _). vm_compute. reflexivity.
Defined.

(** A pool made by [addChildPool] has its parent's address family, names its
    parent, sits under the parent in the tree (its name is [pool-] and the
    id, a [/] written [--]) and has no public IP source.  With the nesting
    check as [addChildPool] has it, such a pool takes no child pool of its
    own: every [addChildPool] on it throws. *)
Theorem child_pool_takes_no_child self id options w w' child :
  IpamPool_addChildPool self id options w = (w', Ok child) →
  path child = Construct.childPath (path self) (String.append "pool-" id)
  ∧ parentPool child = Some (path self)
  ∧ ipFamily child = ipFamily self
  ∧ publicIpSource child = None
  ∧ ∀ id' options' w0,
      fst (IpamPool_addChildPool child id' options' w0) = w0
      ∧ (snd (IpamPool_addChildPool child id' options' w0) = Err LocaleMismatch
         ∨ snd (IpamPool_addChildPool child id' options' w0) = Err NestingUnsupported).
Proof.
  unfold IpamPool_addChildPool at 1.
  destruct (negb _); [done|]. destruct (validateNestingSupport self); [done|].
  intros H. unfold IpamPoolBase_addChildPool in H.
  apply bind_inv_ok in H as (w1 & sc & _ & H).
  apply IpamPool_new_fields in H as (Hpath & _ & Hparent & Hsource & Hconf).
  simpl in *. split_and!; try done.
  - unfold ipFamily. by rewrite Hconf.
  - intros id' options' w0. unfold IpamPool_addChildPool.
    destruct (negb _); [by split; [|left]|].
    assert (validateNestingSupport child = true) as ->.
    { unfold validateNestingSupport. rewrite Hsource. simpl.
      by rewrite andb_false_r. }
    by split; [|right].
Qed.

Lemma child_pool_takes_no_child_witness :
  ∃ w w' child,
    IpamPool_addChildPool (poolOf (poolProps None (Some "ec2") (Some BYOIP) None))
      "child" None w = (w', Ok child)
    ∧ parentPool child = Some "stack/pool"
    ∧ isOk (snd (IpamPool_addChildPool child "grandchild" None w')) = false.
Proof.
  set (parent := poolOf (poolProps None (Some "ec2") (Some BYOIP) None)).
  destruct (IpamPool_addChildPool parent "child" None emptyWorld)
    as [w' [child|e]] eqn:Hchild; [|by vm_compute in Hchild].
  exists emptyWorld, w', child. split; [exact Hchild|].
  destruct (child_pool_takes_no_child parent "child" None emptyWorld w' child Hchild)
    as (_ & Hparent & _ & _ & Hnone).
  split; [exact Hparent|].
  by destruct (Hnone "grandchild" None w') as [_ [-> | ->]].
Defined.

Lemma keeps_producedCidrs_addCidrToPool P self id options :
  preserves (fun w => producedCidrs w = P) (IpamPool_addCidrToPool self id options).
Proof.
  assert (∀ scope name, preserves (fun w => producedCidrs w = P) (newConstruct scope name))
    as Hnew.
  { intros scope name w <-. unfold newConstruct.
    by destruct (Construct.addChild _ _ _). }
  assert (preserves (fun w => producedCidrs w = P)
            (IpamPoolBase_addCidrToPool self id options)) as Hbase.
  { unfold IpamPoolBase_addCidrToPool, IpamPoolCidr_new.
    apply preserves_bind; [|intros; apply preserves_ret].
    apply preserves_bind; [apply Hnew|intros; apply preserves_ret]. }
  unfold IpamPool_addCidrToPool.
  destruct (_ && _); [|done].
  destruct (truthyCidr _) as [c|].
  - intros w Hw. unfold mbind, M_bind, getWorld. by destruct (decide _).
  - apply preserves_bind; [|done].
    intros w <-. unfold addWarning. by destruct (decide _).
Qed.

(** A rendering keeps the array it rendered, and a rendering that finds a
    kept array renders that array. *)
Lemma renderProvisionedCidrs_keeps self w :
  ∃ produced,
    snd (renderProvisionedCidrs self w)
    = Ok match produced with
         | [] => None
         | _ => Some (map (fun x => {| propertyCidr := x |}) produced)
         end
    ∧ producedCidrs (fst (renderProvisionedCidrs self w)) !! path self = Some produced.
Proof.
  unfold renderProvisionedCidrs. eexists. split; [done|]. simpl.
  by rewrite lookup_insert_eq.
Qed.

Lemma renderProvisionedCidrs_kept self w produced :
  producedCidrs w !! path self = Some produced →
  snd (renderProvisionedCidrs self w)
  = Ok match produced with
       | [] => None
       | _ => Some (map (fun x => {| propertyCidr := x |}) produced)
       end.
Proof. intros H. unfold renderProvisionedCidrs. by rewrite H. Qed.

(** The [provisionedCidrs] rendered for the pool's resource, in a world
    where no pool holds a literal twice.  The first rendering names every
    literal registered inline so far once, in the order of registration, and
    is omitted exactly when there is none; it changes nothing of the pools.
    [Lazy.any] keeps the array of the first rendering: a rendering after a
    later registration repeats the first one, without the new literal.  A
    literal registered before the first rendering is rendered last. *)
Theorem rendered_provisionedCidrs self w :
  noDuplicateCidrs w →
  let first := renderProvisionedCidrs self w in
  (producedCidrs w !! path self = None →
     (snd first = Ok None ↔ provisionedOf w (path self) = [])
     ∧ (∀ properties,
          snd first = Ok (Some properties) →
          map propertyCidr properties = provisionedOf w (path self)
          ∧ NoDup properties))
  ∧ (provisionedCidrs (fst first) = provisionedCidrs w
     ∧ tagRestrictions (fst first) = tagRestrictions w
     ∧ tree (fst first) = tree w
     ∧ warnings (fst first) = warnings w)
  ∧ (∀ id options,
       snd (renderProvisionedCidrs self
              (fst (IpamPool_addCidrToPool self id options (fst first))))
       = snd first)
  ∧ (∀ id options c,
       default true (allowInline options) = true →
       inline (configuration options) = true →
       truthyCidr (resolvedCidr (bind (configuration options) (path self))) = Some c →
       c ∉ provisionedOf w (path self) →
       producedCidrs w !! path self = None →
       snd (renderProvisionedCidrs self (fst (IpamPool_addCidrToPool self id options w)))
       = Ok (Some (map (fun x => {| propertyCidr := x |}) (provisionedOf w (path self))
                   ++ [{| propertyCidr := c |}]))).
Proof.
  intros Hnd first. split_and!.
  - intros Hnone. unfold first, renderProvisionedCidrs. rewrite Hnone. simpl. split.
    + destruct (provisionedOf w (path self)); split; done.
    + intros properties H.
      assert (map (fun x => {| propertyCidr := x |}) (provisionedOf w (path self))
              = properties) as <-.
      { destruct (provisionedOf w (path self)); simpl in *; [done|by injection H]. }
      split.
      * rewrite map_map. simpl. apply map_id.
      * apply NoDup_fmap_2; [by intros x y [= ->]|].
        by apply noDuplicateCidrs_provisionedOf.
  - done.
  - done.
  - done.
  - done.
  - intros id options.
    destruct (renderProvisionedCidrs_keeps self w) as (produced & Hfirst & Hkept).
    fold first in Hfirst, Hkept. rewrite Hfirst.
    apply renderProvisionedCidrs_kept.
    by rewrite (keeps_producedCidrs_addCidrToPool _ self id options (fst first) eq_refl).
  - intros id options c Hallow Hinline Hcidr Hnew Hnone.
    destruct (addCidrToPool_new_literal self id options c w Hallow Hinline Hcidr Hnew)
      as [_ Hadd].
    pose proof (keeps_producedCidrs_addCidrToPool (producedCidrs w) self id options
                  w eq_refl) as Hkeep.
    unfold renderProvisionedCidrs. rewrite Hkeep, Hnone, Hadd. simpl.
    rewrite map_app. simpl.
    by destruct (provisionedOf w (path self)).
Qed.

(** A pool made with two literals: the first rendering names the two; a
    third literal registered afterwards is held by the pool and is not in a
    second rendering; registered before any rendering, it is rendered
    last. *)
Lemma rendered_provisionedCidrs_witness :
  let props := poolProps None None None (Some ["10.0.0.0/8"; "172.16.0.0/12"]) in
  let w := fst (withPool props mret) in
  let first := renderProvisionedCidrs (poolOf props) w in
  let later := IpamPool_addCidrToPool (poolOf props) "more"
                 (inlineCidr "192.168.0.0/16") (fst first) in
  snd first
  = Ok (Some [ {| propertyCidr := "10.0.0.0/8" |}; {| propertyCidr := "172.16.0.0/12" |} ])
  ∧ provisionedOf (fst later) "stack/pool"
    = ["10.0.0.0/8"; "172.16.0.0/12"; "192.168.0.0/16"]
  ∧ snd (renderProvisionedCidrs (poolOf props) (fst later)) = snd first
  ∧ snd (renderProvisionedCidrs (poolOf props)
           (fst (IpamPool_addCidrToPool (poolOf props) "more"
                   (inlineCidr "192.168.0.0/16") w)))
    = Ok (Some [ {| propertyCidr := "10.0.0.0/8" |}; {| propertyCidr := "172.16.0.0/12" |};
                 {| propertyCidr := "192.168.0.0/16" |} ]).
Proof.
  intros props w first later.
  assert (noDuplicateCidrs w) as Hnd.
  { unfold w, withPool. apply preserves_bind;
      [apply preserves_IpamPool_new|intros; apply preserves_ret|].
    intros p l. unfold emptyWorld. simpl. by rewrite lookup_empty. }
  destruct (rendered_provisionedCidrs (poolOf props) w Hnd) as (_ & _ & Hagain & Hadd).
  split_and!.
  - vm_compute. reflexivity.
  - vm_compute. reflexivity.
  - exact (Hagain "more" (inlineCidr "192.168.0.0/16")).
  - refine (eq_trans (Hadd "more" (inlineCidr "192.168.0.0/16") "192.168.0.0/16"
                        _ _ _ _ _) _);
      [reflexivity|reflexivity|reflexivity|by_compute|vm_compute; reflexivity|].
    vm_compute. reflexivity.
Defined.

End PoolFrames.

(** ** The IPAM: operating regions and several resource discoveries *)

Section IpamRegions.
Import Ipam Props Examples.

Lemma addRegions_spec xs : ∀ regions,
  NoDup regions →
  NoDup (fst (Ipam_addRegions regions xs))
  ∧ (snd (Ipam_addRegions regions xs) = Ok tt
     ↔ NoDup xs ∧ ∀ x, x ∈ xs → x ∉ regions)
  ∧ (snd (Ipam_addRegions regions xs) = Ok tt →
     fst (Ipam_addRegions regions xs) = regions ++ xs)
  ∧ (∀ e, snd (Ipam_addRegions regions xs) = Err e →
     ∃ pre x post,
       xs = pre ++ x :: post
       ∧ NoDup pre ∧ (∀ y, y ∈ pre → y ∉ regions)
       ∧ (x ∈ regions ∨ x ∈ pre)
       ∧ e = DuplicateRegion x
       ∧ fst (Ipam_addRegions regions xs) = regions ++ pre).
Proof.
  induction xs as [|a xs IH]; intros regions Hnd; simpl.
  - split_and!; [done| |intros _; by rewrite app_nil_r|done].
    split; [|done]. intros _. split; [apply NoDup_nil_2|].
    intros x Hx. by apply elem_of_nil in Hx.
  - unfold Ipam_addRegion. destruct (decide (a ∈ regions)) as [Hin|Hnin]; simpl.
    + split_and!; try done.
      * split; [done|]. intros [_ Hfresh]. exfalso. apply (Hfresh a); [left|done].
      * intros e [= <-]. exists [], a, xs.
        split_and!; [done|apply NoDup_nil_2| |by left|done|by rewrite app_nil_r].
        intros y Hy. by apply elem_of_nil in Hy.
    + assert (NoDup (regions ++ [a])) as Hnd'.
      { apply NoDup_app. split_and!; [done| |apply NoDup_singleton].
        by intros x Hx ->%list_elem_of_singleton. }
      destruct (IH (regions ++ [a]) Hnd') as (Hnodup & Hiff & Hok & Herr).
      split_and!.
      * done.
      * rewrite Hiff. rewrite NoDup_cons. split.
        -- intros [Hxs Hfresh]. split; [split; [|done]|].
           ++ intros Ha. apply (Hfresh a Ha). apply elem_of_app. right. left.
           ++ intros x [-> | Hx]%elem_of_cons; [done|].
              intros Hreg. apply (Hfresh x Hx). apply elem_of_app. by left.
        -- intros [[Ha Hxs] Hfresh]. split; [done|].
           intros x Hx [Hreg | ->%list_elem_of_singleton]%elem_of_app; [|done].
           apply (Hfresh x); [by right|done].
      * intros H. rewrite (Hok H). by rewrite <- app_assoc.
      * intros e (pre & x & post & -> & Hpre & Hfresh & Hx & -> & Hfst)%Herr.
        exists (a :: pre), x, post. split_and!.
        -- done.
        -- apply NoDup_cons. split; [|done].
           intros Ha. apply (Hfresh a Ha). apply elem_of_app. right. left.
        -- intros y [-> | Hy]%elem_of_cons; [done|].
           intros Hreg. apply (Hfresh y Hy). apply elem_of_app. by left.
        -- destruct Hx as [[Hx | ->%list_elem_of_singleton]%elem_of_app | Hx].
           ++ by left.
           ++ right. left.
           ++ right. by right.
        -- done.
        -- rewrite Hfst. by rewrite <- app_assoc.
Qed.

(** [addRegion], called for a list of regions on the regions an IPAM already
    holds (none of them twice): the calls all return exactly when the list
    repeats no region and names none that is held; the IPAM then holds the
    old regions followed by the list.  Otherwise the call that throws is the
    one for the first region of the list that is held already or that the
    list named before: it throws the duplicate-region error for that region,
    no later region is added, and the regions of the list before it stay,
    after the old regions.  In every case no region is held twice. *)
Theorem addRegion_holds_each_region_once regions xs :
  NoDup regions →
  NoDup (fst (Ipam_addRegions regions xs))
  ∧ (snd (Ipam_addRegions regions xs) = Ok tt
     ↔ NoDup xs ∧ ∀ x, x ∈ xs → x ∉ regions)
  ∧ (snd (Ipam_addRegions regions xs) = Ok tt →
     fst (Ipam_addRegions regions xs) = regions ++ xs)
  ∧ (∀ e, snd (Ipam_addRegions regions xs) = Err e →
     ∃ pre x post,
       xs = pre ++ x :: post
       ∧ NoDup pre ∧ (∀ y, y ∈ pre → y ∉ regions)
       ∧ (x ∈ regions ∨ x ∈ pre)
       ∧ e = DuplicateRegion x
       ∧ fst (Ipam_addRegions regions xs) = regions ++ pre).
Proof. apply addRegions_spec. Qed.

Lemma addRegion_holds_each_region_once_witness :
  Ipam_addRegions ["us-east-1"] ["us-west-2"; "eu-west-1"; "us-west-2"; "sa-east-1"]
  = (["us-east-1"; "us-west-2"; "eu-west-1"], Err (DuplicateRegion "us-west-2"))
  ∧ NoDup (fst (Ipam_addRegions ["us-east-1"]
                  ["us-west-2"; "eu-west-1"; "us-west-2"; "sa-east-1"])).
Proof.
  split; [vm_compute; reflexivity|].
  refine (proj1 (addRegion_holds_each_region_once ["us-east-1"] _ _)). by_compute.
Defined.

(** The constructor of an IPAM with [props.regions]: it gets through the
    regions exactly when the list repeats none, and the operating regions
    are then the list, in its order; without [props.regions] the IPAM has no
    operating region. *)
Theorem constructor_regions propsRegions :
  (snd (Ipam_initRegions propsRegions) = Ok tt ↔ NoDup (default [] propsRegions))
  ∧ (NoDup (default [] propsRegions) →
     fst (Ipam_initRegions propsRegions) = default [] propsRegions)
  ∧ Ipam_initRegions None = ([], Ok tt).
Proof.
  unfold Ipam_initRegions.
  destruct (addRegions_spec (default [] propsRegions) [] (NoDup_nil_2))
    as (_ & Hiff & Hok & _).
  split_and!.
  - rewrite Hiff. split; [by intros [? _]|].
    intros H. split; [done|]. intros x _. apply not_elem_of_nil.
  - intros Hnd. apply Hok, Hiff. split; [done|]. intros x _. apply not_elem_of_nil.
  - done.
Qed.

Lemma constructor_regions_witness :
  Ipam_initRegions (Some ["us-east-1"; "us-west-2"]) = (["us-east-1"; "us-west-2"], Ok tt)
  ∧ snd (Ipam_initRegions (Some ["us-east-1"; "us-east-1"]))
    = Err (DuplicateRegion "us-east-1").
Proof.
  split; [|vm_compute; reflexivity].
  destruct (constructor_regions (Some ["us-east-1"; "us-west-2"])) as (Hiff & Hfst & _).
  assert (NoDup ["us-east-1"; "us-west-2"]) as Hnd by by_compute.
  pose proof (proj2 Hiff Hnd) as Hsnd. specialize (Hfst Hnd).
  destruct (Ipam_initRegions (Some ["us-east-1"; "us-west-2"])) as [l r].
  simpl in *. by rewrite Hsnd, Hfst.
Defined.

Lemma associateResourceDiscovery_fresh self rd w :
  String.append "resource-discovery-" (addr rd)
    ∉ Construct.childrenOf (tree w) (ipamPath self) →
  ∃ w',
    IpamBase_associateResourceDiscovery self rd w
    = (w', Ok {| associationPath :=
                   Construct.childPath (ipamPath self)
                     (String.append "resource-discovery-" (addr rd));
                 associationIpam := ipamPath self;
                 associationResourceDiscovery := rd |}).
Proof.
  intros Hfree. rewrite <- associationName in Hfree.
  apply newConstruct_fresh in Hfree as (w1 & Hnew & _ & Hempty & _);
    [|by apply append_nonempty].
  assert (Construct.sanitizeId "Resource" ∉ Construct.childrenOf (tree w1)
            (Construct.childPath (ipamPath self)
               (String.append "resource-discovery-" (addr rd)))) as Hres.
  { rewrite Hempty. apply not_elem_of_nil. }
  apply newConstruct_fresh in Hres as (w2 & Hnew' & _); [|done].
  exists w2.
  unfold IpamBase_associateResourceDiscovery, IpamResourceDiscoveryAssociation_new.
  rewrite (bind_ok _ _ _ _ _ Hnew). by rewrite (bind_ok _ _ _ _ _ Hnew').
Qed.

(** Resource discoveries of different addresses do not get in each other's
    way: after one is associated, another whose association id is free is
    associated too, and the IPAM holds the two associations in the order of
    the calls. *)
Theorem associateResourceDiscovery_distinct self rd1 rd2 w w1 a1 :
  addr rd1 ≠ addr rd2 →
  IpamBase_associateResourceDiscovery self rd1 w = (w1, Ok a1) →
  String.append "resource-discovery-" (addr rd2)
    ∉ Construct.childrenOf (tree w) (ipamPath self) →
  ∃ w2 a2,
    IpamBase_associateResourceDiscovery self rd2 w1 = (w2, Ok a2)
    ∧ associationResourceDiscovery a2 = rd2
    ∧ associationIpam a2 = ipamPath self
    ∧ Construct.childrenOf (tree w2) (ipamPath self)
      = Construct.childrenOf (tree w) (ipamPath self)
        ++ [String.append "resource-discovery-" (addr rd1);
            String.append "resource-discovery-" (addr rd2)].
Proof.
  intros Hne Hfirst Hfree.
  destruct (associateResourceDiscovery_ok _ _ _ _ _ Hfirst) as [_ Hch1].
  assert (String.append "resource-discovery-" (addr rd2)
            ∉ Construct.childrenOf (tree w1) (ipamPath self)) as Hfree1.
  { rewrite Hch1. intros [Hold|Hnew%list_elem_of_singleton]%elem_of_app; [done|].
    apply Hne. symmetry. by apply (inj (String.app "resource-discovery-")). }
  destruct (associateResourceDiscovery_fresh self rd2 w1 Hfree1) as [w2 Hsecond].
  eexists w2, _. split; [exact Hsecond|]. split_and!; [done|done|].
  destruct (associateResourceDiscovery_ok _ _ _ _ _ Hsecond) as [_ Hch2].
  rewrite Hch2, Hch1. by rewrite <- app_assoc.
Qed.

Lemma associateResourceDiscovery_distinct_witness :
  let other := {| discoveryPath := "stack/other-discovery";
                  addr := "c8000000000000000000000000000000000000beef";
                  addrIsHex := eq_refl;
                  ipamResourceDiscoveryId := "ipam-res-disco-0c2d" |} in
  ∃ w1 a1 w2 a2,
    IpamBase_associateResourceDiscovery theIpam discovery emptyWorld = (w1, Ok a1)
    ∧ IpamBase_associateResourceDiscovery theIpam other w1 = (w2, Ok a2)
    ∧ length (Construct.childrenOf (tree w2) (ipamPath theIpam)) = 2%nat.
Proof.
  intros other.
  destruct (IpamBase_associateResourceDiscovery theIpam discovery emptyWorld)
    as [w1 [a1|e]] eqn:Hfirst; [|by vm_compute in Hfirst].
  destruct (associateResourceDiscovery_distinct theIpam discovery other
              emptyWorld w1 a1) as (w2 & a2 & Hsecond & _ & _ & Hch);
    [by_compute|exact Hfirst|by_compute|].
  exists w1, a1, w2, a2. split_and!; [reflexivity|exact Hsecond|].
  by rewrite Hch.
Defined.

End IpamRegions.
